(** * Amazon order history to CSV: a verification development

    A shallow embedding of [get-order-history.js] and proofs of the
    properties its specification states.  The other two versions of the
    script that the repository keeps have the same currency, wait, year and
    cookie helpers; of the version that reads the details page of each
    order, [getOrderDetails] and [processOrder] are embedded too (module
    [OrderDetails]).

    Conventions of the embedding.
    - A JavaScript string is the list of its UTF-16 code units ([jsstring]).
    - A JavaScript number that holds an amount of cents, a count or a year is
      an integer of [Z].  The arithmetic of the script on such numbers
      ([+], [-], [*], [parseInt]) is exact on doubles as long as the
      integers stay in the range of safe integers (below [2^53] in absolute
      value); the theorems about parsing and printing amounts state the
      bound they are meant for.  The division [cents / 100] of [centsToUSD]
      is not exact on doubles: it is written out with its rounding to the
      nearest double, and [toFixed(2)] works on the double it gives.
    - A write to a file can fail part-way.  A rejected [fsp.writeFile] or
      [fsp.appendFile] has left the file as it was, or it has opened the
      file (which empties it, for [writeFile]) and written a beginning of
      the data; the environment tells which.
    - [null] and [undefined] are [None].
    - A rejected promise / thrown exception is the [Throw] result; the
      loops that the script does not bound are unrolled a given number of
      times ([fuel]), and [OutOfFuel] tells that this was not enough.
    - Regular expressions are run by a backtracking matcher that follows the
      ECMAScript pattern semantics (priority order of alternatives, greedy
      quantifiers, leftmost match).
    - Console output is not modelled. *)

From Stdlib Require Import List ZArith NArith Bool Lia String Ascii Arith.
Import ListNotations.

Set Implicit Arguments.

(* ================================================================== *)
(** * Part I: definitions                                              *)
(* ================================================================== *)

(** ** JavaScript strings *)

Module JS.

(** A code unit is a number below 2^16; a string is a list of them. *)
Abbreviation char := N (only parsing).
Abbreviation jsstring := (list N) (only parsing).

(** The code units of an ASCII literal. *)
Definition lit (s : string) : jsstring :=
  List.map N_of_ascii (list_ascii_of_string s).

Definition char_eqb (a b : char) : bool := N.eqb a b.

Fixpoint str_eqb (a b : jsstring) : bool :=
  match a, b with
  | [], [] => true
  | x :: a', y :: b' => char_eqb x y && str_eqb a' b'
  | _, _ => false
  end.

(** [\d] *)
Definition is_digit (c : char) : bool := (N.leb 48 c && N.leb c 57)%N.

(** [\s], which is also the set that [String.prototype.trim] strips:
    WhiteSpace and LineTerminator of ECMAScript. *)
Definition is_space (c : char) : bool :=
  (N.leb 9 c && N.leb c 13)          (* TAB LF VT FF CR *)
  || N.eqb c 32                      (* SPACE *)
  || N.eqb c 160                     (* NBSP *)
  || N.eqb c 5760                    (* U+1680 *)
  || (N.leb 8192 c && N.leb c 8202)  (* U+2000 .. U+200A *)
  || N.eqb c 8232 || N.eqb c 8233    (* LS PS *)
  || N.eqb c 8239                    (* U+202F *)
  || N.eqb c 8287                    (* U+205F *)
  || N.eqb c 12288                   (* U+3000 *)
  || N.eqb c 65279.                  (* U+FEFF *)

(** Canonicalize of a case-insensitive pattern without the [u] flag, for the
    comparison against an ASCII pattern character: ASCII letters fold to
    upper case, and no code unit above 127 ever folds to an ASCII one. *)
Definition canonicalize (c : char) : char :=
  if (N.leb 97 c && N.leb c 122)%N then (c - 32)%N else c.

Fixpoint trimStart (s : jsstring) : jsstring :=
  match s with
  | c :: t => if is_space c then trimStart t else s
  | [] => []
  end.

Definition trimEnd (s : jsstring) : jsstring := rev (trimStart (rev s)).

(** [s.trim()] *)
Definition trim (s : jsstring) : jsstring := trimEnd (trimStart s).

(** [s.slice(0, n)] for [n >= 0]. *)
Definition slice0 (n : nat) (s : jsstring) : jsstring := firstn n s.

(** What [s.replace(/[class]/g, repl)] comes to: every code unit of the
    class is a match of length one and is replaced by [repl]. *)
Definition replaceAllClass (p : char -> bool) (repl : jsstring) (s : jsstring)
  : jsstring :=
  flat_map (fun c => if p c then repl else [c]) s.

(** What [s.replace(/[class]+/g, repl)] comes to: every maximal run of
    code units of the class is one match.  [inRun] tells that the previous
    code unit belonged to a run that has been replaced already. *)
Fixpoint replaceAllRuns_aux (p : char -> bool) (repl : jsstring)
  (inRun : bool) (s : jsstring) : jsstring :=
  match s with
  | [] => []
  | c :: t =>
      if p c then
        (if inRun then [] else repl) ++ replaceAllRuns_aux p repl true t
      else c :: replaceAllRuns_aux p repl false t
  end.

Definition replaceAllRuns (p : char -> bool) (repl : jsstring) (s : jsstring)
  : jsstring := replaceAllRuns_aux p repl false s.

(** [s.split(sep)] for a separator of one code unit. *)
Fixpoint split (sep : char) (s : jsstring) : list jsstring :=
  match s with
  | [] => [[]]
  | c :: t =>
      if char_eqb c sep then [] :: split sep t
      else match split sep t with
           | cur :: more => (c :: cur) :: more
           | [] => [[c]]
           end
  end.

(** [arr.join(sep)] on an array of strings. *)
Fixpoint join (sep : jsstring) (l : list jsstring) : jsstring :=
  match l with
  | [] => []
  | [x] => x
  | x :: rest => x ++ sep ++ join sep rest
  end.

(** *** Numbers and their decimal notation *)

Local Open Scope Z_scope.

Definition digit_val (c : char) : Z := Z.of_N c - 48.
Definition digit_char (d : Z) : char := Z.to_N (d + 48).

(** The mathematical value of a string of decimal digits. *)
Definition digits_val (ds : jsstring) : Z :=
  fold_left (fun acc c => acc * 10 + digit_val c) ds 0.

Fixpoint takeWhile (p : char -> bool) (s : jsstring) : jsstring :=
  match s with
  | c :: t => if p c then c :: takeWhile p t else []
  | [] => []
  end.

(** [parseInt(s, 10)]; [None] is NaN.  Leading white space is skipped, a
    sign is read, then the longest prefix of decimal digits. *)
Definition parseInt10 (s : jsstring) : option Z :=
  let s1 := trimStart s in
  let (sign, s2) :=
    match s1 with
    | 45%N :: t => (-1, t)
    | 43%N :: t => (1, t)
    | _ => (1, s1)
    end in
  match takeWhile is_digit s2 with
  | [] => None
  | ds => Some (sign * digits_val ds)
  end.

(** [n || d] for a number [n]: NaN and 0 are falsy. *)
Definition num_or (n : option Z) (d : Z) : Z :=
  match n with
  | Some v => if Z.eqb v 0 then d else v
  | None => d
  end.

(** Decimal digits of a non-negative integer, most significant first. *)
Fixpoint to_digits_aux (fuel : nat) (n : Z) (acc : jsstring) : jsstring :=
  match fuel with
  | O => digit_char (n mod 10) :: acc
  | S fuel' =>
      if Z.ltb n 10 then digit_char n :: acc
      else to_digits_aux fuel' (n / 10) (digit_char (n mod 10) :: acc)
  end.

Definition to_digits (n : Z) : jsstring :=
  to_digits_aux (Z.to_nat (Z.log2 n)) n [].

(** [String(n)] for an integer [n]. *)
Definition numToString (n : Z) : jsstring :=
  if Z.ltb n 0 then 45%N :: to_digits (- n) else to_digits n.

(** *** Division on doubles

    The quotient of two positive integers as the double that [/] gives:
    the number [m * 2^e] with 53 significant bits that is nearest to the
    quotient, ties going to the even [m].  The range of the exponent is not
    bounded here: no amount of cents comes near the largest double. *)

(** The integer nearest to [n / d] for [d > 0], ties to even. *)
Definition round_nearest_even (n d : Z) : Z :=
  let q := n / d in
  let r := n mod d in
  if Z.ltb (2 * r) d then q
  else if Z.ltb d (2 * r) then q + 1
  else if Z.even q then q
  else q + 1.

(** The exponent [e] for which [2^52 <= p / (q * 2^e) < 2^53]. *)
Definition binary_exponent (p q : Z) : Z :=
  let d := Z.log2 p - Z.log2 q in
  let reached :=
    if Z.leb 0 d then Z.leb (q * 2 ^ d) p else Z.leb q (p * 2 ^ (- d)) in
  (if reached then d else d - 1) - 52.

(** [p / q] on doubles, for [0 <= p] and [0 < q]: the pair [(m, e)]. *)
Definition double_div (p q : Z) : Z * Z :=
  if Z.eqb p 0 then (0, 0)
  else
    let e := binary_exponent p q in
    (if Z.leb 0 e then round_nearest_even p (q * 2 ^ e)
     else round_nearest_even (p * 2 ^ (- e)) q,
     e).

(** The integer [n] of [x.toFixed(2)] for the double [x = m * 2^e >= 0]:
    the one for which [n / 100 - x] is nearest to zero, the larger one of
    two. *)
Definition toFixed2_int (x : Z * Z) : Z :=
  let (m, e) := x in
  if Z.leb 0 e then 100 * m * 2 ^ e
  else (200 * m + 2 ^ (- e)) / (2 * 2 ^ (- e)).

End JS.
Import JS.

Local Open Scope nat_scope.

(** ** Regular expressions *)

Module RegExp.

Inductive regex : Type :=
| Empty                                            (* the empty pattern *)
| Class (p : char -> bool)                         (* one code unit *)
| Seq (r1 r2 : regex)
| Alt (r1 r2 : regex)                              (* r1|r2 *)
| Rep (r : regex) (min : nat) (max : option nat)   (* greedy r{min,max} *)
| Group (n : nat) (r : regex)                      (* capture number n *)
| Bol.                                             (* ^ *)

(** A state of the matcher: the index reached, the input that is left and
    the captures made so far. *)
Record MatchState := mkState {
  endIndex : nat;
  rest : jsstring;
  captures : list (nat * jsstring)
}.

Definition advance (x : MatchState) (t : jsstring) : MatchState :=
  mkState (S (endIndex x)) t (captures x).

Definition set_capture (n : nat) (x y : MatchState) : MatchState :=
  mkState (endIndex y) (rest y)
    ((n, firstn (endIndex y - endIndex x) (rest x))
       :: filter (fun p => negb (Nat.eqb (fst p) n)) (captures y)).

Definition clear_captures (gs : list nat) (x : MatchState) : MatchState :=
  mkState (endIndex x) (rest x)
    (filter (fun p => negb (existsb (Nat.eqb (fst p)) gs)) (captures x)).

Fixpoint capture (n : nat) (caps : list (nat * jsstring)) : option jsstring :=
  match caps with
  | [] => None
  | (k, v) :: more => if Nat.eqb k n then Some v else capture n more
  end.

Fixpoint groups (r : regex) : list nat :=
  match r with
  | Empty | Class _ | Bol => []
  | Seq a b | Alt a b => groups a ++ groups b
  | Rep a _ _ => groups a
  | Group n a => n :: groups a
  end.

(** RepeatMatcher.  The result lists the states in which the quantified atom
    can stop, in the order in which backtracking tries them. *)
Fixpoint repeat_matcher (m : MatchState -> list MatchState)
  (clear : MatchState -> MatchState)
  (fuel : nat) (min : nat) (max : option nat) (x : MatchState)
  : list MatchState :=
  match max with
  | Some O => [x]
  | _ =>
    match fuel with
    | O => []
    | S fuel' =>
        let d := fun y =>
          if Nat.eqb min 0 && Nat.eqb (endIndex y) (endIndex x) then []
          else repeat_matcher m clear fuel' (Nat.pred min)
                 (option_map Nat.pred max) y in
        let z := flat_map d (m (clear x)) in
        if Nat.eqb min 0 then z ++ [x] else z
    end
  end.

(** All the ways to match [r] from state [x], first choice first. *)
Fixpoint matches (r : regex) (x : MatchState) : list MatchState :=
  match r with
  | Empty => [x]
  | Class p =>
      match rest x with
      | c :: t => if p c then [advance x t] else []
      | [] => []
      end
  | Seq a b => flat_map (matches b) (matches a x)
  | Alt a b => matches a x ++ matches b x
  | Rep a min max =>
      repeat_matcher (matches a) (clear_captures (groups a))
        (List.length (rest x) + min + 1) min max x
  | Group n a => List.map (set_capture n x) (matches a x)
  | Bol => if Nat.eqb (endIndex x) 0 then [x] else []
  end.

(** The result of a successful [exec]: the index of the match, the matched
    substring and the captures. *)
Record MatchResult := mkResult {
  index : nat;
  matched : jsstring;
  caps : list (nat * jsstring)
}.

(** RegExpBuiltinExec without the [g] and [y] flags: the leftmost index at
    which the pattern matches, with the first choice there. *)
Fixpoint exec_from (r : regex) (i : nat) (s : jsstring) : option MatchResult :=
  match matches r (mkState i s []) with
  | y :: _ => Some (mkResult i (firstn (endIndex y - i) s) (captures y))
  | [] =>
      match s with
      | _ :: t => exec_from r (S i) t
      | [] => None
      end
  end.

Definition exec (r : regex) (s : jsstring) : option MatchResult :=
  exec_from r 0 s.

(** [re.test(s)] *)
Definition test (r : regex) (s : jsstring) : bool :=
  match exec r s with Some _ => true | None => false end.

(** [s.replace(re, repl)] for a pattern without the [g] flag and a
    replacement without [$]: the first match is replaced. *)
Definition replaceFirst (r : regex) (repl : jsstring) (s : jsstring)
  : jsstring :=
  match exec r s with
  | Some m =>
      firstn (index m) s ++ repl
        ++ skipn (index m + List.length (matched m)) s
  | None => s
  end.

(** [s.replace(re, repl)] for a pattern with the [g] flag and a replacement
    without [$]: the matches are found one after the other, each search
    starting where the last match ended (one code unit further after an
    empty match), and each of them is replaced.  [i] is the index at which
    [s] starts in the whole string. *)
Fixpoint replaceAll_from (fuel : nat) (r : regex) (repl : jsstring) (i : nat)
  (s : jsstring) : jsstring :=
  match fuel with
  | O => s
  | S fuel' =>
      match exec_from r i s with
      | None => s
      | Some m =>
          let before := firstn (index m - i) s in
          let after := skipn (index m - i + List.length (matched m)) s in
          match matched m with
          | [] =>
              before ++ repl
                ++ match after with
                   | [] => []
                   | c :: t =>
                       c :: replaceAll_from fuel' r repl (S (index m)) t
                   end
          | _ =>
              before ++ repl
                ++ replaceAll_from fuel' r repl
                     (index m + List.length (matched m)) after
          end
      end
  end.

Definition replaceAll (r : regex) (repl : jsstring) (s : jsstring)
  : jsstring :=
  replaceAll_from (S (List.length s)) r repl 0 s.

(** Pattern builders. *)
Definition chr (c : char) : regex := Class (char_eqb c).
Definition chr_i (c : char) : regex :=
  Class (fun d => char_eqb (canonicalize d) (canonicalize c)).
Fixpoint word (mk : char -> regex) (w : jsstring) : regex :=
  match w with
  | [] => Empty
  | [c] => mk c
  | c :: t => Seq (mk c) (word mk t)
  end.
Definition opt (r : regex) : regex := Rep r 0 (Some 1).
Definition star (r : regex) : regex := Rep r 0 None.
Definition plus (r : regex) : regex := Rep r 1 None.
Definition digit : regex := Class is_digit.
Definition space : regex := Class is_space.

End RegExp.
Import RegExp.

Local Open Scope Z_scope.

(** ** Currency helpers (USD) *)

(** [/\$?\s*(\d{1,3}(,\d{3})*|\d+)\.\d{2}/], in its parts:
    [(,\d{3})], [\d{1,3}(,\d{3})*], [\.\d{2}], the pattern from the first
    digit on, and [\$?\s*]. *)
Definition commaGroup : regex :=
  Group 2 (Seq (chr 44) (Rep digit 3 (Some 3%nat))).

Definition groupedDigits : regex :=
  Seq (Rep digit 1 (Some 3%nat)) (star commaGroup).

Definition fraction : regex := Seq (chr 46) (Rep digit 2 (Some 2%nat)).

Definition currencyBody : regex :=
  Seq (Group 1 (Alt groupedDigits (plus digit))) fraction.

Definition currencyPrefix : regex := Seq (opt (chr 36)) (star space).

Definition currencyRegex : regex := Seq currencyPrefix currencyBody.

(** [/[^\d.]/] *)
Definition notDigitOrPoint : regex :=
  Class (fun c => negb (is_digit c || char_eqb c 46)).

Definition usdToCents (value : option jsstring) : Z :=
  match value with
  | None => 0
  | Some [] => 0
  | Some v =>
      let s := trim (replaceAll (plus space) (lit " ") v) in
      match exec currencyRegex s with
      | None => 0
      | Some m =>
          let normalized := replaceAll notDigitOrPoint [] (matched m) in
          let parts := split 46 normalized in
          let dollars := nth 0 parts [] in
          let cents := nth 1 parts (lit "00") in
          num_or (parseInt10 dollars) 0 * 100 + num_or (parseInt10 cents) 0
      end
  end.

(** [(cents / 100).toFixed(2)] for an integer amount of cents: the division
    rounds to a double, and [toFixed(2)] prints the double with its sign, the
    digits of [n] before the last two, a point and the last two digits.
    ([toFixed] changes to the exponent notation from 10^21 on, which is not
    embedded: amounts of 10^23 cents and more are beyond this definition.) *)
Definition centsToUSD (cents : Z) : jsstring :=
  let n := toFixed2_int (double_div (Z.abs cents) 100) in
  (if Z.ltb cents 0 then lit "-" else [])
    ++ to_digits (n / 100) ++ lit "."
    ++ [digit_char (n mod 100 / 10); digit_char (n mod 10)].

(** ** Results, the world and the monad of the script *)

Inductive Result (A : Type) : Type :=
| Ok (a : A)              (* the promise is fulfilled / the call returns *)
| Throw (e : jsstring)    (* it is rejected / throws an error with message e *)
| OutOfFuel.              (* the model stopped unrolling a loop *)
Arguments Ok {A} a.
Arguments Throw {A} e.
Arguments OutOfFuel {A}.

(** What a call into node, puppeteer or the page answers. *)
Inductive Answer (A : Type) : Type :=
| Fulfilled (a : A)
| Rejected (e : jsstring).
Arguments Fulfilled {A} a.
Arguments Rejected {A} e.

Definition result_of {A} (a : Answer A) : Result A :=
  match a with
  | Fulfilled v => Ok v
  | Rejected e => Throw e
  end.

(** A puppeteer element handle, as the answers it gives while an order is
    processed: the outcome of reading [textContent] through [evaluate], of
    [el.$(selector)] and of [el.$$(selector)]. *)
#[local] Unset Elimination Schemes.
Inductive Element : Type :=
| mkElement (textContent : Answer jsstring)
            (query : jsstring -> Answer (option Element))
            (queryAll : jsstring -> Answer (list Element)).

#[local] Set Elimination Schemes.

Definition textContent (el : Element) : Answer jsstring :=
  match el with mkElement t _ _ => t end.
Definition query (el : Element) : jsstring -> Answer (option Element) :=
  match el with mkElement _ q _ => q end.
Definition queryAll (el : Element) : jsstring -> Answer (list Element) :=
  match el with mkElement _ _ qa => qa end.

(** A cookie object of the browser, kept opaque. *)
Definition Cookie := jsstring.

(** What [JSON.parse] gives back, as far as [for ... of] can tell. *)
Inductive Parsed : Type :=
| PIterable (items : list Cookie)
| PNotIterable.

(** The environment: what the browser, the clock, the file system and the
    command line answer at each step of the run. *)
Record Env := mkEnv {
  e_argv2 : option jsstring;                      (* process.argv[2] *)
  e_year : Z;                                     (* new Date().getFullYear() *)
  e_dirname : jsstring;                           (* __dirname *)
  e_io : nat -> Answer unit;                      (* navigation, launch, fs calls *)
  e_query : nat -> jsstring -> Answer (option Element);  (* page.$ *)
  e_queryAll : nat -> jsstring -> Answer (list Element); (* page.$$ *)
  e_url : nat -> jsstring;                        (* page.url() *)
  e_now : nat -> Z;                               (* Date.now() *)
  e_cookies : nat -> Answer (list Cookie);        (* page.cookies() *)
  json_parse : jsstring -> Answer Parsed;         (* JSON.parse *)
  json_stringify : list Cookie -> jsstring;       (* JSON.stringify(_, null, 2) *)
  e_partial : nat -> option nat                   (* how far a rejected write got *)
}.

(** The state the run changes: the step reached, the files and the cookies
    set on the page. *)
Record World := mkWorld {
  step : nat;
  files : jsstring -> option jsstring;
  jar : list Cookie
}.

Definition M (A : Type) : Type := World -> Result A * World.

Definition ret {A} (a : A) : M A := fun w => (Ok a, w).

Definition bind {A B} (m : M A) (f : A -> M B) : M B :=
  fun w =>
    match m w with
    | (Ok a, w') => f a w'
    | (Throw e, w') => (Throw e, w')
    | (OutOfFuel, w') => (OutOfFuel, w')
    end.

Definition throw {A} (e : jsstring) : M A := fun w => (Throw e, w).

Definition out_of_fuel {A} : M A := fun w => (OutOfFuel, w).

(** [try { m } catch { h }]: what [m] did to the world stays done. *)
Definition try_catch {A} (m : M A) (h : jsstring -> M A) : M A :=
  fun w =>
    match m w with
    | (Throw e, w') => h e w'
    | r => r
    end.

Definition lift {A} (a : Answer A) : M A := fun w => (result_of a, w).

Declare Scope js_scope.
Delimit Scope js_scope with js.
Notation "x <- m ;; k" := (bind m (fun x => k))
  (at level 61, m at next level, right associativity) : js_scope.
Notation "m ;;; k" := (bind m (fun _ => k))
  (at level 61, right associativity) : js_scope.
Local Open Scope js_scope.

(** [for (const x of xs) body(x)] with an accumulator. *)
Fixpoint for_of {A S} (xs : list A) (body : S -> A -> M S) (acc : S) : M S :=
  match xs with
  | [] => ret acc
  | x :: more => acc' <- body acc x ;; for_of more body acc'
  end.

Definition tick (w : World) : World :=
  mkWorld (S (step w)) (files w) (jar w).

Definition write_file (p data : jsstring) (w : World) : World :=
  mkWorld (S (step w))
    (fun q => if str_eqb q p then Some data else files w q) (jar w).

Definition file_content (w : World) (p : jsstring) : jsstring :=
  match files w p with Some c => c | None => [] end.

(** What a rejected [fsp.writeFile] or [fsp.appendFile] leaves behind.  The
    file was not opened ([None]): nothing has changed.  Or it was opened
    ([Some k]), which creates it, and empties it when the flag is ["w"];
    then the first [k] code units of the data were written before the
    failure. *)
Definition fail_write (p data : jsstring) (truncate : bool)
  (written : option nat) (w : World) : World :=
  match written with
  | None => tick w
  | Some k =>
      write_file p
        ((if truncate then [] else file_content w p) ++ firstn k data) w
  end.

Section Script.

Variable env : Env.

(** *** The calls into node and puppeteer *)

(** A call that answers nothing: [page.goto], [page.reload],
    [page.waitForSelector], [fsp.mkdir], [puppeteer.launch], ... *)
Definition io_call : M unit :=
  fun w => (result_of (e_io env (step w)), tick w).

Definition page_goto (url : jsstring) : M unit := io_call.
Definition page_reload : M unit := io_call.
Definition page_waitForSelector (selector : jsstring) (timeout : Z) : M unit :=
  io_call.
Definition page_query (selector : jsstring) : M (option Element) :=
  fun w => (result_of (e_query env (step w) selector), tick w).
Definition page_queryAll (selector : jsstring) : M (list Element) :=
  fun w => (result_of (e_queryAll env (step w) selector), tick w).
Definition page_url : M jsstring :=
  fun w => (Ok (e_url env (step w)), tick w).
Definition page_cookies : M (list Cookie) :=
  fun w => (result_of (e_cookies env (step w)), tick w).
Definition page_setCookie (c : Cookie) : M unit :=
  fun w =>
    match e_io env (step w) with
    | Fulfilled _ => (Ok tt, mkWorld (S (step w)) (files w) (jar w ++ [c]))
    | Rejected e => (Throw e, tick w)
    end.
Definition date_now : M Z :=
  fun w => (Ok (e_now env (step w)), tick w).
Definition sleep (ms : Z) : M unit :=
  fun w => (Ok tt, tick w).
Definition fs_existsSync (p : jsstring) : M bool :=
  fun w => (Ok (match files w p with Some _ => true | None => false end), w).
Definition fs_readFile (p : jsstring) : M jsstring :=
  fun w =>
    match e_io env (step w), files w p with
    | Fulfilled _, Some c => (Ok c, tick w)
    | Fulfilled _, None => (Throw (lit "ENOENT"), tick w)
    | Rejected e, _ => (Throw e, tick w)
    end.
Definition fs_writeFile (p data : jsstring) : M unit :=
  fun w =>
    match e_io env (step w) with
    | Fulfilled _ => (Ok tt, write_file p data w)
    | Rejected e =>
        (Throw e, fail_write p data true (e_partial env (step w)) w)
    end.
Definition fs_appendFile (p data : jsstring) : M unit :=
  fun w =>
    match e_io env (step w) with
    | Fulfilled _ => (Ok tt, write_file p (file_content w p ++ data) w)
    | Rejected e =>
        (Throw e, fail_write p data false (e_partial env (step w)) w)
    end.
Definition fs_mkdir (p : jsstring) : M unit := io_call.
Definition startsWithSlash (p : jsstring) : bool :=
  match p with
  | c :: _ => char_eqb c 47
  | [] => false
  end.
(** [path.resolve(dir, rel)] for an absolute, normalized [dir] (as
    [__dirname] is) and a relative [rel] without [.] or [..] segments. *)
Definition path_resolve (dir rel : jsstring) : jsstring :=
  dir ++ lit "/" ++ rel.
(** [path.dirname(p)] for a path that does not end in a separator: what
    precedes its last ["/"]. *)
Fixpoint beforeLastSlash (p : jsstring) : jsstring :=
  match p with
  | [] => []
  | c :: t => if existsb (char_eqb 47) t then c :: beforeLastSlash t else []
  end.
Definition path_dirname (p : jsstring) : jsstring :=
  match beforeLastSlash p with
  | [] => if startsWithSlash p then lit "/" else lit "."
  | d => d
  end.

(** *** Tunables / Selectors (US) *)

Definition BASE_URL : jsstring := lit "https://www.amazon.com".
Definition ORDERS_URL : jsstring :=
  lit "https://www.amazon.com/gp/your-account/order-history".

(** [/(Return|Returned|Refund|Refunded|Replacement)/i] *)
Definition returnedRegex : regex :=
  Group 1
    (Alt (word chr_i (lit "Return"))
    (Alt (word chr_i (lit "Returned"))
    (Alt (word chr_i (lit "Refund"))
    (Alt (word chr_i (lit "Refunded"))
         (word chr_i (lit "Replacement")))))).

Definition ORDER_CONTAINER : jsstring :=
  lit "#ordersContainer, section.your-orders-content-container".
Definition ORDER_GROUP : jsstring :=
  lit "#ordersContainer .a-box-group.order, section.your-orders-content-container .a-box-group.order".
Definition ORDER_DATE : jsstring :=
  lit ".order-header .a-fixed-right-grid-col.a-col-left .a-row .a-column.a-span3 .a-row span.aok-break-word".
Definition ORDER_PRICE : jsstring :=
  lit ".order-header .a-fixed-right-grid-col.a-col-left .a-row .a-column.a-span2 .a-row span.aok-break-word".
Definition ORDER_SHIPMENTS : jsstring := lit ".a-box.shipment".
Definition SHIPMENT_STATUS : jsstring :=
  lit ".a-box-inner .a-row.shipment-top-row.js-shipment-info-container".
Definition ARTICLE_SHIPMENT : jsstring :=
  lit ".a-box-inner .a-fixed-right-grid.a-spacing-top-medium .a-fixed-right-grid-inner.a-grid-vertical-align.a-grid-top .a-fixed-right-grid-col.a-col-left .a-row .a-fixed-left-grid .a-fixed-left-grid-inner".
Definition ARTICLE_NAME : jsstring :=
  lit ".a-fixed-left-grid-col.a-col-right div:nth-of-type(1).a-row".
Definition ARTICLE_PRICE : jsstring :=
  lit ".a-fixed-left-grid-col.a-col-right div.a-row .a-size-small.a-color-price".

(** *** Small helpers *)

Definition timedOut : jsstring := lit "Timed out waiting for condition".

(** One turn of the [for (;;)] of [waitUntil]; [None] means that the loop
    goes round again. *)
Definition waitUntil_turn (checkFn : M bool) (start timeoutMs intervalMs : Z)
  : M (option bool) :=
  ok <- try_catch checkFn (fun _ => ret false) ;;
  if ok then ret (Some true)
  else
    now <- date_now ;;
    if Z.gtb (now - start) timeoutMs then throw timedOut
    else sleep intervalMs ;;; ret None.

Fixpoint waitUntil_loop (fuel : nat) (checkFn : M bool)
  (start timeoutMs intervalMs : Z) : M bool :=
  match fuel with
  | O => out_of_fuel
  | S fuel' =>
      r <- waitUntil_turn checkFn start timeoutMs intervalMs ;;
      match r with
      | Some b => ret b
      | None => waitUntil_loop fuel' checkFn start timeoutMs intervalMs
      end
  end.

Definition waitUntil (fuel : nat) (checkFn : M bool) (timeoutMs intervalMs : Z)
  : M bool :=
  start <- date_now ;;
  waitUntil_loop fuel checkFn start timeoutMs intervalMs.

(** The [for (let y = current; y >= 2000; y--)] of [getYearsFromArg]. *)
Fixpoint years_loop (trips : nat) (y : Z) (years : list jsstring)
  : list jsstring :=
  match trips with
  | O => years
  | S trips' =>
      if Z.geb y 2000 then years_loop trips' (y - 1) (years ++ [numToString y])
      else years
  end.

Definition getYearsFromArg (argv2 : option jsstring) (current : Z)
  : list jsstring :=
  match argv2 with
  | Some (c :: a) => [c :: a]
  | _ => years_loop (Z.to_nat (current - 1999)) current []
  end.

Definition textOrEmpty (el : Element) (selector : jsstring) : M jsstring :=
  try_catch
    (child <- lift (query el selector) ;;
     match child with
     | None => ret []
     | Some c =>
         txt <- lift (match textContent c with
                      | Fulfilled t => Fulfilled (trim t)
                      | Rejected e => Rejected e
                      end) ;;
         ret (match txt with [] => [] | _ => txt end)
     end)
    (fun _ => ret []).

Definition loadCookies (p : jsstring) : M bool :=
  try_catch
    (there <- fs_existsSync p ;;
     if negb there then ret false
     else
       text <- fs_readFile p ;;
       cookies <- lift (json_parse env text) ;;
       match cookies with
       | PNotIterable => throw (lit "cookies is not iterable")
       | PIterable cs =>
           for_of cs (fun _ c => page_setCookie c) tt ;;; ret true
       end)
    (fun _ => ret false).

Definition saveCookies (p : jsstring) : M unit :=
  cookies <- page_cookies ;;
  fs_writeFile p (json_stringify env cookies).

(** [s.startsWith(needle)] and [s.includes(needle)] *)
Fixpoint startsWith (needle s : jsstring) : bool :=
  match needle, s with
  | [], _ => true
  | a :: n', b :: s' => char_eqb a b && startsWith n' s'
  | _ :: _, [] => false
  end.

Fixpoint includes (needle s : jsstring) : bool :=
  startsWith needle s
  || match s with
     | [] => false
     | _ :: t => includes needle t
     end.

Definition signInTimeoutMs : Z := 10 * 60 * 1000.

Definition signInCheck : M bool :=
  hasOrders <- page_query ORDER_CONTAINER ;;
  match hasOrders with
  | Some _ => ret true
  | None =>
      url <- page_url ;;
      if includes (lit "/ap/signin") url
         || includes (lit "/ap/mfa") url
         || includes (lit "/ap/cvf") url
         || includes (lit "/ap/challenge") url
      then ret false
      else ret false
  end.

Definition ensureSignedInAndOnOrders (fuel : nat) (saveCookiesFn : M unit)
  : M unit :=
  page_goto ORDERS_URL ;;;
  waitUntil fuel signInCheck signInTimeoutMs 1000 ;;;
  try_catch saveCookiesFn (fun _ => ret tt).

(** *** CSV rows *)

Definition dquote : jsstring := [34%N].

Definition csvField (s : jsstring) : jsstring :=
  dquote ++ replaceAll (chr 34) (dquote ++ dquote) s ++ dquote.

Definition csvRow (rowData : list jsstring) : jsstring :=
  join (lit ";") (List.map csvField rowData) ++ [10%N].

Definition writeCSVRow (csvPath : jsstring) (rowData : list jsstring) : M unit :=
  fs_appendFile csvPath (csvRow rowData).

Definition calculateAndWriteShippingCosts (csvPath orderDate : jsstring)
  (orderPriceCents orderArticlePricesTotal : Z) : M Z :=
  let shipmentCostCents := orderPriceCents - orderArticlePricesTotal in
  let shipmentCostCents :=
    if Z.ltb shipmentCostCents 0 then 0 else shipmentCostCents in
  (if Z.gtb shipmentCostCents 0 then
     writeCSVRow csvPath
       [orderDate; []; lit "1"; lit "shipment";
        centsToUSD shipmentCostCents; centsToUSD shipmentCostCents; []]
   else ret tt) ;;;
  ret shipmentCostCents.

(** [/^(\d+)\s+(of|x)\s+/i] *)
Definition quantityRegex : regex :=
  Seq Bol
    (Seq (Group 1 (plus digit))
    (Seq (plus space)
    (Seq (Group 2 (Alt (word chr_i (lit "of")) (chr_i 120)))
         (plus space)))).

(** The quantity detection of [processShipment]: the count and the name
    that are left after it. *)
Definition detectQuantity (articleName : jsstring) : Z * jsstring :=
  match exec quantityRegex articleName with
  | Some mCount =>
      (num_or (match capture 1 (caps mCount) with
               | Some d => parseInt10 d
               | None => None
               end) 1,
       replaceFirst quantityRegex [] articleName)
  | None => (1, articleName)
  end.

Definition firstLine (s : jsstring) : jsstring := nth 0 (split 10 s) [].

Definition processItem (shipmentStatus : jsstring) (shipmentIsReturn : bool)
  (orderDate csvPath : jsstring) (totals : Z * Z) (itemEl : Element)
  : M (Z * Z) :=
  let (shipmentTotal, shipmentTotalAfterReturns) := totals in
  articleName <- textOrEmpty itemEl ARTICLE_NAME ;;
  let articleName :=
    match articleName with
    | [] => lit "ERROR: selector_article_name not found"
    | _ => replaceAll (chr 59) (lit ",") (slice0 80 articleName)
    end in
  let (articleCount, articleName) := detectQuantity articleName in
  priceText <- textOrEmpty itemEl ARTICLE_PRICE ;;
  let singleCents := usdToCents (Some priceText) in
  let lineCents := singleCents * articleCount in
  let shipmentTotal := shipmentTotal + lineCents in
  let shipmentTotalAfterReturns :=
    if negb shipmentIsReturn then shipmentTotalAfterReturns + lineCents
    else shipmentTotalAfterReturns in
  writeCSVRow csvPath
    [orderDate; shipmentStatus; numToString articleCount; articleName;
     centsToUSD singleCents;
     centsToUSD (if shipmentIsReturn then 0 else lineCents); []] ;;;
  ret (shipmentTotal, shipmentTotalAfterReturns).

Definition processShipment (shipEl : Element) (orderDate csvPath : jsstring)
  : M (Z * Z) :=
  rawStatus <- textOrEmpty shipEl SHIPMENT_STATUS ;;
  let shipmentStatus := trim (firstLine rawStatus) in
  let shipmentIsReturn := test returnedRegex shipmentStatus in
  itemEls <- lift (queryAll shipEl ARTICLE_SHIPMENT) ;;
  for_of itemEls
    (processItem shipmentStatus shipmentIsReturn orderDate csvPath) (0, 0).

Definition processOrder (orderEl : Element) (csvPath : jsstring) : M Z :=
  orderDate <- textOrEmpty orderEl ORDER_DATE ;;
  let orderDate :=
    match orderDate with
    | [] => lit "ERROR: selector_order_date not found"
    | _ => orderDate
    end in
  orderPriceText <- textOrEmpty orderEl ORDER_PRICE ;;
  let orderPriceCents := usdToCents (Some orderPriceText) in
  shipmentEls <- lift (queryAll orderEl ORDER_SHIPMENTS) ;;
  totals <-
    for_of shipmentEls
      (fun (acc : Z * Z) shipEl =>
         r <- processShipment shipEl orderDate csvPath ;;
         ret (fst acc + fst r, snd acc + snd r))
      (0, 0) ;;
  let orderArticlePricesTotal := fst totals in
  let orderTotalPaidAfterReturns := snd totals in
  shipmentCostCents <-
    calculateAndWriteShippingCosts csvPath orderDate orderPriceCents
      orderArticlePricesTotal ;;
  ret (orderTotalPaidAfterReturns + shipmentCostCents).

Fixpoint processYear_loop (fuel : nat) (year csvPath cookiesPath : jsstring)
  (articleOffset yearTotal : Z) : M Z :=
  match fuel with
  | O => out_of_fuel
  | S fuel' =>
      let listUrl :=
        BASE_URL ++ lit "/gp/your-account/order-history?orderFilter=year-"
          ++ year ++ lit "&startIndex=" ++ numToString articleOffset in
      page_goto listUrl ;;;
      hasOrders <- page_query ORDER_CONTAINER ;;
      match hasOrders with
      | None =>
          ensureSignedInAndOnOrders fuel' (saveCookies cookiesPath) ;;;
          page_goto listUrl
      | Some _ => ret tt
      end ;;;
      try_catch (page_waitForSelector ORDER_GROUP 5000) (fun _ => ret tt) ;;;
      orderEls <- page_queryAll ORDER_GROUP ;;
      let countInPage := List.length orderEls in
      if Nat.eqb countInPage 0 then ret yearTotal
      else
        yearTotal <-
          for_of orderEls
            (fun total orderEl =>
               orderTotal <- processOrder orderEl csvPath ;;
               ret (total + orderTotal))
            yearTotal ;;
        if Nat.ltb countInPage 10 then ret yearTotal
        else processYear_loop fuel' year csvPath cookiesPath
               (articleOffset + 10) yearTotal
  end.

Definition processYear (fuel : nat) (year csvPath cookiesPath : jsstring)
  : M Z :=
  processYear_loop fuel year csvPath cookiesPath 0 0.

Definition csvHeader : jsstring :=
  dquote ++ lit "Date" ++ dquote ++ lit ";"
  ++ dquote ++ lit "Shipment Status" ++ dquote ++ lit ";"
  ++ dquote ++ lit "Article Count" ++ dquote ++ lit ";"
  ++ dquote ++ lit "Article Name" ++ dquote ++ lit ";"
  ++ dquote ++ lit "Single Price" ++ dquote ++ lit ";"
  ++ dquote ++ lit "Total Price" ++ dquote ++ lit ";"
  ++ dquote ++ lit "Tags" ++ dquote ++ [10%N].

Definition cookiesPath : jsstring :=
  path_resolve (e_dirname env) (lit "cache/cookies/cookies_us.json").
Definition csvPath : jsstring :=
  path_resolve (e_dirname env) (lit "output/csv/amazon-orders-us.csv").

(** [main] up to the sign-in. *)
Definition main_setup : M unit :=
  fs_mkdir (path_dirname cookiesPath) ;;;
  fs_mkdir (path_dirname csvPath) ;;;
  io_call ;;;                       (* puppeteer.launch *)
  io_call ;;;                       (* browser.newPage *)
  io_call ;;;                       (* page.evaluateOnNewDocument *)
  page_goto BASE_URL ;;;
  hadCookies <- loadCookies cookiesPath ;;
  if hadCookies then page_reload else ret tt.

(** [main] from the header of the CSV to the last year. *)
Definition main_scrape (fuel : nat) (years : list jsstring) : M Z :=
  fs_writeFile csvPath csvHeader ;;;
  for_of years
    (fun runningTotal year =>
       yearTotal <- processYear fuel year csvPath cookiesPath ;;
       ret (runningTotal + yearTotal))
    0.

Definition main (fuel : nat) : M unit :=
  let years := getYearsFromArg (e_argv2 env) (e_year env) in
  main_setup ;;;
  ensureSignedInAndOnOrders fuel (saveCookies cookiesPath) ;;;
  main_scrape fuel years ;;;
  try_catch (saveCookies cookiesPath) (fun _ => ret tt) ;;;
  io_call.                          (* browser.close *)

End Script.

(** ** The script that reads the details page of each order

    An earlier version of the script, kept in the repository, takes the
    data of an order from its details page: [getOrderDetails] reads the
    page into a record and [processOrder] writes the rows.  Its helpers
    ([usdToCents], [centsToUSD], [writeCSVRow], ...) are the ones above. *)

Module OrderDetails.

Local Open Scope Z_scope.
Local Open Scope js_scope.

(** [{ name, qty, priceText, status }] *)
Record Item := mkItem {
  name : jsstring;
  qty : Z;
  priceText : jsstring;
  status : jsstring
}.

(** What [getOrderDetails] returns when it does not return [null]. *)
Record Details := mkDetails {
  orderDate : jsstring;
  subtotal : jsstring;
  tax : jsstring;
  shipping : jsstring;
  grandTotal : jsstring;
  items : list Item
}.

(** The object [financial], whose properties are set as the rows of the
    summary are read. *)
Record Financial := mkFinancial {
  f_subtotal : option jsstring;
  f_tax : option jsstring;
  f_shipping : option jsstring;
  f_grandTotal : option jsstring
}.

(** [x || ""] for a property that may be undefined. *)
Definition or_empty (x : option jsstring) : jsstring :=
  match x with
  | Some v => v
  | None => []
  end.

(** [\w] *)
Definition is_word (c : char) : bool :=
  (N.leb 48 c && N.leb c 57) || (N.leb 65 c && N.leb c 90)
  || (N.leb 97 c && N.leb c 122) || N.eqb c 95.

(** [/(\w+\s+\d+,\s+\d{4})/] *)
Definition dateRegex : regex :=
  Group 1
    (Seq (plus (Class is_word))
    (Seq (plus space)
    (Seq (plus digit)
    (Seq (chr 44)
    (Seq (plus space) (Rep digit 4 (Some 4%nat))))))).

(** An attribute selector [[attr op "value"]], whose value stands between
    double quotes. *)
Definition attr (left value : string) : jsstring :=
  lit left ++ dquote ++ lit value ++ dquote ++ lit "]".

Definition DETAILS_READY : jsstring :=
  lit "#orderDetails, .yohtmlc-order-details, #od-subtotals".
Definition DATE_COMPONENTS : jsstring :=
  attr "[data-component-name*=" "date" ++ lit ", "
    ++ attr "[data-component-name*=" "Date".
Definition PURCHASE_COMPONENTS : jsstring :=
  attr "[data-component-name*=" "purchased" ++ lit ", "
    ++ attr "[data-component-name*=" "item".
Definition ORDER_DETAILS_DATE : jsstring :=
  lit "[data-component-name^='orderDate']".
Definition ROWS : jsstring := lit ".a-row".
Definition ORDER_DETAILS_ROWS : jsstring :=
  lit "#od-subtotals .a-row, #od-subtotalsV2 .a-row".
Definition ROW_VALUE : jsstring :=
  lit ".a-span-last, .a-text-right.a-span-last".
Definition SHIPMENTS : jsstring :=
  attr "[data-component=" "shipments" ++ lit " .a-box".
Definition SHIPMENT_STATUS : jsstring := lit ".od-status-message .a-text-bold".
Definition PURCHASED_ITEMS : jsstring :=
  attr "[data-component=" "purchasedItems".
Definition ITEM_TITLE : jsstring :=
  attr "[data-component=" "itemTitle" ++ lit " a".
Definition UNIT_PRICE : jsstring :=
  attr "[data-component=" "unitPrice" ++ lit " .a-price .a-offscreen".
Definition ITEM_QTY : jsstring := lit ".od-item-view-qty".

Section Script.

Variable env : Env.

(** [String.prototype.toLowerCase], whose table of letters is not spelled
    out here. *)
Variable toLowerCase : jsstring -> jsstring.

(** [el.evaluate((el) => f(el.textContent))] *)
Definition evaluate (f : jsstring -> jsstring) (el : Element) : M jsstring :=
  lift (match textContent el with
        | Fulfilled t => Fulfilled (f t)
        | Rejected e => Rejected e
        end).

(** The text of an element that may be missing: [el ? await
    el.evaluate((el) => el.textContent.trim()) : ""]. *)
Definition trimmedText (el : option Element) : M jsstring :=
  match el with
  | Some e => evaluate trim e
  | None => ret []
  end.

(** The fallback for the date: the first row that holds "order placed" and
    a date gives the date, and the loop breaks there. *)
Fixpoint findOrderPlaced (rows : list Element) : M jsstring :=
  match rows with
  | [] => ret []
  | row :: more =>
      text <- evaluate toLowerCase row ;;
      if includes (lit "order placed") text then
        fullText <- evaluate (fun t => t) row ;;
        match exec dateRegex fullText with
        | Some dateMatch => ret (or_empty (capture 1 (caps dateMatch)))
        | None => findOrderPlaced more
        end
      else findOrderPlaced more
  end.

(** One row of the financial summary. *)
Definition readSummaryRow (financial : Financial) (row : Element)
  : M Financial :=
  rowText <- evaluate toLowerCase row ;;
  valueEl <- lift (query row ROW_VALUE) ;;
  match valueEl with
  | Some v =>
      value <- evaluate trim v ;;
      ret (if includes (lit "subtotal") rowText then
             mkFinancial (Some value) (f_tax financial)
               (f_shipping financial) (f_grandTotal financial)
           else if includes (lit "estimated tax") rowText then
             mkFinancial (f_subtotal financial) (Some value)
               (f_shipping financial) (f_grandTotal financial)
           else if includes (lit "shipping") rowText
                   && includes (lit "handling") rowText then
             mkFinancial (f_subtotal financial) (f_tax financial)
               (Some value) (f_grandTotal financial)
           else if includes (lit "grand total") rowText
                   || includes (lit "order total") rowText then
             mkFinancial (f_subtotal financial) (f_tax financial)
               (f_shipping financial) (Some value)
           else financial)
  | None => ret financial
  end.

(** [parseInt(qtyText, 10)], kept when it is positive; 1 otherwise. *)
Definition readQty (qtyText : jsstring) : Z :=
  match parseInt10 qtyText with
  | Some qtyNum => if Z.gtb qtyNum 0 then qtyNum else 1
  | None => 1
  end.

(** One item of a shipment; an item without a name is skipped. *)
Definition readItem (shipmentStatus : jsstring) (items : list Item)
  (itemContainer : Element) : M (list Item) :=
  nameEl <- lift (query itemContainer ITEM_TITLE) ;;
  name <- trimmedText nameEl ;;
  match name with
  | [] => ret items
  | _ =>
      priceEl <- lift (query itemContainer UNIT_PRICE) ;;
      priceText <- trimmedText priceEl ;;
      qtyEl <- lift (query itemContainer ITEM_QTY) ;;
      qty <- match qtyEl with
             | Some e => qtyText <- evaluate trim e ;; ret (readQty qtyText)
             | None => ret 1
             end ;;
      ret (items ++ [mkItem name qty priceText shipmentStatus])
  end.

Definition readShipment (items : list Item) (shipment : Element)
  : M (list Item) :=
  statusEl <- lift (query shipment SHIPMENT_STATUS) ;;
  shipmentStatus <-
    match statusEl with
    | Some e =>
        statusText <- evaluate trim e ;;
        ret (match statusText with
             | [] => lit "Delivered"
             | _ => statusText
             end)
    | None => ret (lit "Delivered")
    end ;;
  itemContainers <- lift (queryAll shipment PURCHASED_ITEMS) ;;
  for_of itemContainers (readItem shipmentStatus) items.

(** The calls on the details page ([goto], [waitForSelector], [$], [$$])
    are answered by the environment like those on the list page. *)
Definition getOrderDetails (detailsHref : option jsstring)
  : M (option Details) :=
  match detailsHref with
  | None | Some [] => ret None
  | Some href =>
      try_catch
        (page_goto env href ;;;
         page_waitForSelector env DETAILS_READY 15000 ;;;
         dateComponents <- page_queryAll env DATE_COMPONENTS ;;
         purchaseComponents <- page_queryAll env PURCHASE_COMPONENTS ;;
         orderDateEl <- page_query env ORDER_DETAILS_DATE ;;
         orderDate <- trimmedText orderDateEl ;;
         orderDate <-
           match orderDate with
           | [] => rows <- page_queryAll env ROWS ;; findOrderPlaced rows
           | _ => ret orderDate
           end ;;
         summaryRows <- page_queryAll env ORDER_DETAILS_ROWS ;;
         financial <-
           for_of summaryRows readSummaryRow
             (mkFinancial None None None None) ;;
         shipmentContainers <- page_queryAll env SHIPMENTS ;;
         items <- for_of shipmentContainers readShipment [] ;;
         ret (Some (mkDetails orderDate
                      (or_empty (f_subtotal financial))
                      (or_empty (f_tax financial))
                      (or_empty (f_shipping financial))
                      (or_empty (f_grandTotal financial))
                      items)))
        (fun _ => ret None)
  end.

(** The body of the loop of [processOrder] over the items. *)
Definition processItem (orderDate csvPath : jsstring) (itemsTotal : Z)
  (item : Item) : M Z :=
  let singleCents := usdToCents (Some (priceText item)) in
  let totalCents := singleCents * qty item in
  let delivered := str_eqb (status item) (lit "Delivered") in
  let itemsTotal :=
    if delivered then itemsTotal + totalCents else itemsTotal in
  let itemName := replaceAll (chr 59) (lit ",") (slice0 80 (name item)) in
  writeCSVRow env csvPath
    [orderDate; status item; numToString (qty item); itemName;
     centsToUSD singleCents;
     centsToUSD (if delivered then totalCents else 0); []] ;;;
  ret itemsTotal.

Definition processOrder (orderEl : Element) (detailsHref : option jsstring)
  (csvPath : jsstring) : M Z :=
  match detailsHref with
  | None | Some [] => ret 0
  | Some _ =>
      details <- getOrderDetails detailsHref ;;
      match details with
      | None => ret 0
      | Some details =>
          let orderDate :=
            match orderDate details with
            | [] => lit "ERROR: order date not found"
            | d => d
            end in
          let subtotalCents := usdToCents (Some (subtotal details)) in
          let shippingCents := usdToCents (Some (shipping details)) in
          let taxCents := usdToCents (Some (tax details)) in
          itemsTotal <-
            for_of (items details) (processItem orderDate csvPath) 0 ;;
          (if Z.gtb shippingCents 0 then
             writeCSVRow env csvPath
               [orderDate; []; lit "1"; lit "shipment";
                centsToUSD shippingCents; centsToUSD shippingCents; []]
           else ret tt) ;;;
          ret (subtotalCents + shippingCents)
      end
  end.

End Script.

End OrderDetails.

(** ** What an order holds

    The values that [processOrder] computes from the answers of an element,
    written as functions of the element; the theorems below relate them to
    the run of the script. *)

Definition text_of (el : Element) (selector : jsstring) : jsstring :=
  match query el selector with
  | Fulfilled (Some child) =>
      match textContent child with
      | Fulfilled t => trim t
      | Rejected _ => []
      end
  | _ => []
  end.

(** The elements that [el.$$(selector)] lists, and whether the call is
    answered at all. *)
Definition list_of (el : Element) (selector : jsstring) : list Element :=
  match queryAll el selector with
  | Fulfilled els => els
  | Rejected _ => []
  end.

Definition lists (el : Element) (selector : jsstring) : bool :=
  match queryAll el selector with
  | Fulfilled _ => true
  | Rejected _ => false
  end.

Definition item_name_shown (itemEl : Element) : jsstring :=
  let articleName := text_of itemEl ARTICLE_NAME in
  match articleName with
  | [] => lit "ERROR: selector_article_name not found"
  | _ => replaceAll (chr 59) (lit ",") (slice0 80 articleName)
  end.

Definition item_count (itemEl : Element) : Z :=
  fst (detectQuantity (item_name_shown itemEl)).

Definition item_name (itemEl : Element) : jsstring :=
  snd (detectQuantity (item_name_shown itemEl)).

Definition item_single (itemEl : Element) : Z :=
  usdToCents (Some (text_of itemEl ARTICLE_PRICE)).

Definition item_line (itemEl : Element) : Z :=
  item_single itemEl * item_count itemEl.

Definition shipment_status (shipEl : Element) : jsstring :=
  trim (firstLine (text_of shipEl SHIPMENT_STATUS)).

Definition shipment_is_return (shipEl : Element) : bool :=
  test returnedRegex (shipment_status shipEl).

Definition shipment_items (shipEl : Element) : list Element :=
  list_of shipEl ARTICLE_SHIPMENT.

Definition shipment_listed (shipEl : Element) : bool :=
  lists shipEl ARTICLE_SHIPMENT.

Definition sumZ (l : list Z) : Z := fold_right Z.add 0 l.

Definition shipment_total (shipEl : Element) : Z :=
  sumZ (List.map item_line (shipment_items shipEl)).

Definition item_row (orderDate shipmentStatus : jsstring)
  (shipmentIsReturn : bool) (itemEl : Element) : list jsstring :=
  [orderDate; shipmentStatus; numToString (item_count itemEl);
   item_name itemEl; centsToUSD (item_single itemEl);
   centsToUSD (if shipmentIsReturn then 0 else item_line itemEl);
   []].

Definition shipment_rows (orderDate : jsstring) (shipEl : Element)
  : list (list jsstring) :=
  List.map
    (item_row orderDate (shipment_status shipEl) (shipment_is_return shipEl))
    (shipment_items shipEl).

Definition order_date (orderEl : Element) : jsstring :=
  let orderDate := text_of orderEl ORDER_DATE in
  match orderDate with
  | [] => lit "ERROR: selector_order_date not found"
  | _ => orderDate
  end.

Definition order_price (orderEl : Element) : Z :=
  usdToCents (Some (text_of orderEl ORDER_PRICE)).

Definition order_shipments (orderEl : Element) : list Element :=
  list_of orderEl ORDER_SHIPMENTS.

(** The order and each of its shipments answer [$$]. *)
Definition order_listed (orderEl : Element) : bool :=
  lists orderEl ORDER_SHIPMENTS
  && forallb shipment_listed (order_shipments orderEl).

Definition order_items_total (orderEl : Element) : Z :=
  sumZ (List.map shipment_total (order_shipments orderEl)).

(** The line totals of the shipments that are not returns. *)
Definition order_paid_after_returns (orderEl : Element) : Z :=
  sumZ (List.map shipment_total
          (filter (fun sh => negb (shipment_is_return sh))
             (order_shipments orderEl))).

Definition order_shipping (orderEl : Element) : Z :=
  Z.max 0 (order_price orderEl - order_items_total orderEl).

Definition shipping_row (orderDate : jsstring) (cost : Z) : list jsstring :=
  [orderDate; []; lit "1"; lit "shipment"; centsToUSD cost; centsToUSD cost;
   []].

Definition order_item_rows (orderEl : Element) : list (list jsstring) :=
  flat_map (shipment_rows (order_date orderEl)) (order_shipments orderEl).

(** The file [p] of [w'] is the file of [w] with the rows added at its
    end. *)
Definition appended (p : jsstring) (rows : list (list jsstring))
  (w w' : World) : Prop :=
  file_content w' p = file_content w p ++ List.concat (List.map csvRow rows).

(** The environment lets every call of the script go through. *)
Definition io_ok (env : Env) : Prop := forall n, e_io env n = Fulfilled tt.

(** ** Runs of the wait loop *)

(** The check of a turn did not succeed: it returned a falsy value or it
    threw. *)
Definition check_failed (r : Result bool) : Prop :=
  r = Ok false \/ exists e, r = Throw e.

(** [idle_turns env checkFn start timeoutMs k w w']: from [w], the loop of
    [waitUntil] goes round [k] times, each time with a check that does not
    succeed and a clock that has not passed the timeout, and reaches [w']. *)
Inductive idle_turns (env : Env) (checkFn : M bool) (start timeoutMs : Z)
  : nat -> World -> World -> Prop :=
| idle_none : forall w, idle_turns env checkFn start timeoutMs O w w
| idle_more : forall k w w1 w2 r,
    checkFn w = (r, w1) ->
    check_failed r ->
    e_now env (step w1) - start <= timeoutMs ->
    idle_turns env checkFn start timeoutMs k (tick (tick w1)) w2 ->
    idle_turns env checkFn start timeoutMs (S k) w w2.

(** ** Sample environments *)

(** A browser that never shows the orders, with a clock that is given. *)
Definition signed_out_env (now : nat -> Z) : Env :=
  mkEnv None 2025 (lit "/app")
    (fun _ => Fulfilled tt)
    (fun _ _ => Fulfilled None)
    (fun _ _ => Fulfilled [])
    (fun _ => lit "https://www.amazon.com/ap/signin")
    now
    (fun _ => Fulfilled [])
    (fun _ => Rejected (lit "Unexpected end of JSON input"))
    (fun _ => lit "[]")
    (fun _ => None).

Definition new_world : World := mkWorld 0 (fun _ => None) [].

(** A child that only carries a text. *)
Definition text_node (t : string) : Element :=
  mkElement (Fulfilled (lit t)) (fun _ => Fulfilled None)
    (fun _ => Fulfilled []).

(** An element that answers [$] for the selectors of [children] and [$$] for
    [listSelector]. *)
Definition node (children : list (jsstring * Element))
  (listSelector : jsstring) (list : list Element) : Element :=
  mkElement (Fulfilled [])
    (fun selector =>
       Fulfilled
         (option_map snd
            (find (fun c => str_eqb selector (fst c)) children)))
    (fun selector =>
       Fulfilled (if str_eqb selector listSelector then list else [])).

Definition sample_item (name price : string) : Element :=
  node [(ARTICLE_NAME, text_node name); (ARTICLE_PRICE, text_node price)]
    [] [].

Definition sample_shipment (status : string) (items : list Element)
  : Element :=
  node [(SHIPMENT_STATUS, text_node status)] ARTICLE_SHIPMENT items.

(** An order of 35.00 dollars: a delivered shipment with two widgets at
    10.00 and a returned shipment with a gadget at 7.50. *)
Definition sample_order : Element :=
  node [(ORDER_DATE, text_node "March 3, 2024");
        (ORDER_PRICE, text_node "$35.00")]
    ORDER_SHIPMENTS
    [sample_shipment "Delivered Mar 5" [sample_item "2 x Widget" "$10.00"];
     sample_shipment "Return complete" [sample_item "Gadget" "$7.50"]].

(** ** The format of the CSV file, in the words of the specification *)

(** [doubled s t]: [t] is [s] with every double quote doubled. *)
Inductive doubled : jsstring -> jsstring -> Prop :=
| doubled_nil : doubled [] []
| doubled_quote : forall s t,
    doubled s t -> doubled (34%N :: s) (34%N :: 34%N :: t)
| doubled_other : forall c s t,
    c <> 34%N -> doubled s t -> doubled (c :: s) (c :: t).

(** A field enclosed in double quotes. *)
Definition quoted_field (s q : jsstring) : Prop :=
  exists t, doubled s t /\ q = 34%N :: t ++ [34%N].

(** Quoted fields joined by [;]. *)
Inductive joined_fields : list jsstring -> jsstring -> Prop :=
| joined_one : forall s q, quoted_field s q -> joined_fields [s] q
| joined_more : forall s q fields l,
    quoted_field s q -> joined_fields fields l ->
    joined_fields (s :: fields) (q ++ 59%N :: l).

(** A line of [n] quoted fields, ended by a newline. *)
Definition csv_line (n : nat) (line : jsstring) : Prop :=
  exists fields l,
    List.length fields = n /\ joined_fields fields l /\ line = l ++ [10%N].

(** The content of a file that holds [c0] followed by rows of seven
    fields. *)
Definition rows_after (c0 : jsstring) (c : jsstring) : Prop :=
  exists rows,
    Forall (fun row => List.length row = 7%nat) rows
    /\ c = c0 ++ List.concat (List.map csvRow rows).

(** [a] is the beginning of [b]. *)
Definition begins (a b : jsstring) : Prop := exists more, b = a ++ more.

(** The content of a file that holds [c0], rows of seven fields and then
    what a failed append has left of the line of one more such row. *)
Definition rows_then_partial (c0 : jsstring) (c : jsstring) : Prop :=
  exists rows row part,
    Forall (fun r => List.length r = 7%nat) rows
    /\ List.length row = 7%nat
    /\ begins part (csvRow row)
    /\ c = c0 ++ List.concat (List.map csvRow rows) ++ part.

(** ** Invariants of a run *)

(** [m] keeps [I], whether it returns or throws. *)
Definition preserves {A} (I : World -> Prop) (m : M A) : Prop :=
  forall w, I w -> I (snd (m w)).

(** Started where [P] holds, [m] leaves [Q] when it returns and [F] when
    it throws or stops for want of fuel. *)
Definition runs {A} (P Q F : World -> Prop) (m : M A) : Prop :=
  forall w, P w ->
    match m w with
    | (Ok _, w') => Q w'
    | (_, w') => F w'
    end.

(** The content of the file [p] satisfies [J]. *)
Definition file_sat (p : jsstring) (J : jsstring -> Prop) (w : World) : Prop :=
  J (file_content w p).

(** ** Reasoning about the matcher *)

(** The state [n] code units further, with the same captures. *)
Definition skip (n : nat) (x : MatchState) : MatchState :=
  mkState (endIndex x + n) (skipn n (rest x)) (captures x).

(** [hi; hi - 1; ...; lo], the order in which a greedy quantifier tries the
    numbers of repetitions. *)
Fixpoint countdown (hi lo : nat) : list nat :=
  if Nat.ltb hi lo then []
  else match hi with
       | O => [O]
       | S h => hi :: countdown h lo
       end.

(** [first r x y]: the first way to match [r] from [x] stops in [y]. *)
Definition first (r : regex) (x y : MatchState) : Prop :=
  exists others, matches r x = y :: others.

(** [lands r x n]: the first way to match [r] from [x] takes [n] code
    units. *)
Definition lands (r : regex) (x : MatchState) (n : nat) : Prop :=
  exists y, first r x y
            /\ endIndex y = (endIndex x + n)%nat /\ rest y = skipn n (rest x).

(** The words of a pattern. *)
Inductive lang : regex -> jsstring -> Prop :=
| lang_empty : lang Empty []
| lang_class : forall p c, p c = true -> lang (Class p) [c]
| lang_seq : forall a b u v, lang a u -> lang b v -> lang (Seq a b) (u ++ v)
| lang_alt_l : forall a b u, lang a u -> lang (Alt a b) u
| lang_alt_r : forall a b u, lang b u -> lang (Alt a b) u
| lang_rep_zero : forall a max, lang (Rep a O max) []
| lang_rep_max : forall a min, lang (Rep a min (Some O)) []
| lang_rep_more : forall a min max u v,
    max <> Some O ->
    lang a u ->
    lang (Rep a (Nat.pred min) (option_map Nat.pred max)) v ->
    lang (Rep a min max) (u ++ v)
| lang_group : forall n a u, lang a u -> lang (Group n a) u
| lang_bol : lang Bol [].

(** ** Quantity prefixes *)

(** [sep] is "of" or "x", in any case. *)
Definition is_separator (sep : jsstring) : bool :=
  str_eqb (List.map canonicalize sep) (lit "OF")
  || str_eqb (List.map canonicalize sep) (lit "X").

(** The parts of a prefix "<n> of " or "<n> x ": the digits of [n], white
    space, the separator, white space. *)
Definition quantity_prefix (digs ws1 sep ws2 : jsstring) : Prop :=
  digs <> [] /\ forallb is_digit digs = true
  /\ ws1 <> [] /\ forallb is_space ws1 = true
  /\ is_separator sep = true
  /\ ws2 <> [] /\ forallb is_space ws2 = true.

(** A browser that is signed in: every page shows the container of the
    orders and lists [orderEls]; it holds one cookie, and the JSON text of a
    list of cookies is taken to be their concatenation. *)
Definition signed_in_env (orderEls : list Element) : Env :=
  mkEnv None 2025 (lit "/app")
    (fun _ => Fulfilled tt)
    (fun _ _ => Fulfilled (Some (text_node "orders")))
    (fun _ _ => Fulfilled orderEls)
    (fun _ => ORDERS_URL)
    (fun _ => 0)
    (fun _ => Fulfilled [lit "session-id=1"])
    (fun text => Fulfilled (PIterable [text]))
    (fun cs => List.concat cs)
    (fun _ => None).

(** ** Reading a pattern without case

    [startsWith_i w s]: [s] starts with the code units of [w], letter case
    apart; [somewhere f s]: [f] holds of [s] or of one of its ends;
    [includes_i w s]: [s] holds [w] somewhere, letter case apart. *)
Fixpoint startsWith_i (w s : jsstring) : bool :=
  match w, s with
  | [], _ => true
  | a :: w', b :: s' =>
      char_eqb (canonicalize b) (canonicalize a) && startsWith_i w' s'
  | _ :: _, [] => false
  end.

Fixpoint somewhere (f : jsstring -> bool) (s : jsstring) : bool :=
  f s
  || match s with
     | [] => false
     | _ :: t => somewhere f t
     end.

Definition includes_i (w s : jsstring) : bool := somewhere (startsWith_i w) s.

(** ** The pages of a year *)

(** What [processOrder] returns for an order, and the rows that it writes:
    the rows of the items, then the row of the shipping cost when there is
    one. *)
Definition order_total (orderEl : Element) : Z :=
  order_paid_after_returns orderEl + order_shipping orderEl.

Definition order_rows (orderEl : Element) : list (list jsstring) :=
  order_item_rows orderEl
    ++ (if Z.ltb 0 (order_shipping orderEl)
        then [shipping_row (order_date orderEl) (order_shipping orderEl)]
        else []).

(** The list page that [processYear] asks for in world [w] loads, shows the
    container of the orders and lists [orderEls]: the answers to its
    [page.goto], [page.$] and [page.$$], with [page.waitForSelector] in
    between. *)
Definition page_shows (env : Env) (w : World) (orderEls : list Element)
  : Prop :=
  e_io env (step w) = Fulfilled tt
  /\ (exists c, e_query env (1 + step w) ORDER_CONTAINER = Fulfilled (Some c))
  /\ e_queryAll env (3 + step w) ORDER_GROUP = Fulfilled orderEls.

(** A signed-in browser whose first list page shows ten times the sample
    order and whose later pages are empty. *)
Definition paged_env : Env :=
  mkEnv None 2025 (lit "/app")
    (fun _ => Fulfilled tt)
    (fun _ _ => Fulfilled (Some (text_node "orders")))
    (fun n _ => Fulfilled (if Nat.ltb n 10 then repeat sample_order 10 else []))
    (fun _ => ORDERS_URL)
    (fun _ => 0)
    (fun _ => Fulfilled [])
    (fun text => Fulfilled (PIterable [text]))
    (fun cs => List.concat cs)
    (fun _ => None).

(** [m] only reads: it leaves the files and the cookies of the page as they
    are, and it has no loop that could run out of fuel. *)
Definition reads_only {A} (m : M A) : Prop :=
  forall w,
    files (snd (m w)) = files w /\ jar (snd (m w)) = jar w
    /\ fst (m w) <> OutOfFuel.

(** Whenever [m] returns, what it returns satisfies [P]. *)
Definition ensures {A} (P : A -> Prop) (m : M A) : Prop :=
  forall w a w', m w = (Ok a, w') -> P a.

(** [l] is not empty. *)
Definition nonempty {A} (l : list A) : bool :=
  match l with [] => false | _ :: _ => true end.

(** An item of the details that has a name, a count of at least 1 and a
    status. *)
Definition item_well_formed (item : OrderDetails.Item) : Prop :=
  OrderDetails.name item <> [] /\ 1 <= OrderDetails.qty item
  /\ OrderDetails.status item <> [].

(** The row that [OrderDetails.processOrder] writes for an item. *)
Definition details_item_row (orderDate : jsstring) (item : OrderDetails.Item)
  : list jsstring :=
  [orderDate; OrderDetails.status item;
   numToString (OrderDetails.qty item);
   replaceAll (chr 59) (lit ",") (slice0 80 (OrderDetails.name item));
   centsToUSD (usdToCents (Some (OrderDetails.priceText item)));
   centsToUSD (if str_eqb (OrderDetails.status item) (lit "Delivered")
               then usdToCents (Some (OrderDetails.priceText item))
                    * OrderDetails.qty item
               else 0);
   []].

(** ** A sample details page *)

(** ASCII letters in lower case, the other code units as they are. *)
Definition lower_ascii (s : jsstring) : jsstring :=
  List.map (fun c => if (N.leb 65 c && N.leb c 90)%N then (c + 32)%N else c)
    s.

(** An element with a text and with children under selectors. *)
Definition labelled (t : string) (children : list (jsstring * Element))
  (listSelector : jsstring) (list : list Element) : Element :=
  mkElement (Fulfilled (lit t))
    (fun selector =>
       Fulfilled
         (option_map snd
            (find (fun c => str_eqb selector (fst c)) children)))
    (fun selector =>
       Fulfilled (if str_eqb selector listSelector then list else [])).

Definition summary_row (label value : string) : Element :=
  labelled label [(OrderDetails.ROW_VALUE, text_node value)] [] [].

(** A details page: subtotal 27.50, shipping 4.99, tax 2.20; one shipment
    without a status, with two widgets at 10.00, and a shipment "Return
    complete" with a gadget at 7.50 and an item without a title. *)
Definition details_env : Env :=
  mkEnv None 2025 (lit "/app")
    (fun _ => Fulfilled tt)
    (fun _ selector =>
       Fulfilled
         (if str_eqb selector OrderDetails.ORDER_DETAILS_DATE
          then Some (text_node " March 3, 2024 ")
          else None))
    (fun _ selector =>
       Fulfilled
         (if str_eqb selector OrderDetails.ORDER_DETAILS_ROWS then
            [summary_row "Item(s) Subtotal:" "$27.50";
             summary_row "Shipping & Handling:" "$4.99";
             summary_row "Estimated tax to be collected:" "$2.20";
             summary_row "Grand Total:" "$34.69"]
          else if str_eqb selector OrderDetails.SHIPMENTS then
            [labelled "" [] OrderDetails.PURCHASED_ITEMS
               [labelled ""
                  [(OrderDetails.ITEM_TITLE, text_node "Widget; blue");
                   (OrderDetails.UNIT_PRICE, text_node "$10.00");
                   (OrderDetails.ITEM_QTY, text_node "2")] [] []];
             labelled ""
               [(OrderDetails.SHIPMENT_STATUS, text_node "Return complete")]
               OrderDetails.PURCHASED_ITEMS
               [labelled ""
                  [(OrderDetails.ITEM_TITLE, text_node "Gadget");
                   (OrderDetails.UNIT_PRICE, text_node "$7.50")] [] [];
                labelled "" [(OrderDetails.UNIT_PRICE, text_node "$1.00")]
                  [] []]]
          else []))
    (fun _ => ORDERS_URL)
    (fun _ => 0)
    (fun _ => Fulfilled [])
    (fun text => Fulfilled (PIterable [text]))
    (fun cs => List.concat cs)
    (fun _ => None).

(** What [getOrderDetails] reads from the sample details page. *)
Definition sample_details : OrderDetails.Details :=
  OrderDetails.mkDetails (lit "March 3, 2024") (lit "$27.50") (lit "$2.20")
    (lit "$4.99") (lit "$34.69")
    [OrderDetails.mkItem (lit "Widget; blue") 2 (lit "$10.00")
       (lit "Delivered");
     OrderDetails.mkItem (lit "Gadget") 1 (lit "$7.50")
       (lit "Return complete")].

(** A browser without a network: every navigation is rejected. *)
Definition offline_env : Env :=
  mkEnv None 2025 (lit "/app")
    (fun _ => Rejected (lit "net::ERR_INTERNET_DISCONNECTED"))
    (fun _ _ => Fulfilled None)
    (fun _ _ => Fulfilled [])
    (fun _ => lit "about:blank")
    (fun _ => 0)
    (fun _ => Fulfilled [])
    (fun _ => Rejected (lit "Unexpected end of JSON input"))
    (fun _ => lit "[]")
    (fun _ => None).

(** What [m[0].replace(/[^\d.]/g, "")] comes to. *)
Abbreviation keep :=
  (replaceAllClass (fun c => negb (is_digit c || char_eqb c 46)) []).

(** ** Tactics *)

(** A disjunction of range and equality tests on a code unit is false. *)
Ltac bool_false :=
  repeat match goal with
         | |- (_ || _)%bool = false => apply orb_false_intro
         | |- (_ && _)%bool = false =>
             apply andb_false_iff;
             ((left; apply N.leb_gt; lia) || (right; apply N.leb_gt; lia))
         | |- N.eqb _ _ = false => apply N.eqb_neq; lia
         end.

(* ================================================================== *)
(** * Part II: lemmas and theorems                                     *)
(* ================================================================== *)

(** ** The matcher *)

Local Open Scope nat_scope.

Lemma filter_all {A} (l : list A) : filter (fun _ => true) l = l.
Proof. induction l as [|a l IH]; cbn; [reflexivity|now rewrite IH]. Qed.

Lemma clear_no_captures (x : MatchState) : clear_captures [] x = x.
Proof. destruct x as [i s c]. unfold clear_captures. cbn. now rewrite filter_all. Qed.

Lemma skip_zero (x : MatchState) : skip 0 x = x.
Proof. destruct x as [i s c]. unfold skip. cbn. now rewrite Nat.add_0_r. Qed.

Lemma skip_advance n x c t :
  rest x = c :: t -> skip n (advance x t) = skip (S n) x.
Proof.
  intros H. unfold skip, advance. cbn. rewrite H. cbn. f_equal. lia.
Qed.

Lemma skip_skip n m x : skip m (skip n x) = skip (n + m) x.
Proof.
  unfold skip. cbn. rewrite skipn_skipn. f_equal; [lia|].
  f_equal. lia.
Qed.

Lemma countdown_step (t lo : nat) :
  countdown (S t) lo
  = List.map S (countdown t (Nat.pred lo))
      ++ (if Nat.eqb lo 0 then [0] else []).
Proof.
  induction t as [|t IH].
  - destruct lo as [|[|lo]]; reflexivity.
  - change (countdown (S (S t)) lo)
      with (if Nat.ltb (S (S t)) lo then [] else S (S t) :: countdown (S t) lo).
    rewrite IH.
    change (countdown (S t) (Nat.pred lo))
      with (if Nat.ltb (S t) (Nat.pred lo) then []
            else S t :: countdown t (Nat.pred lo)).
    destruct (Nat.ltb_spec (S (S t)) lo) as [Hlt|Hge].
    + replace (Nat.ltb (S t) (Nat.pred lo)) with true
        by (symmetry; apply Nat.ltb_lt; lia).
      destruct lo; [lia|reflexivity].
    + replace (Nat.ltb (S t) (Nat.pred lo)) with false
        by (symmetry; apply Nat.ltb_ge; lia).
      reflexivity.
Qed.

Lemma countdown_below (hi lo : nat) : hi < lo -> countdown hi lo = [].
Proof.
  intros H. destruct hi; cbn [countdown];
    now replace (Nat.ltb _ lo) with true by (symmetry; apply Nat.ltb_lt; lia).
Qed.

Lemma countdown_same (m : nat) : countdown m m = [m].
Proof.
  destruct m as [|m]; [reflexivity|]. cbn [countdown].
  rewrite Nat.ltb_irrefl, countdown_below by lia. reflexivity.
Qed.

Lemma countdown_head (hi lo : nat) :
  lo <= hi -> exists l, countdown hi lo = hi :: l.
Proof.
  intros H. destruct hi as [|h]; cbn [countdown].
  - replace lo with 0 by lia. cbn. eauto.
  - replace (Nat.ltb (S h) lo) with false by (symmetry; apply Nat.ltb_ge; lia).
    eauto.
Qed.

Lemma countdown_In (hi lo n : nat) : In n (countdown hi lo) -> lo <= n <= hi.
Proof.
  induction hi as [|h IH]; cbn [countdown].
  - destruct (Nat.ltb_spec 0 lo); cbn; [tauto|]. intros [<-|[]]. lia.
  - destruct (Nat.ltb_spec (S h) lo); cbn; [tauto|].
    intros [<-|H']; [lia|]. apply IH in H'. lia.
Qed.

Section ClassRuns.

Variable p : char -> bool.

(** How many code units of the class the state has in front of it. *)
Let avail (x : MatchState) : nat := List.length (takeWhile p (rest x)).

Let top (max : option nat) (x : MatchState) : nat :=
  match max with
  | None => avail x
  | Some m => Nat.min m (avail x)
  end.

(** A quantified class stops after [top], [top - 1], ..., [min] code
    units. *)
Lemma class_step (x : MatchState) :
  matches (Class p) x
  = match rest x with
    | c :: t => if p c then [advance x t] else []
    | [] => []
    end.
Proof. reflexivity. Qed.

Lemma repeat_class (fuel : nat) :
  forall min max x,
    top max x < fuel ->
    (forall m, max = Some m -> min <= m) ->
    repeat_matcher (matches (Class p)) (clear_captures []) fuel min max x
    = List.map (fun n => skip n x) (countdown (top max x) min).
Proof.
  induction fuel as [|fuel IH]; intros min max x Hfuel Hmax; [lia|].
  destruct max as [[|m]|].
  - (* {min,0} *)
    specialize (Hmax 0 eq_refl). replace min with 0 by lia.
    cbn. now rewrite skip_zero.
  - cbn [repeat_matcher]. rewrite clear_no_captures, class_step.
    unfold top, avail in *.
    destruct (rest x) as [|c t] eqn:Hrest.
    + cbn. try rewrite Nat.min_0_r.
      destruct min; cbn; [now rewrite skip_zero|reflexivity].
    + cbn [takeWhile] in *. destruct (p c) eqn:Hc.
      * cbn [List.length] in *. rewrite <- Nat.succ_min_distr in *.
        cbn [flat_map].
        replace (Nat.eqb (endIndex (advance x t)) (endIndex x)) with false
          by (symmetry; apply Nat.eqb_neq; cbn; lia).
        rewrite andb_false_r, app_nil_r.
        cbn [option_map Nat.pred].
        rewrite (IH (Nat.pred min) (Some m) (advance x t)).
        -- cbn [rest advance]. rewrite countdown_step, map_app, map_map.
           rewrite (map_ext _ _ (fun n => skip_advance n x Hrest)).
           destruct min; cbn [Nat.eqb List.map];
             [now rewrite skip_zero|now rewrite app_nil_r].
        -- cbn [rest advance]. lia.
        -- intros m' [= <-]. specialize (Hmax (S m) eq_refl). lia.
      * cbn. try rewrite Nat.min_0_r.
        destruct min; cbn; [now rewrite skip_zero|reflexivity].
  - cbn [repeat_matcher]. rewrite clear_no_captures, class_step.
    unfold top, avail in *.
    destruct (rest x) as [|c t] eqn:Hrest.
    + cbn. destruct min; cbn; [now rewrite skip_zero|reflexivity].
    + cbn [takeWhile] in *. destruct (p c) eqn:Hc.
      * cbn [List.length] in *. cbn [flat_map].
        replace (Nat.eqb (endIndex (advance x t)) (endIndex x)) with false
          by (symmetry; apply Nat.eqb_neq; cbn; lia).
        rewrite andb_false_r, app_nil_r.
        cbn [option_map].
        rewrite (IH (Nat.pred min) None (advance x t)).
        -- cbn [rest advance]. rewrite countdown_step, map_app, map_map.
           rewrite (map_ext _ _ (fun n => skip_advance n x Hrest)).
           destruct min; cbn [Nat.eqb List.map];
             [now rewrite skip_zero|now rewrite app_nil_r].
        -- cbn [rest advance]. lia.
        -- discriminate.
      * cbn. destruct min; cbn; [now rewrite skip_zero|reflexivity].
Qed.

Lemma takeWhile_length (s : jsstring) :
  List.length (takeWhile p s) <= List.length s.
Proof.
  induction s as [|c s IH]; cbn; [lia|]. destruct (p c); cbn; lia.
Qed.

Lemma matches_rep_class min max x :
  (forall m, max = Some m -> min <= m) ->
  matches (Rep (Class p) min max) x
  = List.map (fun n => skip n x) (countdown (top max x) min).
Proof.
  intros Hmax. cbn [matches groups]. apply repeat_class; [|exact Hmax].
  pose proof (takeWhile_length (rest x)).
  unfold top, avail. destruct max; lia.
Qed.

(** [takeWhile] on a run of the class that is followed by something else. *)
Lemma takeWhile_run (run tl : jsstring) :
  forallb p run = true ->
  match tl with [] => True | c :: _ => p c = false end ->
  takeWhile p (run ++ tl) = run.
Proof.
  intros Hrun Htl. induction run as [|c run IH]; cbn in *.
  - destruct tl as [|c tl]; [reflexivity|]. cbn. now rewrite Htl.
  - apply andb_prop in Hrun as [Hc Hrun]. rewrite Hc. f_equal. now apply IH.
Qed.

End ClassRuns.

(** *** What a match has read is a word of the pattern *)

Lemma repeat_matcher_sound (a : regex) (m : MatchState -> list MatchState)
  (gs : list nat) :
  (forall x y, In y (m x) ->
     exists w, rest x = w ++ rest y
               /\ endIndex y = endIndex x + List.length w /\ lang a w) ->
  forall fuel min max x y,
    In y (repeat_matcher m (clear_captures gs) fuel min max x) ->
    exists w, rest x = w ++ rest y
              /\ endIndex y = endIndex x + List.length w
              /\ lang (Rep a min max) w.
Proof.
  intros Hm.
  assert (Hstop : forall min max (x : MatchState),
            lang (Rep a min max) [] ->
            exists w, rest x = w ++ rest x
              /\ endIndex x = endIndex x + List.length w
              /\ lang (Rep a min max) w).
  { intros min max x Hl. exists []. cbn. rewrite Nat.add_0_r. auto. }
  induction fuel as [|fuel IH]; intros min max x y Hy.
  - destruct max as [[|k]|]; cbn in Hy; try contradiction.
    destruct Hy as [<-|[]]. apply Hstop. constructor.
  - assert (Hmore :
      max <> Some 0 ->
      In y (flat_map
              (fun y1 =>
                 if Nat.eqb min 0 && Nat.eqb (endIndex y1) (endIndex x)
                 then []
                 else repeat_matcher m (clear_captures gs) fuel
                        (Nat.pred min) (option_map Nat.pred max) y1)
              (m (clear_captures gs x))) ->
      exists w, rest x = w ++ rest y
              /\ endIndex y = endIndex x + List.length w
              /\ lang (Rep a min max) w).
    { intros Hmax Hin. apply in_flat_map in Hin as (y1 & Hy1 & Hin).
      destruct (Nat.eqb min 0 && Nat.eqb (endIndex y1) (endIndex x));
        [contradiction|].
      apply Hm in Hy1 as (u & Hu & Hiu & Hlu).
      apply IH in Hin as (v & Hv & Hiv & Hlv).
      cbn [clear_captures rest endIndex] in Hu, Hiu.
      exists (u ++ v). rewrite <- app_assoc, <- Hv, <- Hu.
      split; [reflexivity|]. split; [rewrite length_app; lia|].
      now constructor. }
    destruct max as [[|k]|]; cbn [repeat_matcher] in Hy.
    + destruct Hy as [<-|[]]. apply Hstop. constructor.
    + destruct min as [|min]; cbn [Nat.eqb] in Hy;
        [|apply Hmore; [discriminate|exact Hy]].
      apply in_app_or in Hy as [Hy|[<-|[]]];
        [apply Hmore; [discriminate|exact Hy]|].
      apply Hstop. constructor.
    + destruct min as [|min]; cbn [Nat.eqb] in Hy;
        [|apply Hmore; [discriminate|exact Hy]].
      apply in_app_or in Hy as [Hy|[<-|[]]];
        [apply Hmore; [discriminate|exact Hy]|].
      apply Hstop. constructor.
Qed.

Lemma matches_sound (r : regex) :
  forall x y,
    In y (matches r x) ->
    exists w, rest x = w ++ rest y
              /\ endIndex y = endIndex x + List.length w /\ lang r w.
Proof.
  induction r as [|p|a IHa b IHb|a IHa b IHb|a IHa min max|n a IHa|];
    intros x y Hy; cbn [matches] in Hy.
  - destruct Hy as [<-|[]]. exists []. cbn. rewrite Nat.add_0_r.
    repeat split. constructor.
  - destruct (rest x) as [|c t] eqn:Hrest; [contradiction|].
    destruct (p c) eqn:Hc; [|contradiction].
    destruct Hy as [<-|[]]. exists [c]. cbn.
    split; [reflexivity|]. split; [lia|]. now constructor.
  - apply in_flat_map in Hy as (y1 & Hy1 & Hy).
    apply IHa in Hy1 as (u & Hu & Hiu & Hlu).
    apply IHb in Hy as (v & Hv & Hiv & Hlv).
    exists (u ++ v). rewrite <- app_assoc, <- Hv, <- Hu.
    split; [reflexivity|]. split; [rewrite length_app; lia|].
    now constructor.
  - apply in_app_or in Hy as [Hy|Hy].
    + apply IHa in Hy as (u & Hu & Hiu & Hlu). exists u.
      repeat split; auto. now apply lang_alt_l.
    + apply IHb in Hy as (u & Hu & Hiu & Hlu). exists u.
      repeat split; auto. now apply lang_alt_r.
  - eapply repeat_matcher_sound; [exact IHa|exact Hy].
  - apply in_map_iff in Hy as (y0 & <- & Hy0).
    apply IHa in Hy0 as (u & Hu & Hiu & Hlu). exists u.
    cbn [set_capture rest endIndex]. repeat split; auto. now constructor.
  - destruct (Nat.eqb (endIndex x) 0); [|contradiction].
    destruct Hy as [<-|[]]. exists []. cbn. rewrite Nat.add_0_r.
    repeat split. constructor.
Qed.

(** *** The leftmost match *)

Lemma exec_from_here r i s y others :
  matches r (mkState i s []) = y :: others ->
  exec_from r i s = Some (mkResult i (firstn (endIndex y - i) s) (captures y)).
Proof. intros H. destruct s; cbn [exec_from]; now rewrite H. Qed.

Lemma exec_from_later r i c s :
  matches r (mkState i (c :: s) []) = [] ->
  exec_from r i (c :: s) = exec_from r (S i) s.
Proof. intros H. cbn [exec_from]. now rewrite H. Qed.

(** If the pattern matches after [pre], the leftmost match starts in [pre]
    or right after it. *)
Lemma exec_from_finds r (pre s : jsstring) :
  forall i y others,
    matches r (mkState (i + List.length pre) s []) = y :: others ->
    exists k y' others',
      k <= List.length pre
      /\ matches r (mkState (i + k) (skipn k pre ++ s) []) = y' :: others'
      /\ exec_from r i (pre ++ s)
         = Some (mkResult (i + k)
                   (firstn (endIndex y' - (i + k)) (skipn k pre ++ s))
                   (captures y')).
Proof.
  induction pre as [|c pre IH]; intros i y others Hy.
  - exists 0, y, others. cbn in *. rewrite Nat.add_0_r in *.
    split; [lia|]. split; [exact Hy|]. now apply exec_from_here with others.
  - destruct (matches r (mkState i ((c :: pre) ++ s) [])) as [|y0 l0] eqn:H0.
    + cbn [app] in *. rewrite (exec_from_later _ _ _ _ H0).
      destruct (IH (S i) y others) as (k & y' & others' & Hk & Hm & Hex).
      { cbn [List.length] in Hy. now rewrite Nat.add_succ_comm. }
      exists (S k), y', others'. cbn [skipn List.length].
      rewrite <- Nat.add_succ_comm.
      split; [lia|]. split; [exact Hm|exact Hex].
    + exists 0, y0, l0. cbn [skipn]. rewrite Nat.add_0_r.
      split; [lia|]. split; [exact H0|]. now apply exec_from_here with l0.
Qed.

Lemma exec_from_sound r s :
  forall i m,
    exec_from r i s = Some m ->
    exists pre post,
      s = pre ++ matched m ++ post
      /\ index m = i + List.length pre
      /\ lang r (matched m).
Proof.
  induction s as [|c s IH]; intros i m H; cbn [exec_from] in H.
  - destruct (matches r (mkState i [] [])) as [|y l] eqn:Hy; [discriminate|].
    injection H as <-.
    destruct (matches_sound r (mkState i [] []) y) as (w & Hw & Hi & Hl);
      [rewrite Hy; now left|].
    cbn in Hw, Hi. exists [], (rest y). cbn.
    rewrite Hi. replace (i + List.length w - i) with (List.length w) by lia.
    rewrite Hw, firstn_app, Nat.sub_diag, firstn_all. cbn.
    rewrite app_nil_r. repeat split; [lia|exact Hl].
  - destruct (matches r (mkState i (c :: s) [])) as [|y l] eqn:Hy.
    + apply IH in H as (pre & post & Hs & Hi & Hl).
      exists (c :: pre), post. cbn. rewrite <- Hs.
      repeat split; [lia|exact Hl].
    + injection H as <-.
      destruct (matches_sound r (mkState i (c :: s) []) y) as (w & Hw & Hi & Hl);
        [rewrite Hy; now left|].
      cbn in Hw, Hi. exists [], (rest y). cbn [app List.length matched index].
      rewrite Hi. replace (i + List.length w - i) with (List.length w) by lia.
      rewrite Hw, firstn_app, Nat.sub_diag, firstn_all. cbn [firstn].
      rewrite app_nil_r. repeat split; [lia|exact Hl].
Qed.

(** *** The first way to match *)

Lemma first_seq a b x y z : first a x y -> first b y z -> first (Seq a b) x z.
Proof.
  intros [l1 H1] [l2 H2]. unfold first. cbn [matches]. rewrite H1. cbn [flat_map].
  rewrite H2. cbn. eexists. reflexivity.
Qed.

Lemma first_alt_l a b x y : first a x y -> first (Alt a b) x y.
Proof. intros [l H]. unfold first. cbn [matches]. rewrite H. cbn. eexists. reflexivity. Qed.

Lemma first_alt_r a b x y :
  matches a x = [] -> first b x y -> first (Alt a b) x y.
Proof. intros Ha [l H]. unfold first. cbn [matches]. rewrite Ha, H. cbn. eexists. reflexivity. Qed.

Lemma first_group n a x y : first a x y -> first (Group n a) x (set_capture n x y).
Proof. intros [l H]. unfold first. cbn [matches]. rewrite H. cbn. eexists. reflexivity. Qed.

Lemma first_class p x c t :
  rest x = c :: t -> p c = true -> first (Class p) x (advance x t).
Proof. intros Hr Hc. unfold first. cbn [matches]. rewrite Hr, Hc. eexists. reflexivity. Qed.

(** A quantified class reads, first, the whole run in front of it (or as
    much of it as the quantifier allows). *)
Lemma first_rep_class p min max x run tl n :
  rest x = run ++ tl ->
  forallb p run = true ->
  match tl with [] => True | c :: _ => p c = false end ->
  (forall m, max = Some m -> min <= m) ->
  n = match max with
      | None => List.length run
      | Some m => Nat.min m (List.length run)
      end ->
  min <= n ->
  first (Rep (Class p) min max) x (skip n x).
Proof.
  intros Hrest Hrun Htl Hmax -> Hmin.
  unfold first. rewrite matches_rep_class by exact Hmax.
  rewrite Hrest, (takeWhile_run p run tl Hrun Htl).
  destruct (countdown_head Hmin) as [l ->]. cbn. eexists. reflexivity.
Qed.

Lemma lands_of_first r x y n :
  first r x y -> endIndex y = endIndex x + n -> rest y = skipn n (rest x) ->
  lands r x n.
Proof. intros. exists y. auto. Qed.

Lemma lands_seq a b x n m :
  lands a x n ->
  (forall y, endIndex y = endIndex x + n -> rest y = skipn n (rest x) ->
             lands b y m) ->
  lands (Seq a b) x (n + m).
Proof.
  intros (y & Hy & Hi & Hr) Hb.
  destruct (Hb y Hi Hr) as (z & Hz & Hiz & Hrz).
  exists z. split; [eapply first_seq; eassumption|].
  split; [lia|]. rewrite Hrz, Hr, skipn_skipn. f_equal. lia.
Qed.

Lemma lands_group k a x n : lands a x n -> lands (Group k a) x n.
Proof.
  intros (y & Hy & Hi & Hr). exists (set_capture k x y).
  split; [now apply first_group|]. split; assumption.
Qed.

Lemma lands_alt_l a b x n : lands a x n -> lands (Alt a b) x n.
Proof.
  intros (y & Hy & Hi & Hr). exists y. split; [now apply first_alt_l|auto].
Qed.

Lemma lands_class p x c t :
  rest x = c :: t -> p c = true -> lands (Class p) x 1.
Proof.
  intros Hr Hc. exists (advance x t).
  split; [now apply first_class with c|]. cbn. rewrite Hr. split; [lia|reflexivity].
Qed.

Lemma lands_rep_class p min max x run tl n :
  rest x = run ++ tl ->
  forallb p run = true ->
  match tl with [] => True | c :: _ => p c = false end ->
  (forall m, max = Some m -> min <= m) ->
  n = match max with
      | None => List.length run
      | Some m => Nat.min m (List.length run)
      end ->
  min <= n ->
  lands (Rep (Class p) min max) x n.
Proof.
  intros. exists (skip n x).
  split; [eapply first_rep_class; eassumption|]. split; reflexivity.
Qed.

(** *** Global replacement *)

Section GlobalReplace.

Variable p : char -> bool.
Variable repl : jsstring.

Let other (c : char) : bool := negb (p c).

(** A string is code units outside the class, then nothing or a code unit
    of the class and the rest. *)
Lemma span_class (s : jsstring) :
  exists u tl,
    s = u ++ tl /\ forallb other u = true
    /\ (tl = [] \/ exists c t, tl = c :: t /\ p c = true).
Proof.
  induction s as [|c s (u & tl & -> & Hu & Htl)].
  - exists [], []. auto.
  - destruct (p c) eqn:Hc.
    + exists [], (c :: u ++ tl). split; [reflexivity|]. split; [reflexivity|].
      right. eauto.
    + exists (c :: u), tl. split; [reflexivity|]. split; [|exact Htl].
      cbn. unfold other at 1. now rewrite Hc, Hu.
Qed.

(** A string is a run of the class, then nothing or a code unit outside
    the class and the rest. *)
Lemma span_run (s : jsstring) :
  exists run tl,
    s = run ++ tl /\ forallb p run = true
    /\ match tl with [] => True | c :: _ => p c = false end.
Proof.
  induction s as [|c s (run & tl & -> & Hrun & Htl)].
  - exists [], []. auto.
  - destruct (p c) eqn:Hc.
    + exists (c :: run), tl. split; [reflexivity|]. split; [|exact Htl].
      cbn. now rewrite Hc, Hrun.
    + exists [], (c :: run ++ tl). split; [reflexivity|]. split; [reflexivity|].
      exact Hc.
Qed.

Lemma replaceAllClass_other (u : jsstring) :
  forallb other u = true -> replaceAllClass p repl u = u.
Proof.
  induction u as [|c u IH]; intros H; [reflexivity|].
  cbn in H. apply andb_prop in H as [Hc Hu]. unfold other in Hc.
  unfold replaceAllClass in *. cbn. destruct (p c); [discriminate|].
  cbn. now rewrite IH.
Qed.

Lemma exec_from_class_none (u : jsstring) :
  forall i, forallb other u = true -> exec_from (Class p) i u = None.
Proof.
  induction u as [|c u IH]; intros i H; [reflexivity|].
  cbn in H. apply andb_prop in H as [Hc Hu]. unfold other in Hc.
  cbn [exec_from matches rest]. destruct (p c); [discriminate|].
  now apply IH.
Qed.

Lemma exec_from_class_some (u : jsstring) (c : char) (t : jsstring) :
  forall i,
    forallb other u = true -> p c = true ->
    exec_from (Class p) i (u ++ c :: t)
    = Some (mkResult (i + List.length u) [c] []).
Proof.
  induction u as [|a u IH]; intros i H Hc.
  - cbn [app exec_from matches rest]. rewrite Hc.
    cbn [advance endIndex captures List.length].
    rewrite Nat.add_0_r. replace (S i - i) with 1 by lia. reflexivity.
  - cbn in H. apply andb_prop in H as [Ha Hu]. unfold other in Ha.
    cbn [app exec_from matches rest]. destruct (p a); [discriminate|].
    rewrite IH by assumption. cbn [List.length]. do 2 f_equal. lia.
Qed.

Lemma replaceAll_from_class (fuel : nat) :
  forall s i,
    List.length s <= fuel ->
    replaceAll_from (S fuel) (Class p) repl i s = replaceAllClass p repl s.
Proof.
  induction fuel as [|fuel IH]; intros s i Hlen;
    destruct (span_class s) as (u & tl & -> & Hu & [->|(c & t & -> & Hc)]).
  - rewrite app_nil_r. cbn [replaceAll_from].
    now rewrite exec_from_class_none, replaceAllClass_other.
  - rewrite length_app in Hlen. cbn in Hlen. lia.
  - rewrite app_nil_r. cbn [replaceAll_from].
    now rewrite exec_from_class_none, replaceAllClass_other.
  - change (replaceAll_from (S (S fuel)) (Class p) repl i (u ++ c :: t))
      with (match exec_from (Class p) i (u ++ c :: t) with
            | None => u ++ c :: t
            | Some m =>
                let before := firstn (index m - i) (u ++ c :: t) in
                let after :=
                  skipn (index m - i + List.length (matched m))
                    (u ++ c :: t) in
                match matched m with
                | [] =>
                    before ++ repl
                      ++ match after with
                         | [] => []
                         | c' :: t' =>
                             c' :: replaceAll_from (S fuel) (Class p) repl
                                     (S (index m)) t'
                         end
                | _ =>
                    before ++ repl
                      ++ replaceAll_from (S fuel) (Class p) repl
                           (index m + List.length (matched m)) after
                end
            end).
    rewrite exec_from_class_some by assumption.
    cbn [index matched List.length]. cbv zeta.
    replace (i + List.length u - i) with (List.length u) by lia.
    rewrite firstn_app, Nat.sub_diag, firstn_all. cbn [firstn].
    rewrite app_nil_r.
    rewrite skipn_app, skipn_all2 by lia.
    replace (List.length u + 1 - List.length u) with 1 by lia.
    cbn [skipn app].
    rewrite IH by (rewrite length_app in Hlen; cbn in Hlen; lia).
    unfold replaceAllClass. rewrite flat_map_app. cbn [flat_map].
    rewrite Hc. fold (replaceAllClass p repl u).
    now rewrite replaceAllClass_other.
Qed.

(** The replacement of every code unit of a class, by the matcher. *)
Lemma replaceAll_class (s : jsstring) :
  replaceAll (Class p) repl s = replaceAllClass p repl s.
Proof. unfold replaceAll. now apply replaceAll_from_class. Qed.

Lemma matches_runs_none (x : MatchState) :
  match rest x with [] => True | c :: _ => p c = false end ->
  matches (Rep (Class p) 1 None) x = [].
Proof.
  intros H. rewrite matches_rep_class by discriminate.
  destruct (rest x) as [|c t]; cbn; [reflexivity|]. now rewrite H.
Qed.

Lemma exec_from_runs_none (u : jsstring) :
  forall i,
    forallb other u = true -> exec_from (Rep (Class p) 1 None) i u = None.
Proof.
  induction u as [|c u IH]; intros i H.
  - cbn [exec_from]. now rewrite matches_runs_none.
  - cbn in H. apply andb_prop in H as [Hc Hu]. unfold other in Hc.
    apply negb_true_iff in Hc.
    rewrite exec_from_later by (now apply matches_runs_none).
    now apply IH.
Qed.

Lemma exec_from_runs_some (u : jsstring) (c : char) (run tl : jsstring) :
  forall i,
    forallb other u = true ->
    forallb p (c :: run) = true ->
    match tl with [] => True | d :: _ => p d = false end ->
    exec_from (Rep (Class p) 1 None) i (u ++ (c :: run) ++ tl)
    = Some (mkResult (i + List.length u) (c :: run) []).
Proof.
  induction u as [|a u IH]; intros i H Hrun Htl.
  - cbn [app List.length]. rewrite Nat.add_0_r.
    destruct (@first_rep_class p 1 None (mkState i ((c :: run) ++ tl) [])
                (c :: run) tl (List.length (c :: run)))
      as [others Hfirst]; auto; try discriminate; [cbn; lia|].
    etransitivity; [exact (exec_from_here _ _ _ Hfirst)|].
    cbn [skip endIndex captures].
    replace (i + List.length (c :: run) - i) with (List.length (c :: run))
      by lia.
    now rewrite firstn_app, Nat.sub_diag, firstn_all, app_nil_r.
  - cbn in H. apply andb_prop in H as [Ha Hu]. unfold other in Ha.
    apply negb_true_iff in Ha.
    cbn [app]. rewrite exec_from_later by (now apply matches_runs_none).
    rewrite IH by assumption. cbn [List.length]. do 2 f_equal. lia.
Qed.

Lemma replaceAllRuns_aux_other (u v : jsstring) :
  forallb other u = true ->
  replaceAllRuns_aux p repl false (u ++ v)
  = u ++ replaceAllRuns_aux p repl false v.
Proof.
  induction u as [|a u IH]; intros H; [reflexivity|].
  cbn in H |- *. apply andb_prop in H as [Ha Hu]. unfold other in Ha.
  destruct (p a); [discriminate|]. now rewrite IH.
Qed.

Lemma replaceAllRuns_aux_run (run tl : jsstring) :
  forallb p run = true ->
  match tl with [] => True | d :: _ => p d = false end ->
  replaceAllRuns_aux p repl true (run ++ tl)
  = replaceAllRuns_aux p repl false tl.
Proof.
  intros Hrun Htl. induction run as [|c run IH].
  - destruct tl as [|d tl]; [reflexivity|]. cbn. now rewrite Htl.
  - cbn in Hrun |- *. apply andb_prop in Hrun as [Hc Hrun].
    rewrite Hc. cbn. now apply IH.
Qed.

Lemma replaceAll_from_runs (fuel : nat) :
  forall s i,
    List.length s <= fuel ->
    replaceAll_from (S fuel) (Rep (Class p) 1 None) repl i s
    = replaceAllRuns p repl s.
Proof.
  induction fuel as [|fuel IH]; intros s i Hlen;
    destruct (span_class s) as (u & tl & -> & Hu & [->|(c & t & -> & Hc)]).
  - rewrite app_nil_r. cbn [replaceAll_from].
    rewrite exec_from_runs_none by assumption.
    unfold replaceAllRuns. rewrite <- (app_nil_r u) at 2.
    rewrite replaceAllRuns_aux_other by assumption. cbn. now rewrite app_nil_r.
  - rewrite length_app in Hlen. cbn in Hlen. lia.
  - rewrite app_nil_r. cbn [replaceAll_from].
    rewrite exec_from_runs_none by assumption.
    unfold replaceAllRuns. rewrite <- (app_nil_r u) at 2.
    rewrite replaceAllRuns_aux_other by assumption. cbn. now rewrite app_nil_r.
  - destruct (span_run t) as (run & tl & -> & Hrun & Htl).
    assert (Hcrun : forallb p (c :: run) = true) by (cbn; now rewrite Hc, Hrun).
    change (c :: run ++ tl) with ((c :: run) ++ tl).
    change (replaceAll_from (S (S fuel)) (Rep (Class p) 1 None) repl i
              (u ++ (c :: run) ++ tl))
      with (match exec_from (Rep (Class p) 1 None) i (u ++ (c :: run) ++ tl)
            with
            | None => u ++ (c :: run) ++ tl
            | Some m =>
                let before := firstn (index m - i) (u ++ (c :: run) ++ tl) in
                let after :=
                  skipn (index m - i + List.length (matched m))
                    (u ++ (c :: run) ++ tl) in
                match matched m with
                | [] =>
                    before ++ repl
                      ++ match after with
                         | [] => []
                         | c' :: t' =>
                             c' :: replaceAll_from (S fuel)
                                     (Rep (Class p) 1 None) repl
                                     (S (index m)) t'
                         end
                | _ =>
                    before ++ repl
                      ++ replaceAll_from (S fuel) (Rep (Class p) 1 None) repl
                           (index m + List.length (matched m)) after
                end
            end).
    rewrite exec_from_runs_some by assumption.
    cbn [index matched]. cbv zeta.
    replace (i + List.length u - i) with (List.length u) by lia.
    rewrite firstn_app, Nat.sub_diag, firstn_all. cbn [firstn].
    rewrite app_nil_r.
    assert (Hskip : skipn (List.length u + List.length (c :: run))
                      (u ++ (c :: run) ++ tl) = tl).
    { rewrite <- length_app, app_assoc.
      now rewrite skipn_app, skipn_all, Nat.sub_diag. }
    rewrite Hskip.
    rewrite IH
      by (rewrite length_app in Hlen; cbn in Hlen;
          rewrite length_app in Hlen; lia).
    unfold replaceAllRuns.
    rewrite replaceAllRuns_aux_other by assumption.
    cbn [app replaceAllRuns_aux]. rewrite Hc.
    now rewrite replaceAllRuns_aux_run.
Qed.

(** The replacement of every run of a class, by the matcher. *)
Lemma replaceAll_runs (s : jsstring) :
  replaceAll (plus (Class p)) repl s = replaceAllRuns p repl s.
Proof. unfold replaceAll, plus. now apply replaceAll_from_runs. Qed.

End GlobalReplace.

Local Open Scope Z_scope.

(** ** The monad *)

Section Monad.

Variable env : Env.

Lemma bind_ok {A B} {m : M A} (f : A -> M B) {w a w'} :
  m w = (Ok a, w') -> bind m f w = f a w'.
Proof. intros H; unfold bind; now rewrite H. Qed.

Lemma bind_throw {A B} {m : M A} (f : A -> M B) {w e w'} :
  m w = (Throw e, w') -> bind m f w = (Throw e, w').
Proof. intros H; unfold bind; now rewrite H. Qed.

Lemma try_catch_ok {A} {m : M A} h {w a w'} :
  m w = (Ok a, w') -> try_catch m h w = (Ok a, w').
Proof. intros H; unfold try_catch; now rewrite H. Qed.

Lemma try_catch_throw {A} {m : M A} h {w e w'} :
  m w = (Throw e, w') -> try_catch m h w = h e w'.
Proof. intros H; unfold try_catch; now rewrite H. Qed.

(** The text that [textOrEmpty] returns is [text_of], and the world is left
    as it was. *)
Lemma textOrEmpty_text_of el selector w :
  textOrEmpty el selector w = (Ok (text_of el selector), w).
Proof.
  unfold textOrEmpty, text_of, try_catch, bind, lift, ret.
  destruct (query el selector) as [[child|]|e]; simpl; try reflexivity.
  destruct (textContent child) as [t|e]; simpl; try reflexivity.
  now destruct (trim t).
Qed.

End Monad.

(** ** textOrEmpty *)

(** C6. [textOrEmpty] never throws: whatever the element answers, it returns
    a string and leaves the world alone.  The string is empty when the
    selector matches no child, when the trimmed text is empty, and when the
    query or the evaluation is rejected; otherwise it is the trimmed, non
    empty text of the child that the selector found. *)
Theorem textOrEmpty_never_throws (el : Element) (selector : jsstring)
  (w : World) :
  exists s,
    textOrEmpty el selector w = (Ok s, w)
    /\ (s = []
        \/ exists child t,
             query el selector = Fulfilled (Some child)
             /\ textContent child = Fulfilled t
             /\ s = trim t /\ s <> [])
    /\ (query el selector = Fulfilled None -> s = [])
    /\ (forall e, query el selector = Rejected e -> s = [])
    /\ (forall child,
          query el selector = Fulfilled (Some child) ->
          (forall e, textContent child = Rejected e -> s = [])
          /\ (forall t, textContent child = Fulfilled t ->
                        trim t = [] -> s = [])).
Proof.
  exists (text_of el selector).
  split; [apply textOrEmpty_text_of|].
  unfold text_of.
  destruct (query el selector) as [[child|]|e] eqn:Q.
  - assert (Hchild : forall c, Fulfilled (Some child) = Fulfilled (Some c) ->
                               c = child) by (intros c Hc; congruence).
    destruct (textContent child) as [t|e] eqn:T.
    + split; [|split; [discriminate|split; [discriminate|]]].
      * destruct (trim t) eqn:Tr; [now left|].
        right. exists child, t. rewrite Tr. repeat split; congruence.
      * intros c Hc. apply Hchild in Hc. subst c. rewrite T.
        split; [discriminate|]. intros t' Ht' Hempty. congruence.
    + split; [now left|split; [discriminate|split; [discriminate|]]].
      intros c Hc. split; reflexivity.
  - split; [now left|split; [reflexivity|split; [discriminate|discriminate]]].
  - split; [now left|split; [discriminate|split; [reflexivity|discriminate]]].
Qed.

(** ** getYearsFromArg *)

Lemma years_loop_desc (trips : nat) :
  forall (y : Z) (years : list jsstring),
    y - Z.of_nat trips = 1999 ->
    years_loop trips y years
    = years ++ List.map (fun i => numToString (y - Z.of_nat i)) (seq 0 trips).
Proof.
  induction trips as [|n IH]; intros y years Hy.
  - simpl. now rewrite app_nil_r.
  - cbn [years_loop].
    replace (Z.geb y 2000) with true by (symmetry; apply Z.geb_le; lia).
    rewrite IH by lia.
    rewrite <- app_assoc. f_equal.
    cbn [seq List.map app]. rewrite Z.sub_0_r. f_equal.
    rewrite <- seq_shift, map_map.
    apply map_ext. intros i. f_equal. lia.
Qed.

(** C5. With a (non empty) positional argument the years are that argument
    alone; without one they are the decimal strings of [current],
    [current - 1], ..., [2000], in that order. *)
Theorem getYearsFromArg_spec (arg : jsstring) (current : Z) :
  arg <> [] ->
  getYearsFromArg (Some arg) current = [arg]
  /\ getYearsFromArg None current
     = List.map (fun i => numToString (current - Z.of_nat i))
         (seq 0 (Z.to_nat (current - 1999)))
  /\ List.length (getYearsFromArg None current) = Z.to_nat (current - 1999)
  /\ (2000 <= current ->
      hd_error (getYearsFromArg None current) = Some (numToString current)
      /\ last (getYearsFromArg None current) [] = numToString 2000).
Proof.
  intros Harg.
  assert (Hnone : getYearsFromArg None current
     = List.map (fun i => numToString (current - Z.of_nat i))
         (seq 0 (Z.to_nat (current - 1999)))).
  { unfold getYearsFromArg.
    destruct (Z_le_gt_dec current 1999) as [Hle|Hgt].
    - replace (Z.to_nat (current - 1999)) with O by lia. reflexivity.
    - rewrite years_loop_desc by lia. reflexivity. }
  split; [destruct arg; [contradiction|reflexivity]|].
  split; [exact Hnone|].
  split; [rewrite Hnone, length_map, length_seq; reflexivity|].
  intros Hcur. rewrite Hnone.
  destruct (Z.to_nat (current - 1999)) as [|n] eqn:E; [lia|].
  split.
  - cbn [seq List.map hd_error]. now rewrite Z.sub_0_r.
  - rewrite seq_S, map_app. cbn [List.map]. rewrite last_last. f_equal. lia.
Qed.

Lemma getYearsFromArg_spec_witness :
  getYearsFromArg (Some (lit "2023")) 2025 = [lit "2023"]
  /\ getYearsFromArg None 2002 = [lit "2002"; lit "2001"; lit "2000"].
Proof.
  assert (H : lit "2023" <> []) by discriminate.
  destruct (getYearsFromArg_spec 2002 H) as (_ & H2 & _).
  destruct (getYearsFromArg_spec 2025 H) as (H1 & _).
  split; [exact H1|]. rewrite H2. reflexivity.
Defined.

(** ** waitUntil *)

Section WaitUntil.

Variable env : Env.
Variable checkFn : M bool.
Variables start timeoutMs intervalMs : Z.

Lemma waitUntil_turn_success w w1 :
  checkFn w = (Ok true, w1) ->
  waitUntil_turn env checkFn start timeoutMs intervalMs w = (Ok (Some true), w1).
Proof.
  intros H. unfold waitUntil_turn.
  erewrite bind_ok by (eapply try_catch_ok; exact H). reflexivity.
Qed.

Lemma check_failed_caught w r w1 :
  checkFn w = (r, w1) -> check_failed r ->
  try_catch checkFn (fun _ => ret false) w = (Ok false, w1).
Proof.
  intros H [->|[e ->]]; unfold try_catch; rewrite H; reflexivity.
Qed.

Lemma waitUntil_turn_idle w r w1 :
  checkFn w = (r, w1) -> check_failed r ->
  e_now env (step w1) - start <= timeoutMs ->
  waitUntil_turn env checkFn start timeoutMs intervalMs w
  = (Ok None, tick (tick w1)).
Proof.
  intros H Hr Ht. unfold waitUntil_turn.
  erewrite bind_ok by (eapply check_failed_caught; eassumption).
  unfold bind, date_now, sleep, ret.
  replace (Z.gtb _ _) with false by (symmetry; rewrite Z.gtb_ltb; apply Z.ltb_ge; lia).
  reflexivity.
Qed.

Lemma waitUntil_turn_timeout w r w1 :
  checkFn w = (r, w1) -> check_failed r ->
  e_now env (step w1) - start > timeoutMs ->
  waitUntil_turn env checkFn start timeoutMs intervalMs w
  = (Throw timedOut, tick w1).
Proof.
  intros H Hr Ht. unfold waitUntil_turn.
  erewrite bind_ok by (eapply check_failed_caught; eassumption).
  unfold bind, date_now, throw.
  replace (Z.gtb _ _) with true by (symmetry; rewrite Z.gtb_ltb; apply Z.ltb_lt; lia).
  reflexivity.
Qed.

(** After the idle turns, the loop behaves as the loop started where they
    end, with the fuel they used taken off. *)
Lemma waitUntil_loop_idle k :
  forall w w1 fuel,
    idle_turns env checkFn start timeoutMs k w w1 ->
    waitUntil_loop env (k + fuel) checkFn start timeoutMs intervalMs w
    = waitUntil_loop env fuel checkFn start timeoutMs intervalMs w1.
Proof.
  induction k as [|k IH]; intros w w1 fuel Hidle; inversion Hidle; subst.
  - reflexivity.
  - cbn [Nat.add waitUntil_loop].
    erewrite bind_ok by (eapply waitUntil_turn_idle; eassumption).
    now apply IH.
Qed.

Lemma waitUntil_loop_returns k w w1 w2 fuel :
  idle_turns env checkFn start timeoutMs k w w1 ->
  checkFn w1 = (Ok true, w2) ->
  (k < fuel)%nat ->
  waitUntil_loop env fuel checkFn start timeoutMs intervalMs w = (Ok true, w2).
Proof.
  intros Hidle Hcheck Hfuel.
  replace fuel with (k + S (fuel - S k))%nat by lia.
  rewrite (waitUntil_loop_idle _ Hidle). cbn [waitUntil_loop].
  erewrite bind_ok by (eapply waitUntil_turn_success; eassumption).
  reflexivity.
Qed.

Lemma waitUntil_loop_times_out k w w1 w2 r fuel :
  idle_turns env checkFn start timeoutMs k w w1 ->
  checkFn w1 = (r, w2) -> check_failed r ->
  e_now env (step w2) - start > timeoutMs ->
  (k < fuel)%nat ->
  waitUntil_loop env fuel checkFn start timeoutMs intervalMs w
  = (Throw timedOut, tick w2).
Proof.
  intros Hidle Hcheck Hr Ht Hfuel.
  replace fuel with (k + S (fuel - S k))%nat by lia.
  rewrite (waitUntil_loop_idle _ Hidle). cbn [waitUntil_loop].
  erewrite bind_throw by (eapply waitUntil_turn_timeout; eassumption).
  reflexivity.
Qed.

End WaitUntil.

(** ** Sign-in and cookies *)

Section SignIn.

Variable env : Env.

Lemma main_after_setup fuel wi w0 :
  main_setup env wi = (Ok tt, w0) ->
  main env fuel wi
  = (ensureSignedInAndOnOrders env fuel (saveCookies env (cookiesPath env)) ;;;
     main_scrape env fuel (getYearsFromArg (e_argv2 env) (e_year env)) ;;;
     try_catch (saveCookies env (cookiesPath env)) (fun _ => ret tt) ;;;
     io_call env) w0.
Proof. intros H. unfold main. now rewrite (bind_ok _ H). Qed.

Lemma ensureSignedIn_after_goto fuel saveCookiesFn w0 w :
  page_goto env ORDERS_URL w0 = (Ok tt, w) ->
  ensureSignedInAndOnOrders env fuel saveCookiesFn w0
  = (waitUntil env fuel (signInCheck env) signInTimeoutMs 1000 ;;;
     try_catch saveCookiesFn (fun _ => ret tt)) w.
Proof. intros H. unfold ensureSignedInAndOnOrders. now rewrite (bind_ok _ H). Qed.

(** Saving the cookies gives [Ok] or [Throw], and [try { } catch { }] turns
    both into [Ok]. *)
Lemma saveCookies_swallowed p w :
  exists w', try_catch (saveCookies env p) (fun _ => ret tt) w = (Ok tt, w').
Proof.
  unfold try_catch, saveCookies, bind, page_cookies, fs_writeFile, ret.
  destruct (e_cookies env (step w)) as [cs|e]; cbn.
  - destruct (e_io env (S (step w))) as [u|e]; cbn; eexists; reflexivity.
  - eexists; reflexivity.
Qed.

Lemma setCookies_applied (cs : list Cookie) :
  forall w,
    (exists w', for_of cs (fun _ c => page_setCookie env c) tt w = (Ok tt, w')
                /\ jar w' = jar w ++ cs)
    \/ (exists e w', for_of cs (fun _ c => page_setCookie env c) tt w
                     = (Throw e, w')).
Proof.
  induction cs as [|c cs IH]; intros w.
  - left. exists w. cbn. now rewrite app_nil_r.
  - cbn [for_of].
    destruct (e_io env (step w)) as [u|e] eqn:Hio.
    + assert (Hset : page_setCookie env c w
                     = (Ok tt, mkWorld (S (step w)) (files w) (jar w ++ [c])))
        by (unfold page_setCookie; now rewrite Hio).
      rewrite (bind_ok _ Hset).
      destruct (IH (mkWorld (S (step w)) (files w) (jar w ++ [c])))
        as [(w' & H & Hjar)|(e & w' & H)].
      * left. exists w'. split; [exact H|].
        rewrite Hjar. cbn. now rewrite <- app_assoc.
      * right. eauto.
    + assert (Hset : page_setCookie env c w = (Throw e, tick w))
        by (unfold page_setCookie; now rewrite Hio).
      rewrite (bind_throw _ Hset). right. eauto.
Qed.

End SignIn.

(** C8. Let the loop of [waitUntil] go round [k] times with checks that do
    not succeed while the time is not up.  If the next check yields [true],
    [waitUntil] returns [true] there.  If it fails again (by a falsy value or
    by an exception, which is ignored) and more than [timeoutMs] have passed
    since the start, [waitUntil] throws "Timed out waiting for condition".
    The sign-in wait runs this loop with a timeout of ten minutes, and its
    timeout leaves [ensureSignedInAndOnOrders] and [main] as that error. *)
Theorem waitUntil_spec (env : Env) (checkFn : M bool) (timeoutMs intervalMs : Z)
  (fuel k : nat) (w w1 w2 : World) (r : Result bool) :
  idle_turns env checkFn (e_now env (step w)) timeoutMs k (tick w) w1 ->
  checkFn w1 = (r, w2) ->
  (k < fuel)%nat ->
  (r = Ok true ->
   waitUntil env fuel checkFn timeoutMs intervalMs w = (Ok true, w2))
  /\ (check_failed r ->
      e_now env (step w2) - e_now env (step w) > timeoutMs ->
      waitUntil env fuel checkFn timeoutMs intervalMs w
      = (Throw timedOut, tick w2)
      /\ (checkFn = signInCheck env ->
          timeoutMs = 10 * 60 * 1000 ->
          intervalMs = 1000 ->
          forall saveCookiesFn w0,
            page_goto env ORDERS_URL w0 = (Ok tt, w) ->
            ensureSignedInAndOnOrders env fuel saveCookiesFn w0
            = (Throw timedOut, tick w2)
            /\ forall wi,
                 main_setup env wi = (Ok tt, w0) ->
                 main env fuel wi = (Throw timedOut, tick w2))).
Proof.
  intros Hidle Hcheck Hfuel.
  split.
  - intros ->. unfold waitUntil, bind, date_now.
    eapply waitUntil_loop_returns; eassumption.
  - intros Hr Ht.
    assert (Hwait : waitUntil env fuel checkFn timeoutMs intervalMs w
                    = (Throw timedOut, tick w2)).
    { unfold waitUntil, bind, date_now.
      eapply waitUntil_loop_times_out; eassumption. }
    split; [exact Hwait|].
    intros -> -> -> saveCookiesFn w0 Hgoto.
    assert (Hens : ensureSignedInAndOnOrders env fuel saveCookiesFn w0
                   = (Throw timedOut, tick w2)).
    { erewrite ensureSignedIn_after_goto by eassumption.
      now rewrite (bind_throw _ Hwait). }
    split; [exact Hens|].
    intros wi Hsetup.
    erewrite main_after_setup by eassumption.
    apply bind_throw.
    erewrite ensureSignedIn_after_goto by eassumption.
    now rewrite (bind_throw _ Hwait).
Qed.

Lemma waitUntil_spec_witness :
  waitUntil (signed_out_env (fun n => Z.of_nat n * 100000)) 5
    (signInCheck (signed_out_env (fun n => Z.of_nat n * 100000)))
    (10 * 60 * 1000) 1000 new_world
  = (Throw timedOut, mkWorld 8 (fun _ => None) []).
Proof.
  pose (env := signed_out_env (fun n => Z.of_nat n * 100000)).
  assert (Hidle : idle_turns env (signInCheck env) (e_now env (step new_world))
                    (10 * 60 * 1000) 1 (tick new_world)
                    (mkWorld 5 (fun _ => None) [])).
  { apply idle_more with (w1 := mkWorld 3 (fun _ => None) []) (r := Ok false).
    - reflexivity.
    - left; reflexivity.
    - cbn. lia.
    - apply idle_none. }
  assert (Hcheck : signInCheck env (mkWorld 5 (fun _ => None) [])
                   = (Ok false, mkWorld 7 (fun _ => None) []))
    by reflexivity.
  assert (Hfuel : (1 < 5)%nat) by lia.
  destruct (waitUntil_spec 1000 Hidle Hcheck Hfuel) as [_ Htimeout].
  apply Htimeout.
  - left; reflexivity.
  - cbn. lia.
Defined.

(** C7. [loadCookies] never throws.  It returns [false] when the cookie file
    is absent, when reading it is rejected and when [JSON.parse] rejects its
    text; it returns [true] only when the text parsed to a list of cookies
    and every one of them has been set on the page, in order.  The save
    after the sign-in and the save at the end of [main] are inside
    [try { } catch { }]: whether [saveCookies] fails or not,
    [ensureSignedInAndOnOrders] returns once the wait has, and [main] goes on
    to close the browser. *)
Theorem cookies_failures_swallowed (env : Env) (p : jsstring) (fuel : nat)
  (w : World) :
  (exists b w', loadCookies env p w = (Ok b, w'))
  /\ (files w p = None -> fst (loadCookies env p w) = Ok false)
  /\ (forall e, files w p <> None -> e_io env (step w) = Rejected e ->
                fst (loadCookies env p w) = Ok false)
  /\ (forall text e, files w p = Some text ->
                     json_parse env text = Rejected e ->
                     fst (loadCookies env p w) = Ok false)
  /\ (fst (loadCookies env p w) = Ok true ->
      exists text cs,
        files w p = Some text
        /\ json_parse env text = Fulfilled (PIterable cs)
        /\ jar (snd (loadCookies env p w)) = jar w ++ cs)
  /\ (forall w0 w1 b,
        page_goto env ORDERS_URL w0 = (Ok tt, w) ->
        waitUntil env fuel (signInCheck env) signInTimeoutMs 1000 w
        = (Ok b, w1) ->
        exists w2,
          ensureSignedInAndOnOrders env fuel (saveCookies env p) w0
          = (Ok tt, w2))
  /\ (forall wi w0 w1 total,
        main_setup env wi = (Ok tt, w0) ->
        ensureSignedInAndOnOrders env fuel (saveCookies env (cookiesPath env))
          w0 = (Ok tt, w1) ->
        main_scrape env fuel (getYearsFromArg (e_argv2 env) (e_year env)) w1
        = (Ok total, w) ->
        exists w2,
          try_catch (saveCookies env (cookiesPath env)) (fun _ => ret tt) w
          = (Ok tt, w2)
          /\ main env fuel wi = io_call env w2).
Proof.
  assert (Hload :
    match files w p with
    | None => loadCookies env p w = (Ok false, w)
    | Some text =>
        match e_io env (step w) with
        | Rejected _ => loadCookies env p w = (Ok false, tick w)
        | Fulfilled _ =>
            match json_parse env text with
            | Rejected _ => loadCookies env p w = (Ok false, tick w)
            | Fulfilled PNotIterable =>
                loadCookies env p w = (Ok false, tick w)
            | Fulfilled (PIterable cs) =>
                (exists w', loadCookies env p w = (Ok true, w')
                            /\ jar w' = jar w ++ cs)
                \/ (exists w', loadCookies env p w = (Ok false, w'))
            end
        end
    end).
  { destruct (files w p) as [text|] eqn:Hf.
    - assert (Hex : fs_existsSync p w = (Ok true, w))
        by (unfold fs_existsSync; now rewrite Hf).
      destruct (e_io env (step w)) as [u|e] eqn:Hio.
      + assert (Hread : fs_readFile env p w = (Ok text, tick w))
          by (unfold fs_readFile; now rewrite Hio, Hf).
        destruct (json_parse env text) as [[cs|]|e] eqn:Hparse.
        * assert (Hlift : lift (json_parse env text) (tick w)
                          = (Ok (PIterable cs), tick w))
            by (unfold lift; now rewrite Hparse).
          destruct (setCookies_applied env cs (tick w))
            as [(w' & H & Hjar)|(e & w' & H)].
          -- left. exists w'. split; [|exact Hjar].
             unfold loadCookies. apply try_catch_ok.
             rewrite (bind_ok _ Hex). cbn [negb].
             rewrite (bind_ok _ Hread), (bind_ok _ Hlift), (bind_ok _ H).
             reflexivity.
          -- right. exists w'.
             unfold loadCookies. erewrite try_catch_throw; [reflexivity|].
             rewrite (bind_ok _ Hex). cbn [negb].
             rewrite (bind_ok _ Hread), (bind_ok _ Hlift).
             apply bind_throw, H.
        * assert (Hlift : lift (json_parse env text) (tick w)
                          = (Ok PNotIterable, tick w))
            by (unfold lift; now rewrite Hparse).
          unfold loadCookies. erewrite try_catch_throw; [reflexivity|].
          rewrite (bind_ok _ Hex). cbn [negb].
          rewrite (bind_ok _ Hread), (bind_ok _ Hlift). reflexivity.
        * assert (Hlift : lift (json_parse env text) (tick w)
                          = (Throw e, tick w))
            by (unfold lift; now rewrite Hparse).
          unfold loadCookies. erewrite try_catch_throw; [reflexivity|].
          rewrite (bind_ok _ Hex). cbn [negb].
          rewrite (bind_ok _ Hread). apply bind_throw, Hlift.
      + assert (Hread : fs_readFile env p w = (Throw e, tick w))
          by (unfold fs_readFile; now rewrite Hio).
        unfold loadCookies. erewrite try_catch_throw; [reflexivity|].
        rewrite (bind_ok _ Hex). cbn [negb]. apply bind_throw, Hread.
    - assert (Hex : fs_existsSync p w = (Ok false, w))
        by (unfold fs_existsSync; now rewrite Hf).
      unfold loadCookies. apply try_catch_ok.
      rewrite (bind_ok _ Hex). reflexivity. }
  split; [|split; [|split; [|split; [|split; [|split]]]]].
  - destruct (files w p) as [text|]; [|eauto].
    destruct (e_io env (step w)); [|eauto].
    destruct (json_parse env text) as [[cs|]|e]; eauto.
    destruct Hload as [(w' & H & _)|(w' & H)]; eauto.
  - intros Hf. rewrite Hf in Hload. now rewrite Hload.
  - intros e Hf Hio. destruct (files w p); [|congruence].
    rewrite Hio in Hload. now rewrite Hload.
  - intros text e Hf Hparse. rewrite Hf in Hload.
    destruct (e_io env (step w)); [|now rewrite Hload].
    rewrite Hparse in Hload. now rewrite Hload.
  - intros Htrue. destruct (files w p) as [text|] eqn:Hf.
    + destruct (e_io env (step w)).
      * destruct (json_parse env text) as [[cs|]|e] eqn:Hparse.
        -- destruct Hload as [(w' & H & Hjar)|(w' & H)].
           ++ exists text, cs. rewrite H. repeat split; auto.
           ++ rewrite H in Htrue. discriminate.
        -- rewrite Hload in Htrue. discriminate.
        -- rewrite Hload in Htrue. discriminate.
      * rewrite Hload in Htrue. discriminate.
    + rewrite Hload in Htrue. discriminate.
  - intros w0 w1 b Hgoto Hwait.
    erewrite ensureSignedIn_after_goto by eassumption.
    rewrite (bind_ok _ Hwait).
    apply saveCookies_swallowed.
  - intros wi w0 w1 total Hsetup Hens Hscrape.
    destruct (saveCookies_swallowed env (cookiesPath env) w) as [w2 Hsave].
    exists w2. split; [exact Hsave|].
    erewrite main_after_setup by eassumption.
    rewrite (bind_ok _ Hens), (bind_ok _ Hscrape), (bind_ok _ Hsave).
    reflexivity.
Qed.

(** ** Orders, when no call fails *)

Lemma str_eqb_refl (s : jsstring) : str_eqb s s = true.
Proof.
  induction s as [|c s IH]; [reflexivity|].
  cbn. unfold char_eqb. now rewrite N.eqb_refl.
Qed.

Lemma str_eqb_eq (a b : jsstring) : str_eqb a b = true -> a = b.
Proof.
  revert b. induction a as [|x a IH]; intros [|y b] H; try discriminate.
  - reflexivity.
  - cbn in H. apply andb_prop in H as [Hc Hs].
    apply N.eqb_eq in Hc. f_equal; auto.
Qed.

Lemma file_content_written p data w :
  file_content (write_file p data w) p = data.
Proof. unfold file_content, write_file. cbn. now rewrite str_eqb_refl. Qed.

Lemma file_content_other p q data w :
  str_eqb q p = false ->
  file_content (write_file p data w) q = file_content w q.
Proof. intros H. unfold file_content, write_file. cbn. now rewrite H. Qed.

Lemma appended_refl p w : appended p [] w w.
Proof. unfold appended. cbn. now rewrite app_nil_r. Qed.

Lemma appended_trans p rows1 rows2 w1 w2 w3 :
  appended p rows1 w1 w2 -> appended p rows2 w2 w3 ->
  appended p (rows1 ++ rows2) w1 w3.
Proof.
  unfold appended. intros H1 H2.
  now rewrite H2, H1, map_app, concat_app, app_assoc.
Qed.

Lemma sumZ_app l1 l2 : sumZ (l1 ++ l2) = sumZ l1 + sumZ l2.
Proof.
  unfold sumZ. induction l1 as [|x l1 IH]; cbn; [reflexivity|].
  rewrite IH. lia.
Qed.

Section Orders.

Variable env : Env.
Hypothesis Hio : io_ok env.

Lemma writeCSVRow_ok p rowData w :
  writeCSVRow env p rowData w
  = (Ok tt, write_file p (file_content w p ++ csvRow rowData) w).
Proof. unfold writeCSVRow, fs_appendFile. now rewrite Hio. Qed.

Lemma processItem_ok status isReturn orderDate p total paid itemEl w :
  processItem env status isReturn orderDate p (total, paid) itemEl w
  = (Ok (total + item_line itemEl,
         if isReturn then paid else paid + item_line itemEl),
     write_file p
       (file_content w p
          ++ csvRow (item_row orderDate status isReturn itemEl)) w).
Proof.
  unfold processItem.
  rewrite (bind_ok _ (textOrEmpty_text_of itemEl ARTICLE_NAME w)).
  unfold item_row, item_line, item_count, item_name, item_single,
    item_name_shown.
  destruct (detectQuantity _) as [count name]. cbn [fst snd].
  rewrite (bind_ok _ (textOrEmpty_text_of itemEl ARTICLE_PRICE w)).
  rewrite (bind_ok _ (writeCSVRow_ok _ _ _)).
  cbn [fst snd]. destruct isReturn; reflexivity.
Qed.

Lemma process_items_ok status isReturn orderDate p (items : list Element) :
  forall total paid w,
  exists w',
    for_of items (processItem env status isReturn orderDate p) (total, paid) w
    = (Ok (total + sumZ (List.map item_line items),
           if isReturn then paid
           else paid + sumZ (List.map item_line items)), w')
    /\ appended p (List.map (item_row orderDate status isReturn) items) w w'.
Proof.
  induction items as [|it items IH]; intros total paid w.
  - exists w. cbn. rewrite !Z.add_0_r. split; [now destruct isReturn|].
    apply appended_refl.
  - cbn [for_of]. rewrite (bind_ok _ (processItem_ok _ _ _ _ _ _ _ _)).
    destruct (IH (total + item_line it)
                (if isReturn then paid else paid + item_line it)
                (write_file p
                   (file_content w p
                      ++ csvRow (item_row orderDate status isReturn it)) w))
      as (w' & Hrun & Happ).
    exists w'. split.
    + rewrite Hrun. cbn [List.map sumZ fold_right]. fold (sumZ (List.map item_line items)).
      destruct isReturn;
        (apply f_equal2; [|reflexivity]); apply f_equal; apply f_equal2; lia.
    + change (List.map (item_row orderDate status isReturn) (it :: items))
        with ([item_row orderDate status isReturn it]
                ++ List.map (item_row orderDate status isReturn) items).
      eapply appended_trans; [|exact Happ].
      unfold appended. rewrite file_content_written. cbn.
      now rewrite app_nil_r.
Qed.

Lemma lift_list_of (el : Element) selector w :
  lists el selector = true ->
  lift (queryAll el selector) w = (Ok (list_of el selector), w).
Proof.
  unfold lists, list_of, lift. now destruct (queryAll el selector).
Qed.

Lemma processShipment_ok shipEl orderDate p w :
  shipment_listed shipEl = true ->
  exists w',
    processShipment env shipEl orderDate p w
    = (Ok (shipment_total shipEl,
           if shipment_is_return shipEl then 0 else shipment_total shipEl),
       w')
    /\ appended p (shipment_rows orderDate shipEl) w w'.
Proof.
  intros Hlist. unfold processShipment.
  rewrite (bind_ok _ (textOrEmpty_text_of shipEl SHIPMENT_STATUS w)).
  fold (shipment_status shipEl). fold (shipment_is_return shipEl).
  rewrite (bind_ok _ (lift_list_of shipEl ARTICLE_SHIPMENT w Hlist)).
  fold (shipment_items shipEl).
  destruct (process_items_ok (shipment_status shipEl)
              (shipment_is_return shipEl) orderDate p (shipment_items shipEl)
              0 0 w) as (w' & Hrun & Happ).
  exists w'. split; [|exact Happ].
  rewrite Hrun. unfold shipment_total.
  destruct (shipment_is_return shipEl); reflexivity.
Qed.

Lemma process_shipments_ok orderDate p (ships : list Element) :
  forallb shipment_listed ships = true ->
  forall total paid w,
  exists w',
    for_of ships
      (fun (acc : Z * Z) shipEl =>
         r <- processShipment env shipEl orderDate p ;;
         ret (fst acc + fst r, snd acc + snd r))
      (total, paid) w
    = (Ok (total + sumZ (List.map shipment_total ships),
           paid + sumZ (List.map shipment_total
                          (filter (fun sh => negb (shipment_is_return sh))
                             ships))), w')
    /\ appended p (flat_map (shipment_rows orderDate) ships) w w'.
Proof.
  induction ships as [|sh ships IH]; intros Hlist total paid w.
  - exists w. cbn. rewrite !Z.add_0_r. split; [reflexivity|].
    apply appended_refl.
  - cbn [forallb] in Hlist. apply andb_prop in Hlist as [Hsh0 Hrest].
    cbn [for_of].
    destruct (processShipment_ok sh orderDate p w Hsh0) as (w1 & Hsh & Happ1).
    rewrite (bind_ok _ (bind_ok _ Hsh)). cbn [fst snd].
    destruct (IH Hrest (total + shipment_total sh)
                (paid + (if shipment_is_return sh then 0
                         else shipment_total sh)) w1)
      as (w' & Hrun & Happ).
    exists w'. split.
    + rewrite Hrun. cbn [List.map filter sumZ fold_right].
      destruct (shipment_is_return sh); cbn [negb List.map sumZ fold_right];
        (apply f_equal2; [|reflexivity]); apply f_equal; apply f_equal2;
        unfold sumZ; lia.
    + cbn [flat_map]. eapply appended_trans; eassumption.
Qed.

Lemma calculateAndWriteShippingCosts_ok p orderDate price total w :
  exists w',
    calculateAndWriteShippingCosts env p orderDate price total w
    = (Ok (Z.max 0 (price - total)), w')
    /\ (0 < Z.max 0 (price - total) ->
        appended p [shipping_row orderDate (Z.max 0 (price - total))] w w')
    /\ (Z.max 0 (price - total) = 0 -> w' = w).
Proof.
  unfold calculateAndWriteShippingCosts.
  destruct (Z.ltb_spec (price - total) 0) as [Hneg|Hpos].
  - exists w. replace (Z.max 0 (price - total)) with 0 by lia.
    cbn. split; [reflexivity|]. split; [lia|reflexivity].
  - replace (Z.max 0 (price - total)) with (price - total) by lia.
    destruct (Z.gtb_spec (price - total) 0) as [Hgt|Hle].
    + eexists. rewrite (bind_ok _ (writeCSVRow_ok _ _ _)).
      split; [reflexivity|]. split; [|lia].
      intros _. unfold appended, shipping_row.
      rewrite file_content_written. cbn. now rewrite app_nil_r.
    + exists w. split; [reflexivity|]. split; [lia|reflexivity].
Qed.

Lemma processOrder_ok orderEl p w :
  order_listed orderEl = true ->
  exists w1 w',
    processOrder env orderEl p w
    = (Ok (order_paid_after_returns orderEl + order_shipping orderEl), w')
    /\ appended p (order_item_rows orderEl) w w1
    /\ (0 < order_shipping orderEl ->
        appended p
          [shipping_row (order_date orderEl) (order_shipping orderEl)] w1 w')
    /\ (order_shipping orderEl = 0 -> w' = w1).
Proof.
  intros Hlist. apply andb_prop in Hlist as [Horder Hships].
  unfold processOrder.
  rewrite (bind_ok _ (textOrEmpty_text_of orderEl ORDER_DATE w)).
  fold (order_date orderEl).
  rewrite (bind_ok _ (textOrEmpty_text_of orderEl ORDER_PRICE w)).
  fold (order_price orderEl).
  rewrite (bind_ok _ (lift_list_of orderEl ORDER_SHIPMENTS w Horder)).
  fold (order_shipments orderEl).
  destruct (process_shipments_ok (order_date orderEl) p
              (order_shipments orderEl) Hships 0 0 w) as (w1 & Hrun & Happ).
  rewrite (bind_ok _ Hrun). cbn [fst snd]. rewrite !Z.add_0_l.
  fold (order_items_total orderEl). fold (order_paid_after_returns orderEl).
  destruct (calculateAndWriteShippingCosts_ok p (order_date orderEl)
              (order_price orderEl) (order_items_total orderEl) w1)
    as (w' & Hship & Hpos & Hzero).
  exists w1, w'. rewrite (bind_ok _ Hship).
  split; [reflexivity|]. split; [exact Happ|]. split; assumption.
Qed.

End Orders.

Lemma signed_out_env_io_ok now : io_ok (signed_out_env now).
Proof. intros n. reflexivity. Qed.

Lemma sumZ_flat_map {A B} (f : B -> Z) (g : A -> list B) (l : list A) :
  sumZ (List.map f (flat_map g l))
  = sumZ (List.map (fun x => sumZ (List.map f (g x))) l).
Proof.
  induction l as [|x l IH]; [reflexivity|].
  cbn [flat_map List.map]. rewrite map_app, sumZ_app, IH. reflexivity.
Qed.

Lemma sumZ_filter_returns (ships : list Element) :
  sumZ (List.map shipment_total
          (filter (fun sh => negb (shipment_is_return sh)) ships))
  = sumZ (List.map
            (fun sh => if shipment_is_return sh then 0 else shipment_total sh)
            ships).
Proof.
  induction ships as [|sh ships IH]; [reflexivity|].
  cbn [filter List.map]. destruct (shipment_is_return sh); cbn [negb].
  - unfold sumZ in *. cbn. exact IH.
  - unfold sumZ in *. cbn. now rewrite IH.
Qed.

(** ** The shipping cost *)

(** C2. When no call fails and the order lists its shipments and items,
    [calculateAndWriteShippingCosts] returns the
    order price minus the total of the articles, or 0 when that is negative;
    it appends the row of the shipment (count "1", name "shipment", both
    prices the cost) when the cost is positive and leaves the world as it is
    when the cost is 0.  [processOrder] calls it with the parsed price of the
    order and the sum of the line totals of all its items. *)
Theorem shipping_cost_inferred (env : Env) (orderEl : Element)
  (p orderDate : jsstring) (price total : Z) (w : World) :
  io_ok env ->
  order_listed orderEl = true ->
  (exists w',
     calculateAndWriteShippingCosts env p orderDate price total w
     = (Ok (Z.max 0 (price - total)), w')
     /\ (0 < Z.max 0 (price - total) ->
         file_content w' p
         = file_content w p
             ++ csvRow [orderDate; []; lit "1"; lit "shipment";
                        centsToUSD (Z.max 0 (price - total));
                        centsToUSD (Z.max 0 (price - total)); []])
     /\ (Z.max 0 (price - total) = 0 -> w' = w))
  /\ (exists w1 w',
        processOrder env orderEl p w
        = (Ok (order_paid_after_returns orderEl + order_shipping orderEl), w')
        /\ order_shipping orderEl
           = Z.max 0
               (usdToCents (Some (text_of orderEl ORDER_PRICE))
                - sumZ (List.map item_line
                          (flat_map shipment_items (order_shipments orderEl))))
        /\ file_content w1 p
           = file_content w p
               ++ List.concat (List.map csvRow (order_item_rows orderEl))
        /\ (0 < order_shipping orderEl ->
            file_content w' p
            = file_content w1 p
                ++ csvRow [order_date orderEl; []; lit "1"; lit "shipment";
                           centsToUSD (order_shipping orderEl);
                           centsToUSD (order_shipping orderEl); []])
        /\ (order_shipping orderEl = 0 -> w' = w1)).
Proof.
  intros Hio Hlist. split.
  - destruct (calculateAndWriteShippingCosts_ok Hio p orderDate price total w)
      as (w' & Hrun & Hpos & Hzero).
    exists w'. split; [exact Hrun|]. split; [|exact Hzero].
    intros H. specialize (Hpos H). unfold appended in Hpos.
    rewrite Hpos. cbn. now rewrite app_nil_r.
  - destruct (processOrder_ok Hio orderEl p w Hlist)
      as (w1 & w' & Hrun & Hrows & Hpos & Hzero).
    exists w1, w'. split; [exact Hrun|]. split.
    { unfold order_shipping, order_price, order_items_total. do 2 f_equal.
      unfold shipment_total. symmetry. apply sumZ_flat_map. }
    split; [exact Hrows|]. split; [|exact Hzero].
    intros H. specialize (Hpos H). unfold appended in Hpos.
    rewrite Hpos. cbn. now rewrite app_nil_r.
Qed.

Lemma shipping_cost_inferred_witness :
  fst (processOrder (signed_out_env (fun _ => 0)) sample_order
         (lit "orders.csv") new_world) = Ok 2750
  /\ order_shipping sample_order = 750
  /\ fst (calculateAndWriteShippingCosts (signed_out_env (fun _ => 0))
            (lit "orders.csv") (lit "March 3, 2024") 3500 2750 new_world)
     = Ok 750.
Proof.
  destruct (shipping_cost_inferred sample_order (lit "orders.csv")
              (lit "March 3, 2024") 3500 2750 new_world
              (signed_out_env_io_ok (fun _ => 0)) eq_refl)
    as [(w' & Hcalc & _) (w1 & w2 & Horder & Hship & _)].
  rewrite Horder, Hcalc. repeat split.
Defined.

(** ** Returned shipments *)

(** C9. When no call fails and the elements list their shipments and items,
    [processShipment] writes one row per item of the shipment.  The "Single Price" field (the fifth) is the parsed price of
    the item; the "Total Price" field (the sixth) is "0.00" when the status
    matches [returnedRegex] and the line total otherwise.  The shipment adds
    its line totals to the total paid after returns only when its status does
    not match, and [processOrder] sums these contributions. *)
Theorem returned_shipment_rows (env : Env) (shipEl orderEl : Element)
  (orderDate p : jsstring) (w : World) :
  io_ok env ->
  shipment_listed shipEl = true ->
  order_listed orderEl = true ->
  (exists w',
     processShipment env shipEl orderDate p w
     = (Ok (sumZ (List.map item_line (shipment_items shipEl)),
            if test returnedRegex (shipment_status shipEl) then 0
            else sumZ (List.map item_line (shipment_items shipEl))), w')
     /\ file_content w' p
        = file_content w p
            ++ List.concat (List.map csvRow (shipment_rows orderDate shipEl)))
  /\ List.length (shipment_rows orderDate shipEl)
     = List.length (shipment_items shipEl)
  /\ (forall i, (i < List.length (shipment_items shipEl))%nat ->
        exists itemEl row,
          nth_error (shipment_items shipEl) i = Some itemEl
          /\ nth_error (shipment_rows orderDate shipEl) i = Some row
          /\ List.length row = 7%nat
          /\ nth 4 row []
             = centsToUSD (usdToCents (Some (text_of itemEl ARTICLE_PRICE)))
          /\ nth 5 row []
             = if test returnedRegex (shipment_status shipEl) then lit "0.00"
               else centsToUSD (item_line itemEl))
  /\ (exists w',
        processOrder env orderEl p w
        = (Ok (order_paid_after_returns orderEl + order_shipping orderEl), w'))
  /\ order_paid_after_returns orderEl
     = sumZ (List.map
               (fun sh =>
                  if test returnedRegex (shipment_status sh) then 0
                  else sumZ (List.map item_line (shipment_items sh)))
               (order_shipments orderEl)).
Proof.
  intros Hio Hitems Hlist.
  split; [|split; [|split; [|split]]].
  - destruct (processShipment_ok Hio shipEl orderDate p w Hitems)
      as (w' & Hrun & Happ).
    exists w'. split; [exact Hrun|exact Happ].
  - unfold shipment_rows. apply length_map.
  - intros i Hi.
    destruct (nth_error (shipment_items shipEl) i) as [itemEl|] eqn:Hnth;
      [|apply nth_error_None in Hnth; lia].
    exists itemEl,
      (item_row orderDate (shipment_status shipEl)
         (shipment_is_return shipEl) itemEl).
    split; [reflexivity|].
    split; [unfold shipment_rows; now rewrite nth_error_map, Hnth|].
    split; [reflexivity|]. split; [reflexivity|].
    cbn. unfold shipment_is_return.
    now destruct (test returnedRegex (shipment_status shipEl)).
  - destruct (processOrder_ok Hio orderEl p w Hlist) as (w1 & w' & Hrun & _).
    exists w'. exact Hrun.
  - unfold order_paid_after_returns. apply sumZ_filter_returns.
Qed.

Lemma returned_shipment_rows_witness :
  List.map (fun row => (nth 4 row [], nth 5 row []))
    (order_item_rows sample_order)
  = [(lit "10.00", lit "20.00"); (lit "7.50", lit "0.00")]
  /\ fst (processOrder (signed_out_env (fun _ => 0)) sample_order
            (lit "orders.csv") new_world) = Ok (2000 + 750).
Proof.
  destruct (returned_shipment_rows
              (sample_shipment "Return complete" [sample_item "Gadget" "$7.50"])
              sample_order (lit "March 3, 2024") (lit "orders.csv") new_world
              (signed_out_env_io_ok (fun _ => 0)) eq_refl eq_refl)
    as (_ & _ & _ & (w' & Horder) & Hpaid).
  split; [reflexivity|]. rewrite Horder. cbn [fst]. rewrite Hpaid. reflexivity.
Defined.

(** ** The CSV file *)

Lemma doubled_replaceAll (s : jsstring) :
  doubled s (replaceAllClass (char_eqb 34) (dquote ++ dquote) s).
Proof.
  induction s as [|c s IH]; [constructor|].
  unfold replaceAllClass. cbn [flat_map].
  unfold char_eqb at 1. destruct (N.eqb_spec 34 c) as [<-|Hne].
  - cbn. now constructor.
  - cbn. constructor; [congruence|exact IH].
Qed.

Lemma csvField_quoted (s : jsstring) : quoted_field s (csvField s).
Proof.
  exists (replaceAllClass (char_eqb 34) (dquote ++ dquote) s).
  split; [apply doubled_replaceAll|].
  unfold csvField, chr. now rewrite replaceAll_class.
Qed.

Lemma join_fields (rowData : list jsstring) :
  rowData <> [] ->
  joined_fields rowData (join (lit ";") (List.map csvField rowData)).
Proof.
  induction rowData as [|s rowData IH]; [congruence|]. intros _.
  destruct rowData as [|s' rowData].
  - cbn. constructor. apply csvField_quoted.
  - change (join (lit ";") (List.map csvField (s :: s' :: rowData)))
      with (csvField s ++ 59%N
              :: join (lit ";") (List.map csvField (s' :: rowData))).
    constructor; [apply csvField_quoted|]. apply IH. discriminate.
Qed.

Lemma csvRow_line (rowData : list jsstring) :
  rowData <> [] -> csv_line (List.length rowData) (csvRow rowData).
Proof.
  intros H. exists rowData, (join (lit ";") (List.map csvField rowData)).
  split; [reflexivity|]. split; [now apply join_fields|reflexivity].
Qed.

Lemma rows_after_refl c0 : rows_after c0 c0.
Proof. exists []. split; [constructor|]. cbn. now rewrite app_nil_r. Qed.

Lemma rows_after_row c0 c rowData :
  List.length rowData = 7%nat ->
  rows_after c0 c -> rows_after c0 (c ++ csvRow rowData).
Proof.
  intros Hlen (rows & Hall & ->). exists (rows ++ [rowData]). split.
  - apply Forall_app. split; [exact Hall|]. now constructor.
  - rewrite map_app, concat_app. cbn. now rewrite app_nil_r, app_assoc.
Qed.

Lemma paths_differ (env : Env) : str_eqb (csvPath env) (cookiesPath env) = false.
Proof.
  destruct (str_eqb (csvPath env) (cookiesPath env)) eqn:E; [|reflexivity].
  apply str_eqb_eq in E. unfold cookiesPath, csvPath, path_resolve in E.
  apply app_inv_head in E. discriminate.
Qed.

Section Preservation.

Variable env : Env.
Variable I : World -> Prop.

Lemma preserves_ret A (a : A) : preserves I (ret a).
Proof. intros w H. exact H. Qed.

Lemma preserves_throw A e : preserves I (@throw A e).
Proof. intros w H. exact H. Qed.

Lemma preserves_out_of_fuel A : preserves I (@out_of_fuel A).
Proof. intros w H. exact H. Qed.

Lemma preserves_lift A (a : Answer A) : preserves I (lift a).
Proof. intros w H. exact H. Qed.

Lemma preserves_bind A B (m : M A) (f : A -> M B) :
  preserves I m -> (forall a, preserves I (f a)) -> preserves I (bind m f).
Proof.
  intros Hm Hf w Hw. unfold bind. specialize (Hm w Hw).
  destruct (m w) as [[a|e|] w1]; cbn in Hm |- *; try exact Hm.
  now apply Hf.
Qed.

Lemma preserves_try_catch A (m : M A) (h : jsstring -> M A) :
  preserves I m -> (forall e, preserves I (h e)) ->
  preserves I (try_catch m h).
Proof.
  intros Hm Hh w Hw. unfold try_catch. specialize (Hm w Hw).
  destruct (m w) as [[a|e|] w1]; cbn in Hm |- *; try exact Hm.
  now apply Hh.
Qed.

Lemma preserves_for_of A S (xs : list A) (body : S -> A -> M S) :
  (forall acc x, preserves I (body acc x)) ->
  forall acc, preserves I (for_of xs body acc).
Proof.
  intros Hbody. induction xs as [|x xs IH]; intros acc; cbn [for_of].
  - apply preserves_ret.
  - apply preserves_bind; [apply Hbody|exact IH].
Qed.

Lemma preserves_textOrEmpty el selector : preserves I (textOrEmpty el selector).
Proof. intros w H. now rewrite textOrEmpty_text_of. Qed.

(** Invariants that only look at the files are kept by the calls that do
    not write. *)
Hypothesis I_files : forall w w', files w' = files w -> I w -> I w'.

Lemma preserves_io_call : preserves I (io_call env).
Proof. intros w H. revert H. apply I_files. reflexivity. Qed.

Lemma preserves_page_query selector : preserves I (page_query env selector).
Proof. intros w H. revert H. apply I_files. reflexivity. Qed.

Lemma preserves_page_queryAll selector :
  preserves I (page_queryAll env selector).
Proof. intros w H. revert H. apply I_files. reflexivity. Qed.

Lemma preserves_page_url : preserves I (page_url env).
Proof. intros w H. revert H. apply I_files. reflexivity. Qed.

Lemma preserves_page_cookies : preserves I (page_cookies env).
Proof. intros w H. revert H. apply I_files. reflexivity. Qed.

Lemma preserves_date_now : preserves I (date_now env).
Proof. intros w H. revert H. apply I_files. reflexivity. Qed.

Lemma preserves_sleep ms : preserves I (sleep ms).
Proof. intros w H. revert H. apply I_files. reflexivity. Qed.

Lemma preserves_page_setCookie c : preserves I (page_setCookie env c).
Proof.
  intros w H. revert H. apply I_files. unfold page_setCookie.
  now destruct (e_io env (step w)).
Qed.

Lemma preserves_fs_existsSync p : preserves I (fs_existsSync p).
Proof. intros w H. exact H. Qed.

Lemma preserves_fs_readFile p : preserves I (fs_readFile env p).
Proof.
  intros w H. revert H. apply I_files. unfold fs_readFile.
  destruct (e_io env (step w)); [destruct (files w p)|]; reflexivity.
Qed.

Lemma preserves_waitUntil_loop checkFn start timeoutMs intervalMs :
  preserves I checkFn ->
  forall fuel,
    preserves I (waitUntil_loop env fuel checkFn start timeoutMs intervalMs).
Proof.
  intros Hcheck. induction fuel as [|fuel IH]; cbn [waitUntil_loop].
  - apply preserves_out_of_fuel.
  - apply preserves_bind.
    + unfold waitUntil_turn. apply preserves_bind.
      * apply preserves_try_catch; [exact Hcheck|].
        intros e. apply preserves_ret.
      * intros [|]; [apply preserves_ret|].
        apply preserves_bind; [apply preserves_date_now|]. intros now.
        destruct (Z.gtb _ _); [apply preserves_throw|].
        apply preserves_bind; [apply preserves_sleep|].
        intros _. apply preserves_ret.
    + intros [b|]; [apply preserves_ret|exact IH].
Qed.

Lemma preserves_signInCheck : preserves I (signInCheck env).
Proof.
  unfold signInCheck. apply preserves_bind; [apply preserves_page_query|].
  intros [el|]; [apply preserves_ret|].
  apply preserves_bind; [apply preserves_page_url|]. intros url.
  destruct (_ || _); apply preserves_ret.
Qed.

Lemma preserves_ensureSignedIn fuel saveCookiesFn :
  preserves I saveCookiesFn ->
  preserves I (ensureSignedInAndOnOrders env fuel saveCookiesFn).
Proof.
  intros Hsave. unfold ensureSignedInAndOnOrders.
  apply preserves_bind; [apply preserves_io_call|]. intros _.
  apply preserves_bind.
  - unfold waitUntil. apply preserves_bind; [apply preserves_date_now|].
    intros start. apply preserves_waitUntil_loop, preserves_signInCheck.
  - intros _. apply preserves_try_catch; [exact Hsave|].
    intros e. apply preserves_ret.
Qed.

Lemma preserves_loadCookies p : preserves I (loadCookies env p).
Proof.
  unfold loadCookies. apply preserves_try_catch; [|intros e; apply preserves_ret].
  apply preserves_bind; [apply preserves_fs_existsSync|]. intros there.
  destruct (negb there); [apply preserves_ret|].
  apply preserves_bind; [apply preserves_fs_readFile|]. intros text.
  apply preserves_bind; [apply preserves_lift|]. intros [cs|].
  - apply preserves_bind; [|intros _; apply preserves_ret].
    apply preserves_for_of. intros _ c. apply preserves_page_setCookie.
  - apply preserves_throw.
Qed.

End Preservation.

Section CsvFile.

Variable env : Env.
Variable p : jsstring.
Variable J : jsstring -> Prop.

Lemma file_sat_files w w' :
  files w' = files w -> file_sat p J w -> file_sat p J w'.
Proof. unfold file_sat, file_content. now intros ->. Qed.

Lemma begins_nil (s : jsstring) : begins [] s.
Proof. now exists s. Qed.

Lemma begins_firstn (k : nat) (s : jsstring) : begins (firstn k s) s.
Proof. exists (skipn k s). symmetry. apply firstn_skipn. Qed.

Lemma file_content_failed_other q data truncate written w :
  str_eqb p q = false ->
  file_content (fail_write q data truncate written w) p = file_content w p.
Proof.
  intros Hq. destruct written as [k|]; cbn [fail_write]; [|reflexivity].
  now apply file_content_other.
Qed.

Lemma preserves_writeFile_other q data :
  str_eqb p q = false -> preserves (file_sat p J) (fs_writeFile env q data).
Proof.
  intros Hq w H. unfold fs_writeFile.
  destruct (e_io env (step w)); cbn [snd]; unfold file_sat.
  - now rewrite file_content_other.
  - now rewrite file_content_failed_other.
Qed.

Lemma preserves_saveCookies q :
  str_eqb p q = false -> preserves (file_sat p J) (saveCookies env q).
Proof.
  intros Hq. unfold saveCookies. apply preserves_bind.
  - apply preserves_page_cookies, file_sat_files.
  - intros cs. now apply preserves_writeFile_other.
Qed.

End CsvFile.

(** ** Runs that may stop in the middle of a write *)

Lemma runs_preserves A (I F : World -> Prop) (m : M A) :
  preserves I m -> (forall w, I w -> F w) -> runs I I F m.
Proof.
  intros Hm HF w Hw. specialize (Hm w Hw).
  destruct (m w) as [[a|e|] w1]; cbn [snd] in Hm; auto.
Qed.

Lemma runs_ret A (P F : World -> Prop) (a : A) : runs P P F (ret a).
Proof. intros w Hw. exact Hw. Qed.

Lemma runs_bind A B (P Q R F : World -> Prop) (m : M A) (f : A -> M B) :
  runs P Q F m -> (forall a, runs Q R F (f a)) -> runs P R F (bind m f).
Proof.
  intros Hm Hf w Hw. specialize (Hm w Hw). unfold bind.
  destruct (m w) as [[a|e|] w1]; [now apply Hf|exact Hm|exact Hm].
Qed.

Lemma runs_for_of A S (P F : World -> Prop) (xs : list A)
  (body : S -> A -> M S) :
  (forall acc x, runs P P F (body acc x)) ->
  forall acc, runs P P F (for_of xs body acc).
Proof.
  intros Hbody. induction xs as [|x xs IH]; intros acc; cbn [for_of].
  - apply runs_ret.
  - eapply runs_bind; [apply Hbody|exact IH].
Qed.

Lemma runs_weaken A (P Q F F' : World -> Prop) (m : M A) :
  runs P Q F m -> (forall w, F w -> F' w) -> runs P Q F' m.
Proof.
  intros Hm HF w Hw. specialize (Hm w Hw).
  destruct (m w) as [[a|e|] w1]; auto.
Qed.

Lemma rows_after_partial c0 c : rows_after c0 c -> rows_then_partial c0 c.
Proof.
  intros (rows & Hall & ->). exists rows, (repeat [] 7), [].
  split; [exact Hall|]. split; [reflexivity|]. split; [apply begins_nil|].
  now rewrite app_nil_r.
Qed.

Section CsvRows.

Variable env : Env.
Variable p : jsstring.
Variable c0 : jsstring.

Let I := file_sat p (rows_after c0).
Let F := file_sat p (rows_then_partial c0).

Lemma runs_quiet A (m : M A) : preserves I m -> runs I I F m.
Proof.
  intros Hm. apply runs_preserves; [exact Hm|].
  intros w. apply rows_after_partial.
Qed.

Lemma runs_then A B (m : M A) (f : A -> M B) :
  runs I I F m -> (forall a, runs I I F (f a)) -> runs I I F (bind m f).
Proof. apply runs_bind. Qed.

Lemma runs_row rowData :
  List.length rowData = 7%nat -> runs I I F (writeCSVRow env p rowData).
Proof.
  intros Hlen w H. unfold writeCSVRow, fs_appendFile.
  destruct (e_io env (step w)).
  - unfold I, file_sat. rewrite file_content_written.
    now apply rows_after_row.
  - unfold F, file_sat.
    destruct (e_partial env (step w)) as [k|]; cbn [fail_write].
    + rewrite file_content_written. destruct H as (rows & Hall & ->).
      exists rows, rowData, (firstn k (csvRow rowData)).
      split; [exact Hall|]. split; [exact Hlen|].
      split; [apply begins_firstn|]. now rewrite app_assoc.
    + apply rows_after_partial. exact H.
Qed.

Lemma runs_processItem status isReturn orderDate totals itemEl :
  runs I I F (processItem env status isReturn orderDate p totals itemEl).
Proof.
  unfold processItem. destruct totals as [total paid].
  apply runs_then; [apply runs_quiet, preserves_textOrEmpty|]. intros name.
  destruct (detectQuantity _) as [count name'].
  apply runs_then; [apply runs_quiet, preserves_textOrEmpty|]. intros price.
  apply runs_then; [now apply runs_row|].
  intros _. apply runs_ret.
Qed.

Lemma runs_processShipment shipEl orderDate :
  runs I I F (processShipment env shipEl orderDate p).
Proof.
  unfold processShipment.
  apply runs_then; [apply runs_quiet, preserves_textOrEmpty|]. intros status.
  apply runs_then; [apply runs_quiet, preserves_lift|]. intros itemEls.
  apply runs_for_of. intros acc x. apply runs_processItem.
Qed.

Lemma runs_shippingCosts orderDate price total :
  runs I I F (calculateAndWriteShippingCosts env p orderDate price total).
Proof.
  unfold calculateAndWriteShippingCosts.
  apply runs_then; [|intros _; apply runs_ret].
  destruct (Z.gtb _ _); [now apply runs_row|apply runs_ret].
Qed.

Lemma runs_processOrder orderEl : runs I I F (processOrder env orderEl p).
Proof.
  unfold processOrder.
  apply runs_then; [apply runs_quiet, preserves_textOrEmpty|]. intros date.
  apply runs_then; [apply runs_quiet, preserves_textOrEmpty|]. intros price.
  apply runs_then; [apply runs_quiet, preserves_lift|]. intros shipmentEls.
  apply runs_then.
  - apply runs_for_of. intros acc sh.
    apply runs_then; [apply runs_processShipment|].
    intros r. apply runs_ret.
  - intros totals.
    apply runs_then; [apply runs_shippingCosts|].
    intros cost. apply runs_ret.
Qed.

Lemma runs_processYear_loop year q :
  str_eqb p q = false ->
  forall fuel articleOffset yearTotal,
    runs I I F (processYear_loop env fuel year p q articleOffset yearTotal).
Proof.
  intros Hq. induction fuel as [|fuel IH]; intros articleOffset yearTotal;
    cbn [processYear_loop].
  - apply runs_quiet, preserves_out_of_fuel.
  - apply runs_then; [apply runs_quiet, preserves_io_call, file_sat_files|].
    intros _.
    apply runs_then; [apply runs_quiet, preserves_page_query, file_sat_files|].
    intros hasOrders. apply runs_then.
    { apply runs_quiet. destruct hasOrders; [apply preserves_ret|].
      apply preserves_bind; [|intros _; apply preserves_io_call, file_sat_files].
      apply preserves_ensureSignedIn; [apply file_sat_files|].
      now apply preserves_saveCookies. }
    intros _. apply runs_then.
    { apply runs_quiet.
      apply preserves_try_catch; [apply preserves_io_call, file_sat_files|].
      intros e. apply preserves_ret. }
    intros _.
    apply runs_then;
      [apply runs_quiet, preserves_page_queryAll, file_sat_files|].
    intros orderEls. destruct (Nat.eqb _ _); [apply runs_ret|].
    apply runs_then.
    { apply runs_for_of. intros total orderEl.
      apply runs_then; [apply runs_processOrder|].
      intros t. apply runs_ret. }
    intros total. destruct (Nat.ltb _ _); [apply runs_ret|apply IH].
Qed.

End CsvRows.

Section MainCsv.

Variable env : Env.
Variable J : jsstring -> Prop.

Let I := file_sat (csvPath env) J.

Lemma preserves_main_setup : preserves I (main_setup env).
Proof.
  unfold main_setup.
  repeat (apply preserves_bind;
          [apply preserves_io_call, file_sat_files|intros _]).
  apply preserves_bind; [apply preserves_loadCookies, file_sat_files|].
  intros [|]; [apply preserves_io_call, file_sat_files|apply preserves_ret].
Qed.

Lemma preserves_sign_in fuel :
  preserves I
    (ensureSignedInAndOnOrders env fuel (saveCookies env (cookiesPath env))).
Proof.
  apply preserves_ensureSignedIn; [apply file_sat_files|].
  apply preserves_saveCookies, paths_differ.
Qed.

Lemma preserves_main_end :
  preserves I
    (try_catch (saveCookies env (cookiesPath env)) (fun _ => ret tt) ;;;
     io_call env).
Proof.
  apply preserves_bind; [|intros _; apply preserves_io_call, file_sat_files].
  apply preserves_try_catch; [|intros e; apply preserves_ret].
  apply preserves_saveCookies, paths_differ.
Qed.

End MainCsv.

Section MainRuns.

Variable env : Env.
Variable c0 : jsstring.

Let Before := file_sat (csvPath env) (fun c => c = c0).
Let Rows := file_sat (csvPath env) (rows_after csvHeader).
Let Stopped :=
  file_sat (csvPath env)
    (fun c => c = c0 \/ begins c csvHeader \/ rows_then_partial csvHeader c).

Lemma runs_main_scrape fuel years :
  runs Before Rows Stopped (main_scrape env fuel years).
Proof.
  unfold main_scrape. apply runs_bind with (Q := Rows).
  - intros w H. unfold fs_writeFile. destruct (e_io env (step w)).
    + unfold Rows, file_sat. rewrite file_content_written.
      apply rows_after_refl.
    + unfold Stopped, file_sat.
      destruct (e_partial env (step w)) as [k|]; cbn [fail_write].
      * rewrite file_content_written. right. left. apply begins_firstn.
      * left. exact H.
  - intros _.
    apply runs_weaken
      with (F := file_sat (csvPath env) (rows_then_partial csvHeader));
      [|intros w H; right; right; exact H].
    apply runs_for_of. intros total year.
    eapply runs_bind; [|intros t; apply runs_ret].
    apply runs_processYear_loop, paths_differ.
Qed.

Lemma runs_main fuel : runs Before Rows Stopped (main env fuel).
Proof.
  unfold main.
  apply runs_bind with (Q := Before).
  { apply runs_preserves; [apply preserves_main_setup|].
    intros w H. left. exact H. }
  intros _. apply runs_bind with (Q := Before).
  { apply runs_preserves; [apply preserves_sign_in|].
    intros w H. left. exact H. }
  intros _. apply runs_bind with (Q := Rows); [apply runs_main_scrape|].
  intros _. apply runs_preserves; [apply preserves_main_end|].
  intros w H. right. right. apply rows_after_partial. exact H.
Qed.

End MainRuns.

(** C4. The header is a line of 7 quoted fields, and so is the line that
    [writeCSVRow] makes of a row of 7 values: every field stands between
    double quotes with its own double quotes doubled, the fields are joined
    by [;] and the line ends with a newline.  When the append is fulfilled,
    [writeCSVRow] returns and the file is what it held followed by that
    line; when it is rejected, [writeCSVRow] throws and the file is what it
    held followed by a beginning of the line (nothing, when the file was not
    opened).  [processOrder], when it returns, has added whole lines of rows
    of 7 values after what the file held; when it stops, it has added such
    lines and a beginning of one more.  When [main] runs to its end, the CSV
    file is the header followed by rows of 7 values, each a line of that
    format, and nothing else.  When [main] stops early, the file is what it
    was before the run, or a beginning of the header, or the header, whole
    lines and a beginning of one more line.  No step takes away or changes
    what an earlier append has written. *)
Theorem csv_lines_format (env : Env) (fuel : nat) (orderEl : Element)
  (p : jsstring) (rowData : list jsstring) (w : World) :
  csv_line 7 csvHeader
  /\ (List.length rowData = 7%nat -> csv_line 7 (csvRow rowData))
  /\ match e_io env (step w), writeCSVRow env p rowData w with
     | Fulfilled _, (r, w') =>
         r = Ok tt /\ file_content w' p = file_content w p ++ csvRow rowData
     | Rejected e, (r, w') =>
         r = Throw e
         /\ exists part,
              begins part (csvRow rowData)
              /\ file_content w' p = file_content w p ++ part
     end
  /\ match processOrder env orderEl p w with
     | (Ok _, w') =>
         exists rows,
           Forall (fun row => List.length row = 7%nat) rows
           /\ file_content w' p
              = file_content w p ++ List.concat (List.map csvRow rows)
     | (_, w') =>
         exists rows row part,
           Forall (fun r => List.length r = 7%nat) rows
           /\ List.length row = 7%nat
           /\ begins part (csvRow row)
           /\ file_content w' p
              = file_content w p ++ List.concat (List.map csvRow rows) ++ part
     end
  /\ match main env fuel w with
     | (Ok _, w') =>
         exists rows,
           Forall (fun row => List.length row = 7%nat) rows
           /\ Forall (csv_line 7) (csvHeader :: List.map csvRow rows)
           /\ file_content w' (csvPath env)
              = csvHeader ++ List.concat (List.map csvRow rows)
     | (_, w') =>
         file_content w' (csvPath env) = file_content w (csvPath env)
         \/ begins (file_content w' (csvPath env)) csvHeader
         \/ exists rows row part,
              Forall (fun r => List.length r = 7%nat) rows
              /\ List.length row = 7%nat
              /\ begins part (csvRow row)
              /\ file_content w' (csvPath env)
                 = csvHeader ++ List.concat (List.map csvRow rows) ++ part
     end.
Proof.
  assert (Hrow : forall row, List.length row = 7%nat -> csv_line 7 (csvRow row)).
  { intros row Hlen. rewrite <- Hlen. apply csvRow_line.
    destruct row; [discriminate|discriminate]. }
  assert (Hhead : csv_line 7 csvHeader).
  { change csvHeader
      with (csvRow [lit "Date"; lit "Shipment Status"; lit "Article Count";
                    lit "Article Name"; lit "Single Price";
                    lit "Total Price"; lit "Tags"]).
    now apply Hrow. }
  split; [exact Hhead|]. split; [apply Hrow|]. split; [|split].
  - unfold writeCSVRow, fs_appendFile.
    destruct (e_io env (step w)) as [u|e].
    + split; [reflexivity|apply file_content_written].
    + split; [reflexivity|].
      destruct (e_partial env (step w)) as [k|]; cbn [fail_write].
      * exists (firstn k (csvRow rowData)).
        split; [apply begins_firstn|apply file_content_written].
      * exists []. split; [apply begins_nil|].
        rewrite app_nil_r. reflexivity.
  - pose proof (@runs_processOrder env p (file_content w p) orderEl w
                  (rows_after_refl _)) as H.
    destruct (processOrder env orderEl p w) as [[t|e|] w']; exact H.
  - pose proof (@runs_main env (file_content w (csvPath env)) fuel w eq_refl)
      as H.
    destruct (main env fuel w) as [[[]|e|] w']; [|exact H|exact H].
    destruct H as (rows & Hall & H). exists rows.
    split; [exact Hall|]. split; [|exact H].
    constructor; [exact Hhead|].
    apply Forall_map. revert Hall. apply Forall_impl. exact Hrow.
Qed.

(** ** Code units *)

Lemma is_digit_range (c : char) : is_digit c = true <-> (48 <= c <= 57)%N.
Proof.
  unfold is_digit. rewrite andb_true_iff, !N.leb_le. reflexivity.
Qed.

Lemma digit_not_space (c : char) : is_digit c = true -> is_space c = false.
Proof.
  intros H. apply is_digit_range in H. unfold is_space. bool_false.
Qed.

Lemma digit_not (c d : char) :
  is_digit c = true -> is_digit d = false -> char_eqb c d = false.
Proof.
  intros Hc Hd. unfold char_eqb. apply N.eqb_neq. intros ->. congruence.
Qed.

Lemma space_not_digit (c : char) : is_space c = true -> is_digit c = false.
Proof.
  intros H. destruct (is_digit c) eqn:E; [|reflexivity].
  apply digit_not_space in E. congruence.
Qed.

Lemma digits_not_space (ds : jsstring) :
  forallb is_digit ds = true ->
  forallb (fun c => negb (is_space c)) ds = true.
Proof.
  induction ds as [|c ds IH]; [reflexivity|]. cbn.
  intros H. apply andb_prop in H as [Hc Hds].
  now rewrite (digit_not_space _ Hc), IH.
Qed.

(** ** Decimal notation *)

Local Open Scope Z_scope.

Lemma digits_val_snoc (ds : jsstring) (c : char) :
  digits_val (ds ++ [c]) = digits_val ds * 10 + digit_val c.
Proof. unfold digits_val. now rewrite fold_left_app. Qed.

Lemma digit_char_digit (d : Z) :
  0 <= d <= 9 -> is_digit (digit_char d) = true /\ digit_val (digit_char d) = d.
Proof.
  intros H. unfold digit_char, digit_val. split.
  - apply is_digit_range. lia.
  - lia.
Qed.

Lemma digit_val_range (c : char) : is_digit c = true -> 0 <= digit_val c <= 9.
Proof. intros H. apply is_digit_range in H. unfold digit_val. lia. Qed.

Lemma digits_val_nonneg (ds : jsstring) :
  forallb is_digit ds = true -> 0 <= digits_val ds.
Proof.
  induction ds as [|c ds IH] using rev_ind; [cbn; lia|].
  rewrite forallb_app, digits_val_snoc. cbn. rewrite andb_true_r.
  intros H. apply andb_prop in H as [Hds Hc].
  pose proof (digit_val_range _ Hc). specialize (IH Hds). lia.
Qed.

Lemma to_digits_aux_spec (fuel : nat) :
  forall n acc,
    0 <= n < 10 ^ (Z.of_nat fuel + 1) ->
    exists ds,
      to_digits_aux fuel n acc = ds ++ acc
      /\ ds <> [] /\ forallb is_digit ds = true /\ digits_val ds = n.
Proof.
  induction fuel as [|fuel IH]; intros n acc Hn.
  - change (10 ^ (Z.of_nat 0 + 1)) with 10 in Hn.
    exists [digit_char n]. cbn [to_digits_aux].
    rewrite Z.mod_small by lia.
    destruct (digit_char_digit (d:=n)) as [Hd Hv]; [lia|].
    cbn. rewrite Hd. repeat split; [discriminate|].
    unfold digits_val. cbn. lia.
  - cbn [to_digits_aux]. destruct (Z.ltb_spec n 10) as [Hlt|Hge].
    + exists [digit_char n].
      destruct (digit_char_digit (d:=n)) as [Hd Hv]; [lia|].
      cbn. rewrite Hd. repeat split; [discriminate|].
      unfold digits_val. cbn. lia.
    + assert (Hpow : 10 ^ (Z.of_nat (S fuel) + 1)
                     = 10 * 10 ^ (Z.of_nat fuel + 1)).
      { rewrite <- Z.pow_succ_r by lia. f_equal. lia. }
      destruct (IH (n / 10) (digit_char (n mod 10) :: acc))
        as (ds & Hds & Hne & Hall & Hval).
      { split; [apply Z.div_pos; lia|].
        apply Z.div_lt_upper_bound; lia. }
      exists (ds ++ [digit_char (n mod 10)]).
      destruct (digit_char_digit (d:=n mod 10)) as [Hd Hv];
        [pose proof (Z.mod_pos_bound n 10); lia|].
      rewrite Hds, <- app_assoc. split; [reflexivity|].
      split; [now destruct ds|].
      split; [rewrite forallb_app, Hall; cbn; now rewrite Hd|].
      rewrite digits_val_snoc, Hval, Hv.
      pose proof (Z.div_mod n 10). lia.
Qed.

Lemma to_digits_spec (n : Z) :
  0 <= n ->
  to_digits n <> [] /\ forallb is_digit (to_digits n) = true
  /\ digits_val (to_digits n) = n.
Proof.
  intros Hn. unfold to_digits.
  destruct (to_digits_aux_spec (Z.to_nat (Z.log2 n)) (n:=n) [])
    as (ds & Hds & Hne & Hall & Hval).
  - split; [exact Hn|].
    destruct (Z.eq_dec n 0) as [->|Hpos]; [cbn; lia|].
    rewrite Z2Nat.id by apply Z.log2_nonneg.
    pose proof (Z.log2_spec n ltac:(lia)) as [_ Hlog].
    eapply Z.lt_le_trans; [exact Hlog|].
    replace (Z.succ (Z.log2 n)) with (Z.log2 n + 1) by lia.
    apply Z.pow_le_mono_l. pose proof (Z.log2_nonneg n). lia.
  - rewrite app_nil_r in Hds. rewrite Hds. auto.
Qed.

Lemma takeWhile_all (p : char -> bool) (s : jsstring) :
  forallb p s = true -> takeWhile p s = s.
Proof.
  intros H. rewrite <- (app_nil_r s) at 1.
  rewrite takeWhile_run; auto.
Qed.

Lemma parseInt10_digits (ds : jsstring) :
  ds <> [] -> forallb is_digit ds = true ->
  parseInt10 ds = Some (digits_val ds).
Proof.
  intros Hne Hall. destruct ds as [|c ds]; [congruence|].
  cbn in Hall. apply andb_prop in Hall as [Hc Hds].
  apply is_digit_range in Hc.
  assert (Hcases : (c = 48 \/ c = 49 \/ c = 50 \/ c = 51 \/ c = 52 \/ c = 53
                    \/ c = 54 \/ c = 55 \/ c = 56 \/ c = 57)%N) by lia.
  unfold parseInt10.
  repeat destruct Hcases as [->|Hcases]; try subst c;
    cbn -[digits_val Z.mul]; rewrite (takeWhile_all _ _ Hds);
    now rewrite Z.mul_1_l.
Qed.

Lemma num_or_zero (v : Z) : num_or (Some v) 0 = v.
Proof. unfold num_or. destruct (Z.eqb_spec v 0); congruence. Qed.

(** ** Printing an amount of cents

    Up to [100 * 2^46] cents, the double that [cents / 100] gives is so near
    to the quotient that [toFixed(2)] prints the amount itself. *)

Lemma round_nearest_even_close (n d : Z) :
  0 < d -> 2 * Z.abs (d * round_nearest_even n d - n) <= d.
Proof.
  intros Hd. unfold round_nearest_even.
  pose proof (Z.div_mod n d ltac:(lia)) as Hn.
  pose proof (Z.mod_pos_bound n d Hd) as Hr.
  destruct (Z.ltb_spec (2 * (n mod d)) d); [lia|].
  destruct (Z.ltb_spec d (2 * (n mod d))); [lia|].
  destruct (Z.even (n / d)); lia.
Qed.

Lemma binary_exponent_cents (a : Z) :
  0 < a < 100 * 2 ^ 46 -> binary_exponent a 100 <= - 7.
Proof.
  intros Ha. unfold binary_exponent.
  change (Z.log2 100) with 6.
  assert (Hlog : Z.log2 a < 53)
    by (apply Z.log2_lt_pow2; [lia|]; change (2 ^ 53) with (128 * 2 ^ 46);
        lia).
  destruct (Z.leb_spec 0 (Z.log2 a - 6)) as [Hd|Hd].
  - destruct (Z.leb_spec (100 * 2 ^ (Z.log2 a - 6)) a) as [Hreach|_]; [|lia].
    assert (2 ^ (Z.log2 a - 6) < 2 ^ 46) by lia.
    assert (Z.log2 a - 6 < 46)
      by (apply (Z.pow_lt_mono_r_iff 2); lia).
    lia.
  - destruct (Z.leb 100 (a * 2 ^ (- (Z.log2 a - 6)))); lia.
Qed.

Lemma toFixed2_exact (a : Z) :
  0 <= a <= 100 * 2 ^ 46 -> toFixed2_int (double_div a 100) = a.
Proof.
  intros Ha.
  destruct (Z.eq_dec a 0) as [->|Hpos]; [reflexivity|].
  destruct (Z.eq_dec a (100 * 2 ^ 46)) as [->|Htop];
    [vm_compute; reflexivity|].
  unfold double_div. replace (Z.eqb a 0) with false
    by (symmetry; now apply Z.eqb_neq).
  pose proof (@binary_exponent_cents a ltac:(lia)) as He.
  set (e := binary_exponent a 100) in *.
  replace (Z.leb 0 e) with false by (symmetry; apply Z.leb_gt; lia).
  unfold toFixed2_int.
  replace (Z.leb 0 e) with false by (symmetry; apply Z.leb_gt; lia).
  assert (HP : 128 <= 2 ^ (- e)).
  { change 128 with (2 ^ 7). apply Z.pow_le_mono_r; lia. }
  set (P := 2 ^ (- e)) in *.
  pose proof (@round_nearest_even_close (a * P) 100 ltac:(lia)) as Hm.
  set (m := round_nearest_even (a * P) 100) in *.
  symmetry. apply Z.div_unique with (r := 200 * m + P - 2 * (a * P)); lia.
Qed.

Lemma centsToUSD_exact (c : Z) :
  Z.abs c <= 100 * 2 ^ 46 ->
  centsToUSD c
  = (if Z.ltb c 0 then lit "-" else [])
      ++ to_digits (Z.abs c / 100) ++ lit "."
      ++ [digit_char (Z.abs c mod 100 / 10); digit_char (Z.abs c mod 10)].
Proof.
  intros Hc. unfold centsToUSD.
  now rewrite toFixed2_exact by lia.
Qed.

(** ** White space *)

Local Open Scope nat_scope.

Section Runs.

Variable p : char -> bool.
Variable repl : jsstring.

Lemma replaceAllRuns_aux_before (u : jsstring) :
  forall b c t,
    p c = false ->
    replaceAllRuns_aux p repl b (u ++ c :: t)
    = replaceAllRuns_aux p repl b u ++ c :: replaceAllRuns_aux p repl false t.
Proof.
  induction u as [|a u IH]; intros b c t Hc; cbn.
  - now rewrite Hc.
  - destruct (p a); rewrite IH by exact Hc.
    + now rewrite app_assoc.
    + reflexivity.
Qed.

Lemma replaceAllRuns_aux_clean (u v : jsstring) :
  forallb (fun c => negb (p c)) u = true ->
  replaceAllRuns_aux p repl false (u ++ v)
  = u ++ replaceAllRuns_aux p repl false v.
Proof.
  induction u as [|a u IH]; intros H; [reflexivity|].
  cbn in H |- *. apply andb_prop in H as [Ha Hu].
  destruct (p a); [discriminate|]. now rewrite IH.
Qed.

Lemma replaceAllRuns_aux_forallb (q : char -> bool) (u : jsstring) :
  forallb q repl = true ->
  forall b, forallb q u = true ->
            forallb q (replaceAllRuns_aux p repl b u) = true.
Proof.
  intros Hrepl. induction u as [|a u IH]; intros b H; [reflexivity|].
  cbn in H |- *. apply andb_prop in H as [Ha Hu].
  destruct (p a).
  - rewrite forallb_app, IH by exact Hu.
    destruct b; [reflexivity|now rewrite Hrepl].
  - cbn. now rewrite Ha, IH.
Qed.

End Runs.

Lemma trimStart_before (P : jsstring) (c : char) (t : jsstring) :
  is_space c = false -> trimStart (P ++ c :: t) = trimStart P ++ c :: t.
Proof.
  intros Hc. induction P as [|a P IH]; cbn.
  - now rewrite Hc.
  - destruct (is_space a); [exact IH|reflexivity].
Qed.

Lemma trimStart_forallb (q : char -> bool) (P : jsstring) :
  forallb q P = true -> forallb q (trimStart P) = true.
Proof.
  induction P as [|a P IH]; intros H; [reflexivity|].
  cbn [trimStart]. destruct (is_space a); [|exact H].
  cbn in H. apply andb_prop in H as [_ H]. now apply IH.
Qed.

Lemma trimEnd_after (R : jsstring) (c : char) (Q : jsstring) :
  is_space c = false -> trimEnd (R ++ c :: Q) = R ++ c :: trimEnd Q.
Proof.
  intros Hc. unfold trimEnd.
  replace (R ++ c :: Q) with ((R ++ [c]) ++ Q) by now rewrite <- app_assoc.
  rewrite rev_app_distr, rev_app_distr. cbn [rev app].
  rewrite trimStart_before by exact Hc.
  rewrite rev_app_distr. cbn [rev]. rewrite rev_involutive.
  rewrite <- app_assoc. reflexivity.
Qed.

(** The white space normalisation of [usdToCents] leaves an amount without
    white space in place, and puts nothing but what stood before it, or
    spaces, in front of it. *)
Lemma normalize_around (q : char -> bool) (pre amt post : jsstring) :
  amt <> [] ->
  forallb (fun c => negb (is_space c)) amt = true ->
  q 32%N = true ->
  forallb q pre = true ->
  exists P Q,
    trim (replaceAllRuns is_space (lit " ") (pre ++ amt ++ post))
    = P ++ amt ++ Q
    /\ forallb q P = true.
Proof.
  intros Hne Hamt Hq Hpre.
  destruct amt as [|a amt']; [congruence|].
  pose proof Hamt as Ha. cbn in Ha. apply andb_prop in Ha as [Ha Hamt'].
  apply negb_true_iff in Ha.
  destruct (exists_last Hne) as (amt0 & z & Hlast).
  assert (Hz : is_space z = false).
  { rewrite Hlast, forallb_app in Hamt. apply andb_prop in Hamt as [_ Hz].
    cbn in Hz. rewrite andb_true_r in Hz. now apply negb_true_iff. }
  exists (trimStart (replaceAllRuns_aux is_space (lit " ") false pre)),
    (trimEnd (replaceAllRuns_aux is_space (lit " ") false post)).
  split.
  - unfold replaceAllRuns, trim. cbn [app].
    rewrite replaceAllRuns_aux_before by exact Ha.
    rewrite replaceAllRuns_aux_clean by exact Hamt'.
    rewrite trimStart_before by exact Ha.
    change (a :: amt' ++ ?x) with ((a :: amt') ++ x).
    rewrite Hlast, <- !app_assoc. cbn [app].
    rewrite app_assoc. rewrite trimEnd_after by exact Hz.
    now rewrite <- app_assoc.
  - apply trimStart_forallb, replaceAllRuns_aux_forallb; [|exact Hpre].
    cbn. now rewrite Hq.
Qed.

(** ** The currency pattern *)

Lemma takeWhile_covers (p : char -> bool) (run tl : jsstring) :
  forallb p run = true ->
  List.length run <= List.length (takeWhile p (run ++ tl)).
Proof.
  induction run as [|c run IH]; intros H; cbn in *; [lia|].
  apply andb_prop in H as [Hc Hrun]. rewrite Hc. cbn. specialize (IH Hrun). lia.
Qed.

(** A class quantified [{m,m}] reads exactly [m] code units of the class. *)
Lemma matches_rep_exact p m x run tl :
  rest x = run ++ tl -> forallb p run = true -> List.length run = m ->
  matches (Rep (Class p) m (Some m)) x = [skip m x].
Proof.
  intros Hrest Hrun Hlen.
  rewrite matches_rep_class by (intros k [= <-]; lia).
  rewrite Hrest.
  pose proof (takeWhile_covers p run tl Hrun) as Hcov.
  rewrite Nat.min_l by lia.
  now rewrite countdown_same.
Qed.

Lemma matches_class_fail p x :
  match rest x with [] => True | c :: _ => p c = false end ->
  matches (Class p) x = [].
Proof.
  intros H. cbn [matches]. destruct (rest x); [reflexivity|]. now rewrite H.
Qed.

Lemma comma_group_fail x :
  match rest x with [] => True | c :: _ => char_eqb 44 c = false end ->
  matches commaGroup x = [].
Proof.
  intros H. unfold commaGroup, chr. cbn [matches].
  change (match rest x with
          | [] => []
          | c :: t => if char_eqb 44 c then [advance x t] else []
          end) with (matches (Class (char_eqb 44)) x).
  now rewrite matches_class_fail.
Qed.

Lemma comma_group_step x g more :
  rest x = 44%N :: g ++ more ->
  List.length g = 3 -> forallb is_digit g = true ->
  exists y, matches commaGroup x = [y]
            /\ endIndex y = endIndex x + 4 /\ rest y = more.
Proof.
  intros Hrest Hlen Hg.
  exists (set_capture 2 x (skip 3 (advance x (g ++ more)))).
  split.
  - unfold commaGroup, chr. cbn [matches]. rewrite Hrest. cbn [char_eqb N.eqb].
    rewrite Pos.eqb_refl. cbn [flat_map].
    change (repeat_matcher _ _ _ _ _ _)
      with (matches (Rep (Class is_digit) 3 (Some 3)) (advance x (g ++ more))).
    rewrite (@matches_rep_exact is_digit 3 _ g more); auto.
  - cbn. split; [lia|].
    destruct g as [|a [|b [|c [|]]]]; try discriminate. reflexivity.
Qed.

(** [(,\d{3})*] in front of something that is not a comma stays where it
    is. *)
Lemma star_comma_stop x :
  match rest x with [] => True | c :: _ => char_eqb 44 c = false end ->
  matches (star commaGroup) x = [x].
Proof.
  intros H. unfold star. cbn [matches].
  rewrite Nat.add_0_r, Nat.add_1_r. cbn [repeat_matcher].
  rewrite comma_group_fail; [reflexivity|]. exact H.
Qed.

(** [(,\d{3})*] reads, first, all the groups in front of it. *)
Lemma comma_groups_repeat (gs : list jsstring) :
  forall fuel x tl,
    List.length gs < fuel ->
    Forall (fun g => List.length g = 3 /\ forallb is_digit g = true) gs ->
    rest x = flat_map (fun g => 44%N :: g) gs ++ tl ->
    match tl with [] => True | c :: _ => char_eqb 44 c = false end ->
    exists y others,
      repeat_matcher (matches commaGroup) (clear_captures (groups commaGroup))
        fuel 0 None x = y :: others
      /\ endIndex y
         = endIndex x + List.length (flat_map (fun g => 44%N :: g) gs)
      /\ rest y = tl.
Proof.
  induction gs as [|g gs IH]; intros fuel x tl Hfuel Hgs Hrest Htl;
    (destruct fuel as [|fuel]; [cbn in Hfuel; lia|]); cbn [repeat_matcher].
  - cbn in Hrest. rewrite comma_group_fail.
    + exists x, []. cbn. rewrite Nat.add_0_r. auto.
    + cbn [clear_captures rest]. now rewrite Hrest.
  - inversion Hgs as [|g' gs' [Hlen Hg] Hgs']; subst.
    cbn [flat_map] in Hrest. rewrite <- !app_assoc in Hrest. cbn [app] in Hrest.
    destruct (@comma_group_step (clear_captures (groups commaGroup) x) g
                (flat_map (fun g => 44%N :: g) gs ++ tl))
      as (y1 & Hy1 & Hi1 & Hr1); auto.
    rewrite Hy1. cbn [flat_map Nat.eqb andb].
    cbn [clear_captures endIndex] in Hi1.
    replace (Nat.eqb (endIndex y1) (endIndex x)) with false
      by (symmetry; apply Nat.eqb_neq; lia).
    destruct (IH fuel y1 tl) as (y & others & Hrun & Hi & Hr); auto.
    { cbn in Hfuel. lia. }
    cbn [Nat.pred option_map]. rewrite Hrun.
    exists y. eexists. split; [reflexivity|]. split; [|exact Hr].
    rewrite Hi, Hi1. cbn [flat_map]. rewrite length_app. cbn [List.length].
    lia.
Qed.

Lemma lands_comma_groups (gs : list jsstring) x tl :
  Forall (fun g => List.length g = 3 /\ forallb is_digit g = true) gs ->
  rest x = flat_map (fun g => 44%N :: g) gs ++ tl ->
  match tl with [] => True | c :: _ => char_eqb 44 c = false end ->
  lands (star commaGroup) x (List.length (flat_map (fun g => 44%N :: g) gs)).
Proof.
  intros Hgs Hrest Htl.
  destruct (@comma_groups_repeat gs (List.length (rest x) + 0 + 1) x tl)
    as (y & others & Hrun & Hi & Hr); auto.
  { rewrite Hrest, length_app.
    assert (List.length gs
            <= List.length (flat_map (fun g => 44%N :: g) gs)).
    { clear. induction gs as [|g gs IH]; cbn; [lia|].
      rewrite length_app. lia. }
    lia. }
  exists y. split; [exists others; exact Hrun|]. split; [exact Hi|].
  rewrite Hr, Hrest, skipn_app, skipn_all, Nat.sub_diag. reflexivity.
Qed.

(** [\.\d{2}] reads a point and two digits. *)
Lemma lands_fraction x c1 c2 tl :
  rest x = 46%N :: c1 :: c2 :: tl ->
  is_digit c1 = true -> is_digit c2 = true ->
  lands fraction x 3.
Proof.
  intros Hrest H1 H2. unfold fraction.
  change 3 with (1 + 2). apply lands_seq.
  - now apply lands_class with 46%N (c1 :: c2 :: tl).
  - intros y Hi Hr. rewrite Hrest in Hr. cbn in Hr.
    exists (skip 2 y). split; [|split; reflexivity].
    exists []. apply (@matches_rep_exact is_digit 2 y [c1; c2] tl); auto.
    cbn. now rewrite H1, H2.
Qed.

Lemma fraction_fail x :
  match rest x with [] => True | c :: _ => char_eqb 46 c = false end ->
  matches fraction x = [].
Proof.
  intros H. unfold fraction, chr. cbn [matches].
  change (match rest x with
          | [] => []
          | c :: t => if char_eqb 46 c then [advance x t] else []
          end) with (matches (Class (char_eqb 46)) x).
  now rewrite matches_class_fail.
Qed.

Lemma skipn_in_run (p : char -> bool) (run tl : jsstring) :
  forallb p run = true ->
  forall k, k < List.length run ->
            exists d t, skipn k (run ++ tl) = d :: t /\ p d = true.
Proof.
  induction run as [|c run IH]; intros Hrun k Hk; cbn in *; [lia|].
  apply andb_prop in Hrun as [Hc Hrun].
  destruct k as [|k]; cbn; [eauto|]. apply IH; [exact Hrun|lia].
Qed.

Lemma char_eqb_digit (c d : char) :
  is_digit c = false -> is_digit d = true -> char_eqb c d = false.
Proof.
  intros Hc Hd. unfold char_eqb. apply N.eqb_neq. intros ->. congruence.
Qed.

(** The amount with groups of thousands: the first alternative reads it. *)
Lemma lands_body_grouped x g0 gs c1 c2 tl :
  rest x = g0 ++ flat_map (fun g => 44%N :: g) gs ++ 46%N :: c1 :: c2 :: tl ->
  g0 <> [] -> List.length g0 <= 3 -> forallb is_digit g0 = true ->
  Forall (fun g => List.length g = 3 /\ forallb is_digit g = true) gs ->
  is_digit c1 = true -> is_digit c2 = true ->
  lands currencyBody x
    (List.length g0 + List.length (flat_map (fun g => 44%N :: g) gs) + 3).
Proof.
  intros Hrest Hne Hlen Hg0 Hgs H1 H2. unfold currencyBody.
  apply lands_seq.
  - apply lands_group, lands_alt_l. unfold groupedDigits. apply lands_seq.
    + eapply lands_rep_class; [exact Hrest|exact Hg0| | | |].
      * destruct gs; reflexivity.
      * intros m [= <-]. lia.
      * rewrite Nat.min_r by exact Hlen. reflexivity.
      * destruct g0; [congruence|cbn; lia].
    + intros y Hi Hr. eapply lands_comma_groups; [exact Hgs| |].
      * rewrite Hr, Hrest, skipn_app, skipn_all, Nat.sub_diag. reflexivity.
      * reflexivity.
  - intros y Hi Hr. apply lands_fraction with c1 c2 tl; auto.
    rewrite Hr, Hrest, app_assoc, skipn_app, skipn_all2, length_app,
      Nat.sub_diag by (rewrite length_app; lia).
    reflexivity.
Qed.

(** The amount without groups, of four digits or more: the first
    alternative fails after three, two and one digit, the second one reads
    it. *)
Lemma lands_body_plain x ds c1 c2 tl :
  rest x = ds ++ 46%N :: c1 :: c2 :: tl ->
  forallb is_digit ds = true -> 4 <= List.length ds ->
  is_digit c1 = true -> is_digit c2 = true ->
  lands currencyBody x (List.length ds + 3).
Proof.
  intros Hrest Hds Hlen H1 H2.
  assert (Htw : takeWhile is_digit (rest x) = ds).
  { rewrite Hrest. now apply takeWhile_run. }
  assert (Hstop : forall k, k < List.length ds ->
            matches fraction
              (set_capture 1 x (skip k x)) = []
            /\ matches (star commaGroup) (skip k x) = [skip k x]).
  { intros k Hk.
    destruct (skipn_in_run is_digit ds (46%N :: c1 :: c2 :: tl) Hds Hk)
      as (d & t & Hsk & Hd).
    split.
    - apply fraction_fail. cbn [set_capture skip rest].
      rewrite Hrest, Hsk. now apply char_eqb_digit.
    - apply star_comma_stop. cbn [skip rest].
      rewrite Hrest, Hsk. now apply char_eqb_digit. }
  destruct (@lands_fraction (set_capture 1 x (skip (List.length ds) x))
              c1 c2 tl) as (z & [others Hz] & Hiz & Hrz); auto.
  { cbn [set_capture skip rest].
    rewrite Hrest, skipn_app, skipn_all, Nat.sub_diag. reflexivity. }
  destruct (Hstop 3 ltac:(lia)) as [Hf3 Hs3].
  destruct (Hstop 2 ltac:(lia)) as [Hf2 Hs2].
  destruct (Hstop 1 ltac:(lia)) as [Hf1 Hs1].
  exists z. split.
  - unfold first, currencyBody, groupedDigits, plus. cbn [matches].
    change (repeat_matcher (matches digit) (clear_captures (groups digit))
              (List.length (rest x) + 1 + 1) 1 (Some 3) x)
      with (matches (Rep (Class is_digit) 1 (Some 3)) x).
    change (repeat_matcher (matches digit) (clear_captures (groups digit))
              (List.length (rest x) + 1 + 1) 1 None x)
      with (matches (Rep (Class is_digit) 1 None) x).
    rewrite !matches_rep_class by (try discriminate; intros m [= <-]; lia).
    rewrite Htw, Nat.min_l by lia.
    change (countdown 3 1) with [3; 2; 1].
    destruct (@countdown_head (List.length ds) 1 ltac:(lia)) as [l ->].
    cbn [List.map flat_map].
    change (repeat_matcher (matches commaGroup)
              (clear_captures (groups commaGroup))
              (List.length (rest (skip ?k x)) + 0 + 1) 0 None (skip ?k x))
      with (matches (star commaGroup) (skip k x)).
    rewrite Hs3, Hs2, Hs1.
    cbn [app List.map flat_map].
    change (flat_map ?f (matches (Class (char_eqb 46)) ?y))
      with (matches fraction y).
    rewrite Hf3, Hf2, Hf1.
    rewrite Hz. cbn [app]. eexists. reflexivity.
  - cbn [set_capture skip rest endIndex] in Hiz, Hrz.
    split; [lia|]. rewrite Hrz, skipn_skipn. f_equal. lia.
Qed.

(** *** The words of the currency pattern *)

Lemma lang_rep_class_all (r : regex) (w : jsstring) :
  lang r w ->
  forall p min max, r = Rep (Class p) min max -> forallb p w = true.
Proof.
  induction 1 as [|q c Hc|a b u v Hu IHu Hv IHv|a b u Hu IHu|a b u Hu IHu
                  |a max|a min|a min max u v Hmax Hu IHu Hv IHv|n a u Hu IHu|];
    intros p min' max' E; try discriminate; try reflexivity.
  injection E as -> -> ->.
  inversion Hu; subst.
  rewrite forallb_app. cbn. rewrite (IHv p _ _ eq_refl).
  now match goal with H : p _ = true |- _ => rewrite H end.
Qed.

Lemma lang_rep_class_first (p : char -> bool) (min : nat) (max : option nat)
  (w : jsstring) :
  lang (Rep (Class p) (S min) max) w -> max <> Some 0 ->
  exists c t, w = c :: t /\ p c = true.
Proof.
  intros H Hmax. inversion H as [| | | | | |a m|a m mx u v _ Hu Hv| |]; subst.
  - congruence.
  - inversion Hu; subst. cbn. eauto.
Qed.

Lemma lang_currencyPrefix (w : jsstring) :
  lang currencyPrefix w ->
  forallb (fun c => char_eqb 36 c || is_space c) w = true.
Proof.
  intros H. unfold currencyPrefix, opt, star, chr, space in H.
  inversion H as [| |a b u v Hu Hv| | | | | | |]; subst.
  apply lang_rep_class_all with (p := char_eqb 36) (min := 0) (max := Some 1)
    in Hu; [|reflexivity].
  apply lang_rep_class_all with (p := is_space) (min := 0) (max := None)
    in Hv; [|reflexivity].
  rewrite forallb_app. apply andb_true_intro. split.
  - rewrite forallb_forall in Hu |- *. intros c Hc.
    now rewrite (Hu c Hc).
  - rewrite forallb_forall in Hv |- *. intros c Hc.
    rewrite (Hv c Hc). apply orb_true_r.
Qed.

Lemma lang_currencyBody (w : jsstring) :
  lang currencyBody w -> exists d t, w = d :: t /\ is_digit d = true.
Proof.
  intros H. unfold currencyBody, groupedDigits, plus, digit in H.
  inversion H as [| |a b u v Hu Hv| | | | | | |]; subst.
  inversion Hu as [| | | | | | | |n a u' Hg|]; subst.
  assert (Hfirst : exists d t, u = d :: t /\ is_digit d = true).
  { inversion Hg as [| | |a b u' Ha|a b u' Hb| | | | |]; subst.
    - inversion Ha as [| |a b u1 u2 H1 H2| | | | | | |]; subst.
      apply lang_rep_class_first in H1 as (d & t & -> & Hd); [|discriminate].
      cbn. eauto.
    - apply lang_rep_class_first in Hb as (d & t & -> & Hd); [|discriminate].
      eauto. }
  destruct Hfirst as (d & t & -> & Hd). cbn. eauto.
Qed.

(** The body of the pattern only matches in front of a digit. *)
Lemma currencyBody_needs_digit x y others :
  matches currencyBody x = y :: others ->
  exists d t, rest x = d :: t /\ is_digit d = true.
Proof.
  intros H.
  destruct (matches_sound currencyBody x y) as (w & Hw & _ & Hl);
    [rewrite H; now left|].
  apply lang_currencyBody in Hl as (d & t & -> & Hd).
  rewrite Hw. cbn. eauto.
Qed.

(** *** The leftmost match of the currency pattern *)

Lemma flat_map_head {A B} (f : A -> list B) (l : list A) z others :
  flat_map f l = z :: others ->
  exists y others', In y l /\ f y = z :: others'.
Proof.
  induction l as [|a l IH]; cbn; [discriminate|].
  destruct (f a) as [|b bs] eqn:E; cbn.
  - intros H. destruct (IH H) as (y & o & Hin & Hy). eauto.
  - intros [= <- <-]. exists a, bs. auto.
Qed.

Lemma non_digits_split (w1 : jsstring) :
  forall w2 d1 r1 d2 r2,
    forallb (fun c => negb (is_digit c)) w1 = true ->
    forallb (fun c => negb (is_digit c)) w2 = true ->
    is_digit d1 = true -> is_digit d2 = true ->
    w1 ++ d1 :: r1 = w2 ++ d2 :: r2 ->
    w1 = w2 /\ r1 = r2.
Proof.
  induction w1 as [|a w1 IH]; intros [|b w2] d1 r1 d2 r2 H1 H2 Hd1 Hd2 E;
    cbn in *.
  - injection E as _ <-. auto.
  - injection E as -> _. apply andb_prop in H2 as [Hb _].
    rewrite Hd1 in Hb. discriminate.
  - injection E as -> _. apply andb_prop in H1 as [Ha _].
    rewrite Hd2 in Ha. discriminate.
  - injection E as -> E. apply andb_prop in H1 as [_ H1].
    apply andb_prop in H2 as [_ H2].
    destruct (IH w2 d1 r1 d2 r2 H1 H2 Hd1 Hd2 E) as [-> ->]. auto.
Qed.

Lemma prefix_char_no_digit (c : char) :
  char_eqb 36 c || is_space c = true -> is_digit c = false.
Proof.
  intros H. apply orb_prop in H as [H|H].
  - apply N.eqb_eq in H. subst c. reflexivity.
  - now apply space_not_digit.
Qed.

Lemma prefix_no_digit (w : jsstring) :
  forallb (fun c => char_eqb 36 c || is_space c) w = true ->
  forallb (fun c => negb (is_digit c)) w = true.
Proof.
  rewrite !forallb_forall. intros H c Hc.
  now rewrite (prefix_char_no_digit c (H c Hc)).
Qed.

Lemma lands_prefix_none x d t :
  rest x = d :: t -> is_digit d = true -> lands currencyPrefix x 0.
Proof.
  intros Hrest Hd. unfold currencyPrefix, opt, star, chr, space.
  apply (@lands_seq _ _ x 0 0).
  - apply lands_rep_class with (run := []) (tl := d :: t); auto.
    + apply char_eqb_digit; [reflexivity|exact Hd].
    + intros m [= <-]. lia.
  - intros y Hi Hr. cbn in Hr.
    apply lands_rep_class with (run := []) (tl := d :: t); auto.
    + now rewrite Hr.
    + now apply digit_not_space.
    + discriminate.
Qed.

Section CurrencyMatch.

(** An amount [amt] that starts with a digit and that the body of the
    pattern reads whole, whatever follows. *)
Variable amt : jsstring.
Hypothesis amt_digit : exists d t, amt = d :: t /\ is_digit d = true.
Hypothesis amt_lands :
  forall x tl, rest x = amt ++ tl -> lands currencyBody x (List.length amt).

Lemma currency_match_here i Q :
  exists y others,
    matches currencyRegex (mkState i (amt ++ Q) []) = y :: others.
Proof.
  destruct amt_digit as (d & t & Hamt & Hd).
  assert (Hl : lands currencyRegex (mkState i (amt ++ Q) [])
                 (0 + List.length amt)).
  { unfold currencyRegex. apply lands_seq.
    - apply lands_prefix_none with d (t ++ Q); [|exact Hd].
      cbn. now rewrite Hamt.
    - intros y Hi Hr. apply amt_lands with Q. now rewrite Hr. }
  destruct Hl as (y & [others Hy] & _). eauto.
Qed.

(** Where a match that starts before the amount, among code units that are
    not digits, ends; and what it has read before the amount. *)
Lemma currency_match_shape i P Q y others :
  forallb (fun c => negb (is_digit c)) P = true ->
  matches currencyRegex (mkState i (P ++ amt ++ Q) []) = y :: others ->
  endIndex y = i + List.length P + List.length amt
  /\ forallb (fun c => char_eqb 36 c || is_space c) P = true.
Proof.
  intros HP Hy. destruct amt_digit as (d & t & Hamt & Hd).
  unfold currencyRegex in Hy. cbn [matches] in Hy.
  apply flat_map_head in Hy as (y1 & others1 & Hy1 & Hbody).
  apply matches_sound in Hy1 as (w & Hw & Hi1 & Hl).
  apply lang_currencyPrefix in Hl.
  cbn [rest endIndex] in Hw, Hi1.
  destruct (currencyBody_needs_digit _ Hbody) as (d1 & t1 & Hr1 & Hd1).
  rewrite Hr1, Hamt in Hw. cbn [app] in Hw.
  destruct (@non_digits_split P w d (t ++ Q) d1 t1) as [-> Ht]; auto.
  { now apply prefix_no_digit. }
  injection (app_inv_head _ _ _ Hw) as -> <-.
  split; [|exact Hl].
  destruct (@amt_lands y1 Q) as (z & [oz Hz] & Hiz & _).
  { now rewrite Hr1, Hamt. }
  rewrite Hz in Hbody. injection Hbody as <- _. lia.
Qed.

Lemma exec_currency P Q :
  forallb (fun c => negb (is_digit c)) P = true ->
  exists k m,
    exec currencyRegex (P ++ amt ++ Q) = Some m
    /\ matched m = skipn k P ++ amt
    /\ forallb (fun c => char_eqb 36 c || is_space c) (skipn k P) = true.
Proof.
  intros HP.
  destruct (currency_match_here (0 + List.length P) Q) as (y & others & Hy).
  destruct (exec_from_finds currencyRegex P (amt ++ Q) 0 Hy)
    as (k & y' & others' & Hk & Hm & Hex).
  assert (HPk : forallb (fun c => negb (is_digit c)) (skipn k P) = true).
  { rewrite forallb_forall in HP |- *. intros c Hc. apply HP.
    rewrite <- (firstn_skipn k P). apply in_or_app. now right. }
  destruct (currency_match_shape _ _ _ HPk Hm) as [Hend Hpre].
  exists k. eexists. split; [exact Hex|]. split; [|exact Hpre].
  cbn [matched]. rewrite Hend.
  replace (0 + k + List.length (skipn k P) + List.length amt - (0 + k))
    with (List.length (skipn k P ++ amt)) by (rewrite length_app; lia).
  rewrite app_assoc, firstn_app, Nat.sub_diag, firstn_all. cbn.
  now rewrite app_nil_r.
Qed.

End CurrencyMatch.

(** ** usdToCents *)

Local Open Scope Z_scope.

Lemma keep_app (u v : jsstring) : keep (u ++ v) = keep u ++ keep v.
Proof. unfold replaceAllClass. apply flat_map_app. Qed.

Lemma keep_digits (ds : jsstring) : forallb is_digit ds = true -> keep ds = ds.
Proof.
  induction ds as [|c ds IH]; intros H; [reflexivity|].
  cbn in H. apply andb_prop in H as [Hc Hds].
  unfold replaceAllClass in *. cbn. rewrite Hc. cbn. now rewrite IH.
Qed.

Lemma keep_prefix (w : jsstring) :
  forallb (fun c => char_eqb 36 c || is_space c) w = true -> keep w = [].
Proof.
  induction w as [|c w IH]; intros H; [reflexivity|].
  cbn [forallb] in H. apply andb_prop in H as [Hc Hw].
  unfold replaceAllClass in *. cbn [flat_map].
  rewrite (prefix_char_no_digit _ Hc).
  assert (Hdot : char_eqb c 46 = false).
  { apply orb_prop in Hc as [Hc|Hc].
    - apply N.eqb_eq in Hc. subst c. reflexivity.
    - unfold char_eqb. apply N.eqb_neq. intros ->. discriminate. }
  rewrite Hdot. cbn [orb negb app]. now apply IH.
Qed.

Lemma keep_groups (gs : list jsstring) :
  Forall (fun g => List.length g = 3%nat /\ forallb is_digit g = true) gs ->
  keep (flat_map (fun g => 44%N :: g) gs) = List.concat gs.
Proof.
  induction 1 as [|g gs [_ Hg] _ IH]; [reflexivity|].
  cbn [flat_map List.concat].
  change (44%N :: g) with ([44%N] ++ g).
  rewrite !keep_app, IH, (keep_digits _ Hg). reflexivity.
Qed.

Lemma split_digits (ds : jsstring) :
  forallb is_digit ds = true -> split 46 ds = [ds].
Proof.
  induction ds as [|c ds IH]; intros H; [reflexivity|].
  cbn in H. apply andb_prop in H as [Hc Hds].
  cbn [split]. rewrite (digit_not _ 46%N Hc eq_refl), (IH Hds). reflexivity.
Qed.

Lemma split_point (ds cc : jsstring) :
  forallb is_digit ds = true -> forallb is_digit cc = true ->
  split 46 (ds ++ 46%N :: cc) = [ds; cc].
Proof.
  intros Hds Hcc. induction ds as [|c ds IH].
  - cbn. now rewrite split_digits.
  - cbn in Hds. apply andb_prop in Hds as [Hc Hds].
    cbn [app split]. rewrite (digit_not _ 46%N Hc eq_refl), (IH Hds).
    reflexivity.
Qed.

Lemma usdToCents_unfold (c : char) (v : jsstring) :
  usdToCents (Some (c :: v))
  = match exec currencyRegex
            (trim (replaceAllRuns is_space (lit " ") (c :: v))) with
    | None => 0
    | Some m =>
        let parts := split 46 (keep (matched m)) in
        num_or (parseInt10 (nth 0 parts [])) 0 * 100
        + num_or (parseInt10 (nth 1 parts (lit "00"))) 0
    end.
Proof.
  unfold usdToCents, space, notDigitOrPoint. rewrite replaceAll_runs.
  destruct (exec currencyRegex _) as [m|]; [|reflexivity].
  now rewrite replaceAll_class.
Qed.

(** The value of a string that holds an amount [amt], with no digit before
    it, whose digits and point are [ds ++ "." ++ [c1; c2]]. *)
Lemma usdToCents_amount (pre amt post ds : jsstring) (c1 c2 : char) :
  forallb (fun c => negb (is_digit c)) pre = true ->
  (exists d t, amt = d :: t /\ is_digit d = true) ->
  forallb (fun c => negb (is_space c)) amt = true ->
  (forall x tl, rest x = amt ++ tl ->
                lands currencyBody x (List.length amt)) ->
  keep amt = ds ++ 46%N :: [c1; c2] ->
  ds <> [] -> forallb is_digit ds = true ->
  is_digit c1 = true -> is_digit c2 = true ->
  usdToCents (Some (pre ++ amt ++ post))
  = digits_val ds * 100 + digits_val [c1; c2].
Proof.
  intros Hpre Hamt Hnosp Hlands Hkeep Hne Hds H1 H2.
  assert (Hvalue : exists c v, pre ++ amt ++ post = c :: v).
  { destruct Hamt as (d & t & -> & _). destruct pre; cbn; eauto. }
  destruct Hvalue as (c & v & Hvalue). rewrite Hvalue, usdToCents_unfold.
  rewrite <- Hvalue.
  destruct (@normalize_around (fun c => negb (is_digit c)) pre amt post)
    as (P & Q & -> & HP); auto.
  { destruct Hamt as (d & t & -> & _). discriminate. }
  destruct (@exec_currency amt Hamt Hlands P Q HP) as (k & m & -> & Hm & Hk).
  cbv zeta. rewrite Hm, keep_app, (keep_prefix _ Hk), Hkeep. cbn [app].
  rewrite split_point by (auto; cbn; now rewrite H1, H2).
  cbn [nth].
  rewrite (parseInt10_digits Hne Hds).
  rewrite (@parseInt10_digits [c1; c2]) by (try discriminate; cbn; now rewrite H1, H2).
  now rewrite !num_or_zero.
Qed.

Lemma forallb_rev {A} (q : A -> bool) (l : list A) :
  forallb q (rev l) = forallb q l.
Proof.
  induction l as [|a l IH]; [reflexivity|].
  cbn. rewrite forallb_app, IH. cbn. rewrite andb_true_r. apply andb_comm.
Qed.

Lemma normalize_forallb (q : char -> bool) (s : jsstring) :
  q 32%N = true -> forallb q s = true ->
  forallb q (trim (replaceAllRuns is_space (lit " ") s)) = true.
Proof.
  intros Hq Hs. unfold trim, trimEnd. rewrite forallb_rev.
  apply trimStart_forallb. rewrite forallb_rev.
  apply trimStart_forallb, replaceAllRuns_aux_forallb; [|exact Hs].
  cbn. now rewrite Hq.
Qed.

Lemma lang_currencyRegex_digit (w : jsstring) :
  lang currencyRegex w -> exists d, In d w /\ is_digit d = true.
Proof.
  intros H. unfold currencyRegex in H.
  inversion H as [| |a b u v Hu Hv| | | | | | |]; subst.
  apply lang_currencyBody in Hv as (d & t & -> & Hd).
  exists d. split; [|exact Hd]. apply in_or_app. right. now left.
Qed.

Lemma keep_fraction (c1 c2 : char) :
  is_digit c1 = true -> is_digit c2 = true ->
  keep (46%N :: [c1; c2]) = 46%N :: [c1; c2].
Proof.
  intros H1 H2. unfold replaceAllClass. cbn [flat_map].
  rewrite H1, H2. reflexivity.
Qed.

Lemma amount_no_space (ds : jsstring) (c1 c2 : char) :
  forallb is_digit ds = true -> is_digit c1 = true -> is_digit c2 = true ->
  forallb (fun c => negb (is_space c)) (ds ++ 46%N :: [c1; c2]) = true.
Proof.
  intros Hds H1 H2. rewrite forallb_app, (digits_not_space _ Hds).
  cbn. now rewrite (digit_not_space _ H1), (digit_not_space _ H2).
Qed.

(** *** What a match of the currency pattern holds *)

Lemma lang_rep_class_exact (p : char -> bool) (n : nat) :
  forall w,
    lang (Rep (Class p) n (Some n)) w ->
    List.length w = n /\ forallb p w = true.
Proof.
  induction n as [|n IH]; intros w H;
    inversion H as [| | | | | |a m|a m mx u v Hmax Hu Hv| |]; subst;
    try (split; reflexivity); try congruence.
  inversion Hu; subst. cbn [Nat.pred option_map] in Hv.
  destruct (IH _ Hv) as [Hlen Hall]. cbn.
  split; [now rewrite Hlen|].
  now match goal with Hc : p _ = true |- _ => rewrite Hc end.
Qed.

Lemma lang_commaGroup (u : jsstring) :
  lang commaGroup u ->
  exists g, u = 44%N :: g /\ forallb is_digit g = true.
Proof.
  unfold commaGroup, chr, digit. intros H.
  inversion H as [| | | | | | | |n a u' Hs|]; subst.
  inversion Hs as [| |a b u1 u2 Hc Hg| | | | | | |]; subst.
  inversion Hc as [|q c Hq| | | | | | | |]; subst.
  apply N.eqb_eq in Hq. subst c.
  apply lang_rep_class_exact in Hg as [_ Hg]. cbn. eauto.
Qed.

Lemma lang_comma_groups (r : regex) (v : jsstring) :
  lang r v ->
  forall min max, r = Rep commaGroup min max ->
                  forallb is_digit (keep v) = true.
Proof.
  induction 1 as [|q c Hc|a b u v Hu IHu Hv IHv|a b u Hu IHu|a b u Hu IHu
                  |a max|a min|a min max u v Hmax Hu IHu Hv IHv|n a u Hu IHu|];
    intros min' max' E; try discriminate; try reflexivity.
  injection E as -> -> ->.
  apply lang_commaGroup in Hu as (g & -> & Hg).
  change (44%N :: g) with ([44%N] ++ g).
  rewrite !keep_app, (keep_digits _ Hg), !forallb_app, Hg,
    (IHv _ _ eq_refl).
  reflexivity.
Qed.

Lemma lang_currencyBody_shape (w : jsstring) :
  lang currencyBody w ->
  exists D c1 c2,
    w = D ++ 46%N :: [c1; c2]
    /\ keep D <> [] /\ forallb is_digit (keep D) = true
    /\ is_digit c1 = true /\ is_digit c2 = true.
Proof.
  intros H. unfold currencyBody, groupedDigits, fraction, plus, digit, chr in H.
  inversion H as [| |a b u v Hu Hv| | | | | | |]; subst.
  inversion Hv as [| |a b v1 v2 Hp Hcc| | | | | | |]; subst.
  inversion Hp as [|q c Hq| | | | | | | |]; subst.
  apply N.eqb_eq in Hq. subst c.
  apply lang_rep_class_exact in Hcc as [Hlen Hcc].
  destruct v2 as [|c1 [|c2 [|c3 v2]]]; try discriminate.
  cbn in Hcc. apply andb_prop in Hcc as [H1 H2]. rewrite andb_true_r in H2.
  exists u, c1, c2. split; [reflexivity|].
  assert (Hu' : keep u <> [] /\ forallb is_digit (keep u) = true).
  { inversion Hu as [| | | | | | | |n a u' Hg|]; subst.
    inversion Hg as [| | |a b u' Ha|a b u' Hb| | | | |]; subst.
    - inversion Ha as [| |a b u1 u2 Hd Hgs| | | | | | |]; subst.
      pose proof (lang_rep_class_all Hd eq_refl) as Hall.
      apply lang_rep_class_first in Hd as (d & t & -> & Hd); [|discriminate].
      rewrite keep_app, (keep_digits _ Hall), forallb_app, Hall.
      split; [discriminate|]. exact (lang_comma_groups Hgs eq_refl).
    - pose proof (lang_rep_class_all Hb eq_refl) as Hall.
      apply lang_rep_class_first in Hb as (d & t & -> & Hd); [|discriminate].
      rewrite (keep_digits _ Hall). split; [discriminate|exact Hall]. }
  destruct Hu' as [Hne Hall]. auto.
Qed.

(** Whenever the pattern matches, the result is the dollars times 100 plus
    the cents of what it has matched. *)
Lemma usdToCents_of_match (s : jsstring) (m : MatchResult) :
  s <> [] ->
  exec currencyRegex (trim (replaceAllRuns is_space (lit " ") s)) = Some m ->
  exists ds c1 c2,
    ds <> [] /\ forallb is_digit ds = true
    /\ is_digit c1 = true /\ is_digit c2 = true
    /\ keep (matched m) = ds ++ 46%N :: [c1; c2]
    /\ usdToCents (Some s) = digits_val ds * 100 + digits_val [c1; c2].
Proof.
  intros Hs Hexec. destruct s as [|c v]; [congruence|].
  rewrite usdToCents_unfold, Hexec. cbv zeta.
  apply exec_from_sound in Hexec as (pre & post & _ & _ & Hl).
  unfold currencyRegex in Hl.
  inversion Hl as [| |a b u w Hu Hw E| | | | | | |]; subst.
  apply lang_currencyPrefix in Hu.
  apply lang_currencyBody_shape in Hw
    as (D & c1 & c2 & -> & Hne & Hall & H1 & H2).
  exists (keep D), c1, c2.
  assert (Hkeep : keep (u ++ D ++ 46%N :: [c1; c2])
                  = keep D ++ 46%N :: [c1; c2]).
  { now rewrite !keep_app, (keep_prefix _ Hu), (@keep_fraction _ _ H1 H2). }
  repeat (split; [assumption|]).
  rewrite Hkeep.
  rewrite split_point by (auto; cbn; now rewrite H1, H2).
  cbn [nth]. rewrite (parseInt10_digits Hne Hall).
  rewrite (@parseInt10_digits [c1; c2])
    by (try discriminate; cbn; now rewrite H1, H2).
  now rewrite !num_or_zero.
Qed.

Lemma groups_no_space (gs : list jsstring) :
  Forall (fun g => List.length g = 3%nat /\ forallb is_digit g = true) gs ->
  forallb (fun c => negb (is_space c)) (flat_map (fun g => 44%N :: g) gs)
  = true.
Proof.
  induction 1 as [|g gs [_ Hg] _ IH]; [reflexivity|].
  cbn [flat_map]. rewrite forallb_app, IH.
  cbn [forallb]. now rewrite (digits_not_space _ Hg).
Qed.

(** C1, as the code has it.  [usdToCents "$1,234.56"] is 123456.  A string
    that holds, after code units that are not digits (a [$] among them or
    not), one to three digits, groups of a comma and three digits, a point
    and two digits, is worth the dollars times 100 plus the cents, which is
    not negative, as long as that amount is below [2^53].  [null], the
    empty string and a string in which the pattern finds no match (such as
    one without any digit) are worth 0.  And whenever the pattern finds a
    match, the first one from the left is read: it holds digits, a point
    and two digits, and as long as the number that the digits before the
    point write, times 100, plus the number of the two digits after the
    point is below [2^53], that number is the result. *)
Theorem usdToCents_spec (pre g0 : jsstring) (gs : list jsstring)
  (c1 c2 : char) (post : jsstring) :
  forallb (fun c => negb (is_digit c)) pre = true ->
  g0 <> [] -> (List.length g0 <= 3)%nat -> forallb is_digit g0 = true ->
  Forall (fun g => List.length g = 3%nat /\ forallb is_digit g = true) gs ->
  is_digit c1 = true -> is_digit c2 = true ->
  digits_val (g0 ++ List.concat gs) * 100 + digits_val [c1; c2] < 2 ^ 53 ->
  usdToCents (Some (lit "$1,234.56")) = 123456
  /\ usdToCents
       (Some (pre
                ++ (g0 ++ flat_map (fun g => 44%N :: g) gs
                       ++ 46%N :: [c1; c2])
                ++ post))
     = digits_val (g0 ++ List.concat gs) * 100 + digits_val [c1; c2]
  /\ 0 <= digits_val (g0 ++ List.concat gs) * 100 + digits_val [c1; c2]
  /\ usdToCents None = 0
  /\ usdToCents (Some []) = 0
  /\ (forall s,
        exec currencyRegex (trim (replaceAll (plus space) (lit " ") s)) = None ->
        usdToCents (Some s) = 0)
  /\ (forall s,
        forallb (fun c => negb (is_digit c)) s = true ->
        usdToCents (Some s) = 0)
  /\ (forall s m,
        s <> [] ->
        exec currencyRegex (trim (replaceAll (plus space) (lit " ") s))
        = Some m ->
        exists ds d1 d2,
          ds <> [] /\ forallb is_digit ds = true
          /\ is_digit d1 = true /\ is_digit d2 = true
          /\ replaceAll notDigitOrPoint [] (matched m)
             = ds ++ 46%N :: [d1; d2]
          /\ (digits_val ds * 100 + digits_val [d1; d2] < 2 ^ 53 ->
              usdToCents (Some s)
              = digits_val ds * 100 + digits_val [d1; d2]
              /\ 0 <= usdToCents (Some s))).
Proof.
  intros Hpre Hne Hlen Hg0 Hgs H1 H2 _.
  assert (Hall : forallb is_digit (g0 ++ List.concat gs) = true).
  { rewrite forallb_app, Hg0. cbn.
    clear -Hgs. induction Hgs as [|g gs [_ Hg] _ IH]; [reflexivity|].
    cbn. now rewrite forallb_app, Hg, IH. }
  assert (Hnomatch : forall s,
    exec currencyRegex (trim (replaceAllRuns is_space (lit " ") s)) = None ->
    usdToCents (Some s) = 0).
  { intros [|c v] H; [reflexivity|]. now rewrite usdToCents_unfold, H. }
  split; [vm_compute; reflexivity|].
  split; [|split; [|split; [|split; [|split; [|split]]]]].
  - apply usdToCents_amount; auto.
    + destruct g0 as [|d t]; [congruence|]. exists d. eexists.
      split; [reflexivity|]. cbn in Hg0. now apply andb_prop in Hg0 as [Hd _].
    + rewrite !forallb_app, (digits_not_space _ Hg0), (groups_no_space Hgs).
      apply (@amount_no_space [] c1 c2 eq_refl H1 H2).
    + intros x tl Hx.
      replace (List.length
                 (g0 ++ flat_map (fun g => 44%N :: g) gs ++ 46%N :: [c1; c2]))
        with (List.length g0
              + List.length (flat_map (fun g => 44%N :: g) gs) + 3)%nat
        by (rewrite !length_app; cbn; lia).
      apply lands_body_grouped with c1 c2 tl; auto.
      rewrite Hx, <- !app_assoc. reflexivity.
    + rewrite !keep_app, (keep_digits _ Hg0), (keep_groups Hgs),
        (@keep_fraction _ _ H1 H2).
      now rewrite <- app_assoc.
    + destruct g0; [congruence|discriminate].
  - pose proof (digits_val_nonneg _ Hall).
    assert (0 <= digits_val [c1; c2])
      by (apply digits_val_nonneg; cbn; now rewrite H1, H2).
    lia.
  - reflexivity.
  - reflexivity.
  - intros s H. apply Hnomatch. unfold space in H.
    now rewrite replaceAll_runs in H.
  - intros s Hs. apply Hnomatch.
    destruct (exec currencyRegex _) as [m|] eqn:E; [|reflexivity].
    apply exec_from_sound in E as (u & v & Heq & _ & Hl).
    apply lang_currencyRegex_digit in Hl as (d & Hin & Hd).
    pose proof (normalize_forallb (fun c => negb (is_digit c)) s eq_refl Hs)
      as Hnorm.
    rewrite Heq in Hnorm. rewrite forallb_forall in Hnorm.
    specialize (Hnorm d). rewrite Hd in Hnorm.
    discriminate Hnorm. apply in_or_app. right. apply in_or_app. now left.
  - intros s m Hs Hexec. unfold space in Hexec.
    rewrite replaceAll_runs in Hexec.
    destruct (usdToCents_of_match Hs Hexec)
      as (ds & d1 & d2 & Hds & Hdall & Hd1 & Hd2 & Hkeep & Hval).
    exists ds, d1, d2. unfold notDigitOrPoint. rewrite replaceAll_class.
    do 5 (split; [assumption|]).
    intros _. split; [exact Hval|]. rewrite Hval.
    pose proof (digits_val_nonneg _ Hdall).
    assert (0 <= digits_val [d1; d2])
      by (apply digits_val_nonneg; cbn; now rewrite Hd1, Hd2).
    lia.
Qed.

Lemma usdToCents_spec_witness :
  usdToCents (Some (lit "Total: $ 12,345,678.90 USD")) = 1234567890.
Proof.
  assert (Hgs : Forall (fun g => List.length g = 3%nat
                                 /\ forallb is_digit g = true)
                  [lit "345"; lit "678"])
    by (repeat constructor).
  destruct (@usdToCents_spec (lit "Total: $ ") (lit "12")
              [lit "345"; lit "678"] 57%N 48%N (lit " USD")
              eq_refl ltac:(discriminate) ltac:(cbn; lia) eq_refl Hgs
              eq_refl eq_refl ltac:(vm_compute; reflexivity))
    as (_ & H & _).
  exact H.
Defined.

(** C1, as the claim words it, fails: a string may hold a dollar amount
    and be worth another number.  The pattern is matched from the left, so
    in ["item 3.50oz $1,234.56"] it finds [3.50] first and the result is
    350, not 123456. *)
Lemma usdToCents_amount_not_first :
  ~ (forall (pre g0 : jsstring) (gs : list jsstring) (c1 c2 : char)
       (post : jsstring),
       g0 <> [] -> (List.length g0 <= 3)%nat -> forallb is_digit g0 = true ->
       Forall (fun g => List.length g = 3%nat /\ forallb is_digit g = true)
         gs ->
       is_digit c1 = true -> is_digit c2 = true ->
       digits_val (g0 ++ List.concat gs) * 100 + digits_val [c1; c2] < 2 ^ 53 ->
       usdToCents
         (Some (pre
                  ++ (g0 ++ flat_map (fun g => 44%N :: g) gs
                         ++ 46%N :: [c1; c2])
                  ++ post))
       = digits_val (g0 ++ List.concat gs) * 100 + digits_val [c1; c2]).
Proof.
  intros H.
  assert (Hgs : Forall (fun g => List.length g = 3%nat
                                 /\ forallb is_digit g = true)
                  [lit "234"])
    by (repeat constructor).
  specialize (H (lit "item 3.50oz $") (lit "1") [lit "234"] 53%N 54%N []
                ltac:(discriminate) ltac:(cbn; lia) eq_refl Hgs
                eq_refl eq_refl ltac:(vm_compute; reflexivity)).
  assert (Hrun : usdToCents (Some (lit "item 3.50oz $1,234.56")) = 350)
    by (vm_compute; reflexivity).
  change (usdToCents (Some (lit "item 3.50oz $1,234.56"))
          = digits_val (lit "1234") * 100 + digits_val (lit "56")) in H.
  rewrite Hrun in H. vm_compute in H. discriminate H.
Qed.

(** ** centsToUSD *)

(** C10, as the code has it.  For an amount of cents from 0 up to
    [100 * 2^46] = 7036874417766400, parsing the string that [centsToUSD]
    prints gives the amount back.  (Beyond, the double that [cents / 100]
    gives can be too far from the quotient: see the lemma after this one.) *)
Theorem centsToUSD_roundtrip (c : Z) :
  0 <= c <= 100 * 2 ^ 46 -> usdToCents (Some (centsToUSD c)) = c.
Proof.
  intros Hc. rewrite centsToUSD_exact by lia.
  replace (Z.ltb c 0) with false by (symmetry; apply Z.ltb_ge; lia).
  rewrite Z.abs_eq by lia. cbn [app].
  destruct (to_digits_spec (n:=c / 100)) as (Hne & Hds & Hval);
    [apply Z.div_pos; lia|].
  set (ds := to_digits (c / 100)) in *.
  destruct (digit_char_digit (d:=c mod 100 / 10)) as [H1 V1].
  { pose proof (Z.mod_pos_bound c 100 ltac:(lia)).
    split; [apply Z.div_pos; lia|].
    apply Z.lt_succ_r, Z.div_lt_upper_bound; lia. }
  destruct (digit_char_digit (d:=c mod 10)) as [H2 V2].
  { pose proof (Z.mod_pos_bound c 10 ltac:(lia)). lia. }
  set (d1 := digit_char (c mod 100 / 10)) in *.
  set (d2 := digit_char (c mod 10)) in *.
  change (lit ".") with [46%N]. cbn [app].
  rewrite <- (app_nil_r (ds ++ 46%N :: [d1; d2])).
  change (ds ++ 46%N :: [d1; d2]) with ([] ++ ds ++ 46%N :: [d1; d2]) at 1.
  rewrite <- app_assoc.
  rewrite (@usdToCents_amount [] (ds ++ 46%N :: [d1; d2]) [] ds d1 d2);
    auto.
  - rewrite Hval. unfold digits_val. cbn [fold_left]. rewrite V1, V2.
    pose proof (Z.div_mod c 100 ltac:(lia)).
    pose proof (Z.div_mod (c mod 100) 10 ltac:(lia)).
    assert (c mod 100 mod 10 = c mod 10).
    { apply Z.mod_mod_divide. exists 10. reflexivity. }
    lia.
  - destruct ds as [|d t]; [congruence|]. exists d. eexists.
    split; [reflexivity|]. cbn in Hds. now apply andb_prop in Hds as [Hd _].
  - now apply amount_no_space.
  - intros x tl Hx. rewrite <- app_assoc in Hx. cbn [app] in Hx.
    replace (List.length (ds ++ 46%N :: [d1; d2]))
      with (List.length ds + 3)%nat by (rewrite length_app; cbn; lia).
    destruct (le_lt_dec (List.length ds) 3) as [Hshort|Hlong].
    + replace (List.length ds + 3)%nat
        with (List.length ds
              + List.length (flat_map (fun g : list N => 44%N :: g) []) + 3)%nat
        by (cbn; lia).
      apply lands_body_grouped with d1 d2 tl; auto.
    + apply lands_body_plain with d1 d2 tl; auto.
  - now rewrite keep_app, (keep_digits _ Hds), (@keep_fraction _ _ H1 H2).
Qed.

Lemma centsToUSD_roundtrip_witness :
  usdToCents (Some (centsToUSD 123456)) = 123456.
Proof.
  apply centsToUSD_roundtrip. split; [lia|]. vm_compute. discriminate.
Defined.

(** C10, as the claim words it, fails: 7036874417766401 cents are not a
    multiple of 100, the nearest double to 70368744177664.01 is
    70368744177664.015625, [toFixed(2)] prints it as 70368744177664.02, and
    parsing that gives one cent more. *)
Lemma centsToUSD_roundtrip_fails :
  ~ (forall c, 0 <= c -> usdToCents (Some (centsToUSD c)) = c).
Proof.
  intros Hclaim. specialize (Hclaim 7036874417766401 ltac:(lia)).
  assert (Hrun : usdToCents (Some (centsToUSD 7036874417766401))
                 = 7036874417766402) by (vm_compute; reflexivity).
  rewrite Hrun in Hclaim. lia.
Qed.

(** ** Quantity detection *)

Local Open Scope nat_scope.

(** A pattern that starts with [^] matches at index 0 only. *)
Lemma exec_from_anchored (r : regex) (s : jsstring) :
  forall i, exec_from (Seq Bol r) (S i) s = None.
Proof.
  induction s as [|c s IH]; intros i; cbn [exec_from matches endIndex Nat.eqb];
    cbn [flat_map]; [reflexivity|apply IH].
Qed.

Lemma exec_anchored (r : regex) (s : jsstring) (m : MatchResult) :
  exec (Seq Bol r) s = Some m ->
  exists y others,
    matches r (mkState 0 s []) = y :: others
    /\ m = mkResult 0 (firstn (endIndex y) s) (captures y).
Proof.
  unfold exec. intros H.
  assert (Hm : matches (Seq Bol r) (mkState 0 s []) = matches r (mkState 0 s [])).
  { cbn [matches endIndex Nat.eqb flat_map]. now rewrite app_nil_r. }
  destruct (matches r (mkState 0 s [])) as [|y others] eqn:E.
  - destruct s as [|c s]; cbn [exec_from] in H; rewrite Hm in H;
      [discriminate|].
    now rewrite exec_from_anchored in H.
  - exists y, others. split; [reflexivity|].
    rewrite (exec_from_here _ _ _ Hm) in H. injection H as <-.
    now rewrite Nat.sub_0_r.
Qed.

Lemma canonicalize_letter (a : char) (upper : char) :
  (65 <= upper <= 90)%N ->
  canonicalize a = upper -> a = upper \/ a = (upper + 32)%N.
Proof.
  intros Hu. unfold canonicalize.
  destruct (N.leb_spec 97 a); destruct (N.leb_spec a 122); cbn; lia.
Qed.

Lemma letter_not_space (a upper : char) :
  (65 <= upper <= 90)%N -> canonicalize a = upper -> is_space a = false.
Proof.
  intros Hu Ha. destruct (canonicalize_letter a Hu Ha) as [->| ->];
    unfold is_space; bool_false.
Qed.

Lemma is_separator_cases (sep : jsstring) :
  is_separator sep = true ->
  (exists a b, sep = [a; b] /\ canonicalize a = 79%N /\ canonicalize b = 70%N)
  \/ (exists a, sep = [a] /\ canonicalize a = 88%N).
Proof.
  unfold is_separator. intros H. apply orb_prop in H as [H|H];
    apply str_eqb_eq in H.
  - left. destruct sep as [|a [|b [|c sep]]]; try discriminate.
    injection H as Ha Hb. eauto.
  - right. destruct sep as [|a [|b sep]]; try discriminate.
    injection H as Ha. eauto.
Qed.

Lemma quantityRegex_parts :
  quantityRegex
  = Seq Bol
      (Seq (Group 1 (Rep (Class is_digit) 1 None))
      (Seq (Rep (Class is_space) 1 None)
      (Seq (Group 2 (Alt (Seq (chr_i 111) (chr_i 102)) (chr_i 120)))
           (Rep (Class is_space) 1 None)))).
Proof. reflexivity. Qed.

(** The first way to match the separator. *)
Lemma first_separator x sep tl :
  rest x = sep ++ tl -> is_separator sep = true ->
  exists y,
    first (Alt (Seq (chr_i 111) (chr_i 102)) (chr_i 120)) x y
    /\ endIndex y = endIndex x + List.length sep
    /\ rest y = tl /\ captures y = captures x.
Proof.
  intros Hrest Hsep.
  destruct (is_separator_cases sep Hsep)
    as [(a & b & -> & Ha & Hb)|(a & -> & Ha)]; cbn [app List.length] in *.
  - exists (advance (advance x (b :: tl)) tl). split; [|cbn; repeat split; lia].
    apply first_alt_l. eapply first_seq.
    + apply first_class with a; [exact Hrest|].
      unfold char_eqb. rewrite Ha. reflexivity.
    + apply first_class with b; [reflexivity|].
      unfold char_eqb. rewrite Hb. reflexivity.
  - exists (advance x tl). split; [|cbn; repeat split; lia].
    apply first_alt_r.
    + unfold chr_i. cbn [matches]. rewrite Hrest.
      unfold char_eqb. rewrite Ha. reflexivity.
    + apply first_class with a; [exact Hrest|].
      unfold char_eqb. rewrite Ha. reflexivity.
Qed.

Lemma separator_not_space (sep tl : jsstring) :
  is_separator sep = true ->
  match sep ++ tl with [] => True | c :: _ => is_space c = false end.
Proof.
  intros Hsep.
  destruct (is_separator_cases sep Hsep)
    as [(a & b & -> & Ha & Hb)|(a & -> & Ha)]; cbn;
    eapply letter_not_space; try eassumption; lia.
Qed.

(** The match of a name that starts with a quantity prefix. *)
Lemma exec_quantity digs ws1 sep ws2 tl :
  quantity_prefix digs ws1 sep ws2 ->
  match tl with [] => True | c :: _ => is_space c = false end ->
  exists m,
    exec quantityRegex (digs ++ ws1 ++ sep ++ ws2 ++ tl) = Some m
    /\ index m = 0
    /\ matched m = digs ++ ws1 ++ sep ++ ws2
    /\ capture 1 (caps m) = Some digs.
Proof.
  intros (Hd & Hdigs & Hw1 & Hws1 & Hsep & Hw2 & Hws2) Htl.
  set (name := digs ++ ws1 ++ sep ++ ws2 ++ tl).
  set (x0 := mkState 0 name []).
  set (y1 := set_capture 1 x0 (skip (List.length digs) x0)).
  set (y2 := skip (List.length ws1) y1).
  assert (F1 : first (Group 1 (Rep (Class is_digit) 1 None)) x0 y1).
  { apply first_group.
    apply first_rep_class with digs (ws1 ++ sep ++ ws2 ++ tl); auto.
    - destruct ws1 as [|c ws1]; [congruence|]. cbn in Hws1 |- *.
      apply andb_prop in Hws1 as [Hc _]. now apply space_not_digit.
    - discriminate.
    - destruct digs; [congruence|cbn; lia]. }
  assert (R1 : rest y1 = ws1 ++ sep ++ ws2 ++ tl).
  { cbn. unfold name. now rewrite skipn_app, skipn_all, Nat.sub_diag. }
  assert (F2 : first (Rep (Class is_space) 1 None) y1 y2).
  { apply first_rep_class with ws1 (sep ++ ws2 ++ tl); auto.
    - now apply separator_not_space.
    - discriminate.
    - destruct ws1; [congruence|cbn; lia]. }
  assert (R2 : rest y2 = sep ++ ws2 ++ tl).
  { unfold y2. cbn [skip rest]. rewrite R1.
    now rewrite skipn_app, skipn_all, Nat.sub_diag. }
  destruct (first_separator y2 sep (ws2 ++ tl) R2 Hsep)
    as (y3 & F3 & I3 & R3 & C3).
  set (y4 := set_capture 2 y2 y3).
  assert (F4 : first (Rep (Class is_space) 1 None) y4
                 (skip (List.length ws2) y4)).
  { apply first_rep_class with ws2 tl; auto.
    - discriminate.
    - destruct ws2; [congruence|cbn; lia]. }
  assert (F : first quantityRegex x0 (skip (List.length ws2) y4)).
  { rewrite quantityRegex_parts.
    apply first_seq with x0; [exists []; reflexivity|].
    apply first_seq with y1; [exact F1|].
    apply first_seq with y2; [exact F2|].
    apply first_seq with y4; [apply first_group, F3|exact F4]. }
  destruct F as [others F].
  exists (mkResult 0
            (firstn (endIndex (skip (List.length ws2) y4) - 0) name)
            (captures (skip (List.length ws2) y4))).
  split; [apply exec_from_here with others; exact F|].
  split; [reflexivity|]. split.
  - cbn [matched skip endIndex set_capture y4]. rewrite I3.
    cbn [y2 y1 skip endIndex set_capture x0].
    replace (0 + List.length digs + List.length ws1 + List.length sep
             + List.length ws2 - 0)
      with (List.length (digs ++ ws1 ++ sep ++ ws2))
      by (rewrite !length_app; lia).
    unfold name.
    replace (digs ++ ws1 ++ sep ++ ws2 ++ tl)
      with ((digs ++ ws1 ++ sep ++ ws2) ++ tl)
      by (now rewrite <- !app_assoc).
    now rewrite firstn_app, Nat.sub_diag, firstn_all, app_nil_r.
  - cbn [caps skip captures set_capture y4]. rewrite C3.
    cbn [y2 y1 skip captures set_capture x0 filter capture fst negb Nat.eqb
         rest endIndex].
    rewrite Nat.add_0_l, Nat.sub_0_r. unfold name.
    now rewrite firstn_app, Nat.sub_diag, firstn_all, app_nil_r.
Qed.

Lemma lang_quantityRegex (w : jsstring) :
  lang quantityRegex w ->
  exists digs ws1 sep ws2,
    quantity_prefix digs ws1 sep ws2 /\ w = digs ++ ws1 ++ sep ++ ws2.
Proof.
  rewrite quantityRegex_parts. intros H.
  inversion H as [| |? ? u0 v0 Hbol H0| | | | | | |]; subst.
  inversion Hbol; subst.
  inversion H0 as [| |? ? u1 v1 Hg1 H1| | | | | | |]; subst.
  inversion Hg1 as [| | | | | | | |? ? ? Hd|]; subst.
  inversion H1 as [| |? ? u2 v2 Hs1 H2| | | | | | |]; subst.
  inversion H2 as [| |? ? u3 v3 Hg2 Hs2| | | | | | |]; subst.
  inversion Hg2 as [| | | | | | | |? ? ? Hsep|]; subst.
  exists u1, u2, u3, v3. split; [|reflexivity].
  assert (Hne : forall p u, lang (Rep (Class p) 1 None) u -> u <> []).
  { intros p u Hu. apply lang_rep_class_first in Hu as (c & t & -> & _);
      discriminate. }
  unfold quantity_prefix.
  split; [now apply Hne with is_digit|].
  split; [now apply lang_rep_class_all with (1 := Hd) (min := 1) (max := None)|].
  split; [now apply Hne with is_space|].
  split; [now apply lang_rep_class_all with (1 := Hs1) (min := 1) (max := None)|].
  split.
  - unfold is_separator, chr_i in *.
    inversion Hsep as [| | |? ? ? Hof|? ? ? Hx| | | | |]; subst.
    + inversion Hof as [| |? ? ? ? Ho Hf| | | | | | |]; subst.
      inversion Ho as [|? a Ha| | | | | | | |]; subst.
      inversion Hf as [|? b Hb| | | | | | | |]; subst.
      cbn [app List.map str_eqb lit]. cbn in Ha, Hb |- *.
      unfold char_eqb in *. now rewrite Ha, Hb.
    + inversion Hx as [|? a Ha| | | | | | | |]; subst.
      cbn in Ha |- *. unfold char_eqb in *. rewrite Ha.
      now rewrite orb_true_r.
  - split; [now apply Hne with is_space|].
    now apply lang_rep_class_all with (1 := Hs2) (min := 1) (max := None).
Qed.

Lemma detectQuantity_no_match (name : jsstring) :
  exec quantityRegex name = None -> detectQuantity name = (1%Z, name).
Proof. intros H. unfold detectQuantity. now rewrite H. Qed.

(** C3, as the code has it.  "2 x Widget" gives the count 2 and the name
    "Widget".  A name that starts with digits, white space, "of" or "x" in
    any case, and white space again loses that prefix (with all the white
    space after the separator); its count is the number the digits write,
    or 1 when that number is 0.  A name that does not start in this way,
    whatever the number, keeps count 1 and is unchanged. *)
Theorem detectQuantity_spec (digs ws1 sep ws2 tl : jsstring) :
  quantity_prefix digs ws1 sep ws2 ->
  match tl with [] => True | c :: _ => is_space c = false end ->
  (digits_val digs < 2 ^ 53)%Z ->
  detectQuantity (lit "2 x Widget") = (2%Z, lit "Widget")
  /\ detectQuantity (digs ++ ws1 ++ sep ++ ws2 ++ tl)
     = (if Z.eqb (digits_val digs) 0 then 1%Z else digits_val digs, tl)
  /\ (forall name,
        (forall digs' ws1' sep' ws2' tl',
           quantity_prefix digs' ws1' sep' ws2' ->
           name <> digs' ++ ws1' ++ sep' ++ ws2' ++ tl') ->
        detectQuantity name = (1%Z, name)).
Proof.
  intros Hprefix Htl _.
  split; [vm_compute; reflexivity|]. split.
  - destruct (@exec_quantity digs ws1 sep ws2 tl Hprefix Htl)
      as (m & Hexec & Hi & Hm & Hc).
    destruct Hprefix as (Hd & Hdigs & _).
    unfold detectQuantity, replaceFirst. rewrite Hexec, Hc, Hi, Hm.
    rewrite (parseInt10_digits Hd Hdigs). cbn [num_or firstn app].
    f_equal.
    replace (digs ++ ws1 ++ sep ++ ws2 ++ tl)
      with ((digs ++ ws1 ++ sep ++ ws2) ++ tl)
      by (now rewrite <- !app_assoc).
    now rewrite Nat.add_0_l, skipn_app, skipn_all, Nat.sub_diag.
  - intros name Hnone. apply detectQuantity_no_match.
    destruct (exec quantityRegex name) as [m|] eqn:E; [|reflexivity].
    exfalso. pose proof E as E'. unfold exec in E'.
    apply exec_from_sound in E' as (pre & post & Hname & Hidx & Hl).
    rewrite quantityRegex_parts in E.
    apply exec_anchored in E as (y & others & _ & ->).
    cbn [index] in Hidx. destruct pre; [|discriminate].
    apply lang_quantityRegex in Hl as (d & w1 & s & w2 & Hq & Hw).
    apply (Hnone d w1 s w2 post Hq).
    rewrite Hname. cbn [app]. rewrite Hw. now rewrite <- !app_assoc.
Qed.

Lemma detectQuantity_spec_witness :
  detectQuantity (lit "12 OF  Widget; blue") = (12%Z, lit "Widget; blue").
Proof.
  assert (Hq : quantity_prefix (lit "12") (lit " ") (lit "OF") (lit "  "))
    by (repeat split; discriminate).
  destruct (@detectQuantity_spec (lit "12") (lit " ") (lit "OF") (lit "  ")
              (lit "Widget; blue") Hq eq_refl ltac:(vm_compute; reflexivity))
    as (_ & H & _).
  exact H.
Defined.

(** C3, as the claim words it, fails on a quantity of zero: "0 x Widget"
    does not start with a positive number followed by "of" or "x", and yet
    its name is changed. *)
Lemma detectQuantity_zero_changes_name :
  ~ (forall name,
       (forall digs ws1 sep ws2 tl,
          quantity_prefix digs ws1 sep ws2 ->
          (0 < digits_val digs)%Z ->
          name <> digs ++ ws1 ++ sep ++ ws2 ++ tl) ->
       detectQuantity name = (1%Z, name)).
Proof.
  intros Hclaim. specialize (Hclaim (lit "0 x Widget")).
  assert (Hrun : detectQuantity (lit "0 x Widget") = (1%Z, lit "Widget"))
    by (vm_compute; reflexivity).
  rewrite Hrun in Hclaim.
  assert (Hdiff : (1%Z, lit "Widget") <> (1%Z, lit "0 x Widget"))
    by discriminate.
  apply Hdiff, Hclaim.
  intros digs ws1 sep ws2 tl (Hd & Hdigs & Hw1 & Hws1 & _) Hpos E.
  destruct digs as [|d [|d' digs]]; [congruence| |].
  - cbn in E. injection E as <- _. cbv in Hpos. discriminate.
  - cbn in E. injection E as _ <- _. cbn in Hdigs.
    rewrite andb_false_r in Hdigs. discriminate.
Qed.

(* ================================================================== *)
(** * Part III: further properties of the script                       *)
(* ================================================================== *)

Local Open Scope Z_scope.

(** ** How the wait loop can end *)

Lemma waitUntil_turn_ends env checkFn start timeoutMs intervalMs w :
  match fst (waitUntil_turn env checkFn start timeoutMs intervalMs w) with
  | Ok (Some b) => b = true
  | Ok None => True
  | Throw e => e = timedOut
  | OutOfFuel => True
  end.
Proof.
  unfold waitUntil_turn, bind, try_catch, ret, throw, date_now, sleep.
  destruct (checkFn w) as [[[|]|e|] w1]; cbn; try exact I; try reflexivity;
    destruct (Z.gtb _ _); cbn; trivial.
Qed.

Lemma waitUntil_loop_ends env checkFn start timeoutMs intervalMs fuel :
  forall w,
    match fst (waitUntil_loop env fuel checkFn start timeoutMs intervalMs w)
    with
    | Ok b => b = true
    | Throw e => e = timedOut
    | OutOfFuel => True
    end.
Proof.
  induction fuel as [|fuel IH]; intros w; [exact I|].
  cbn [waitUntil_loop]. unfold bind at 1.
  pose proof (waitUntil_turn_ends env checkFn start timeoutMs intervalMs w)
    as Hturn.
  destruct (waitUntil_turn env checkFn start timeoutMs intervalMs w)
    as [[[b|]|e|] w1]; cbn [fst] in Hturn |- *.
  - exact Hturn.
  - apply IH.
  - exact Hturn.
  - exact I.
Qed.

(** [waitUntil] never returns [false], and the only error that leaves it is
    its own timeout: what the check throws never escapes. *)
Theorem waitUntil_never_false (env : Env) (fuel : nat) (checkFn : M bool)
  (timeoutMs intervalMs : Z) (w : World) :
  match fst (waitUntil env fuel checkFn timeoutMs intervalMs w) with
  | Ok b => b = true
  | Throw e => e = timedOut
  | OutOfFuel => True
  end.
Proof.
  unfold waitUntil, bind, date_now. apply waitUntil_loop_ends.
Qed.

(** ** Saving and loading the cookies *)

Lemma signed_in_env_io_ok orderEls : io_ok (signed_in_env orderEls).
Proof. intros n. reflexivity. Qed.

Lemma setCookie_step (env : Env) (c : Cookie) (w : World) :
  page_setCookie env c w
  = match e_io env (step w) with
    | Fulfilled _ => (Ok tt, mkWorld (S (step w)) (files w) (jar w ++ [c]))
    | Rejected e => (Throw e, tick w)
    end.
Proof. reflexivity. Qed.

Lemma setCookies_all (env : Env) (cs : list Cookie) :
  io_ok env ->
  forall w,
  exists w',
    for_of cs (fun _ c => page_setCookie env c) tt w = (Ok tt, w')
    /\ jar w' = jar w ++ cs /\ files w' = files w.
Proof.
  intros Hio. induction cs as [|c cs IH]; intros w.
  - exists w. cbn. now rewrite app_nil_r.
  - cbn [for_of]. unfold bind. rewrite setCookie_step, Hio.
    destruct (IH (mkWorld (S (step w)) (files w) (jar w ++ [c])))
      as (w' & Hrun & Hjar & Hfiles).
    exists w'. split; [exact Hrun|]. cbn in Hjar, Hfiles.
    split; [|exact Hfiles]. now rewrite Hjar, <- app_assoc.
Qed.

Lemma setCookies_prefix (env : Env) (cs : list Cookie) :
  forall w,
    files (snd (for_of cs (fun _ c => page_setCookie env c) tt w)) = files w
    /\ exists k,
         jar (snd (for_of cs (fun _ c => page_setCookie env c) tt w))
         = jar w ++ firstn k cs.
Proof.
  induction cs as [|c cs IH]; intros w.
  - split; [reflexivity|]. exists O. cbn. now rewrite app_nil_r.
  - cbn [for_of]. unfold bind. rewrite !setCookie_step.
    destruct (e_io env (step w)) as [u|e].
    + destruct (IH (mkWorld (S (step w)) (files w) (jar w ++ [c])))
        as (Hfiles & k & Hjar).
      split; [exact Hfiles|]. exists (S k). rewrite Hjar. cbn.
      now rewrite <- app_assoc.
    + split; [reflexivity|]. exists O. cbn. now rewrite app_nil_r.
Qed.

Lemma loadCookies_unfold (env : Env) (p : jsstring) (w : World) :
  loadCookies env p w
  = match files w p with
    | None => (Ok false, w)
    | Some text =>
        match e_io env (step w) with
        | Rejected _ => (Ok false, tick w)
        | Fulfilled _ =>
            match json_parse env text with
            | Fulfilled (PIterable cs) =>
                match for_of cs (fun _ c => page_setCookie env c) tt (tick w)
                with
                | (Ok _, w') => (Ok true, w')
                | (Throw _, w') => (Ok false, w')
                | (OutOfFuel, w') => (OutOfFuel, w')
                end
            | _ => (Ok false, tick w)
            end
        end
    end.
Proof.
  unfold loadCookies, try_catch, bind at 1, fs_existsSync.
  destruct (files w p) as [text|] eqn:Hfile; cbn [negb]; [|reflexivity].
  unfold bind at 1, fs_readFile. rewrite Hfile.
  destruct (e_io env (step w)) as [u|e]; [|reflexivity].
  unfold bind at 1, lift.
  destruct (json_parse env text) as [[cs|]|e]; cbn [result_of];
    try reflexivity.
  unfold bind.
  destruct (for_of cs (fun _ c => page_setCookie env c) tt (tick w))
    as [[u'|e|] w1]; reflexivity.
Qed.

(** [loadCookies] never touches the files, and whatever it answers, the
    cookies it has set on the page are a prefix of the cookies of the file:
    when setting one of them is rejected, the ones before it stay set. *)
Theorem loadCookies_effects (env : Env) (p : jsstring) (w : World) :
  files (snd (loadCookies env p w)) = files w
  /\ match files w p with
     | None => jar (snd (loadCookies env p w)) = jar w
     | Some text =>
         match json_parse env text with
         | Fulfilled (PIterable cs) =>
             exists k, jar (snd (loadCookies env p w)) = jar w ++ firstn k cs
         | _ => jar (snd (loadCookies env p w)) = jar w
         end
     end.
Proof.
  rewrite loadCookies_unfold.
  destruct (files w p) as [text|]; [|now split].
  destruct (e_io env (step w)) as [u|e].
  - destruct (json_parse env text) as [[cs|]|e]; try now split.
    destruct (setCookies_prefix env cs (tick w)) as (Hfiles & k & Hjar).
    destruct (for_of cs (fun _ c => page_setCookie env c) tt (tick w))
      as [[u'|e|] w1]; cbn in *; (split; [exact Hfiles|]); exists k;
      exact Hjar.
  - destruct (json_parse env text) as [[cs|]|e']; try now split.
    split; [reflexivity|]. exists O. cbn. now rewrite app_nil_r.
Qed.

(** [saveCookies] touches the cookie file and nothing else: the cookies of
    the page and the other files stay as they are.  When [page.cookies()] is
    rejected, no file changes.  When the write is fulfilled, the cookie file
    holds the JSON text of the cookies that the page gave.  When the write
    is rejected, [saveCookies] throws and the cookie file is as it was, or
    it has been emptied and holds a beginning of that text. *)
Theorem saveCookies_effects (env : Env) (p : jsstring) (w : World) :
  let (r, w') := saveCookies env p w in
  jar w' = jar w
  /\ (forall q, str_eqb q p = false -> files w' q = files w q)
  /\ match e_cookies env (step w) with
     | Rejected e => r = Throw e /\ files w' = files w
     | Fulfilled cs =>
         match e_io env (S (step w)) with
         | Fulfilled _ =>
             r = Ok tt /\ files w' p = Some (json_stringify env cs)
         | Rejected e =>
             r = Throw e
             /\ (files w' = files w
                 \/ exists k,
                      files w' p = Some (firstn k (json_stringify env cs)))
         end
     end.
Proof.
  unfold saveCookies, bind, page_cookies, fs_writeFile.
  destruct (e_cookies env (step w)) as [cs|e]; cbn; [|now repeat split].
  destruct (e_io env (S (step w))) as [u|e]; cbn.
  - rewrite str_eqb_refl. split; [reflexivity|].
    split; [|now split]. intros q Hq. now rewrite Hq.
  - destruct (e_partial env (S (step w))) as [k|]; cbn.
    + rewrite str_eqb_refl. split; [reflexivity|].
      split; [intros q Hq; now rewrite Hq|].
      split; [reflexivity|]. right. now exists k.
    + split; [reflexivity|]. split; [reflexivity|].
      split; [reflexivity|]. now left.
Qed.

(** What [saveCookies] has written, [loadCookies] sets on the page again:
    when no call is rejected and [JSON.parse] reads back what
    [JSON.stringify] wrote, loading after saving answers [true] and adds
    exactly the saved cookies, in order. *)
Theorem cookies_save_then_load (env : Env) (p : jsstring) (cs : list Cookie)
  (w : World) :
  io_ok env ->
  e_cookies env (step w) = Fulfilled cs ->
  json_parse env (json_stringify env cs) = Fulfilled (PIterable cs) ->
  exists w1 w2,
    saveCookies env p w = (Ok tt, w1)
    /\ loadCookies env p w1 = (Ok true, w2)
    /\ jar w2 = jar w1 ++ cs
    /\ files w2 = files w1.
Proof.
  intros Hio Hcs Hjson.
  set (w1 := write_file p (json_stringify env cs) (tick w)).
  assert (Hsave : saveCookies env p w = (Ok tt, w1)).
  { unfold saveCookies, bind, page_cookies, fs_writeFile.
    rewrite Hcs. cbn. now rewrite Hio. }
  destruct (@setCookies_all env cs Hio (tick w1))
    as (w2 & Hset & Hjar & Hfiles).
  exists w1, w2. split; [exact Hsave|].
  assert (Hfile : files w1 p = Some (json_stringify env cs))
    by (unfold w1, write_file; cbn; now rewrite str_eqb_refl).
  split; [|split; [exact Hjar|exact Hfiles]].
  rewrite loadCookies_unfold, Hfile, Hio, Hjson, Hset. reflexivity.
Qed.

Lemma cookies_save_then_load_witness :
  exists w2,
    (saveCookies (signed_in_env []) (lit "cookies.json") ;;;
     loadCookies (signed_in_env []) (lit "cookies.json"))%js new_world
    = (Ok true, w2)
    /\ jar w2 = [lit "session-id=1"].
Proof.
  destruct (@cookies_save_then_load (signed_in_env []) (lit "cookies.json")
              [lit "session-id=1"] new_world
              (signed_in_env_io_ok []) eq_refl eq_refl)
    as (w1 & w2 & Hsave & Hload & Hjar & _).
  exists w2. split.
  - unfold bind. rewrite Hsave. exact Hload.
  - rewrite Hjar. injection Hsave as <-. reflexivity.
Defined.

(** ** The count and the name of an article *)

Lemma span_spaces (s : jsstring) :
  exists sp tl,
    s = sp ++ tl /\ forallb is_space sp = true
    /\ match tl with [] => True | c :: _ => is_space c = false end.
Proof.
  induction s as [|c s IH]; [now exists [], []|].
  destruct (is_space c) eqn:E.
  - destruct IH as (sp & tl & -> & Hsp & Htl).
    exists (c :: sp), tl. cbn. now rewrite E.
  - exists [], (c :: s). now repeat split.
Qed.

(** The two ways the quantity detection goes: the name is left alone with
    the count 1, or it starts with a quantity, which is read and removed. *)
Lemma detectQuantity_cases (name : jsstring) :
  detectQuantity name = (1, name)
  \/ exists digs ws1 sep ws2 tl,
       quantity_prefix digs ws1 sep ws2
       /\ name = digs ++ ws1 ++ sep ++ ws2 ++ tl
       /\ detectQuantity name
          = (if Z.eqb (digits_val digs) 0 then 1 else digits_val digs, tl).
Proof.
  destruct (exec quantityRegex name) as [m|] eqn:E;
    [right|left; now apply detectQuantity_no_match].
  pose proof E as E'. unfold exec in E'.
  apply exec_from_sound in E' as (pre & post & Hname & Hidx & Hl).
  pose proof E as Ea. rewrite quantityRegex_parts in Ea.
  apply exec_anchored in Ea as (y & others & _ & Hm).
  rewrite Hm in Hidx. cbn [index] in Hidx. destruct pre; [|discriminate].
  clear Hm Hidx y others.
  apply lang_quantityRegex in Hl as (d & w1 & s & w2 & Hq & Hw).
  destruct (span_spaces post) as (sp & tl & -> & Hsp & Htl).
  assert (Hq' : quantity_prefix d w1 s (w2 ++ sp)).
  { destruct Hq as (H1 & H2 & H3 & H4 & H5 & H6 & H7).
    repeat split; auto.
    - destruct w2; [congruence|discriminate].
    - rewrite forallb_app. now rewrite H7, Hsp. }
  assert (Hname' : name = d ++ w1 ++ s ++ (w2 ++ sp) ++ tl).
  { rewrite Hname. cbn [app]. rewrite Hw. now rewrite <- !app_assoc. }
  exists d, w1, s, (w2 ++ sp), tl. split; [exact Hq'|].
  split; [exact Hname'|].
  destruct (@exec_quantity d w1 s (w2 ++ sp) tl Hq' Htl)
    as (m' & Hexec & Hi & Hmm & Hc).
  destruct Hq' as (Hd & Hdigs & _).
  rewrite Hname'. unfold detectQuantity, replaceFirst.
  rewrite Hexec, Hc, Hi, Hmm.
  rewrite (parseInt10_digits Hd Hdigs). cbn [num_or firstn app].
  f_equal.
  replace (d ++ w1 ++ s ++ (w2 ++ sp) ++ tl)
    with ((d ++ w1 ++ s ++ w2 ++ sp) ++ tl)
    by (now rewrite <- !app_assoc).
  now rewrite Nat.add_0_l, skipn_app, skipn_all, Nat.sub_diag.
Qed.

(** Whatever the name, the count that the quantity detection gives is at
    least 1, and the name it leaves is the end of the name it was given:
    only a prefix is ever removed. *)
Theorem detectQuantity_count_and_name (name : jsstring) :
  1 <= fst (detectQuantity name)
  /\ exists removed, name = removed ++ snd (detectQuantity name).
Proof.
  destruct (detectQuantity_cases name)
    as [->|(d & w1 & s & w2 & tl & Hq & Hname & ->)]; cbn [fst snd].
  - split; [lia|]. now exists [].
  - split.
    + destruct Hq as (_ & Hdigs & _).
      pose proof (digits_val_nonneg d Hdigs).
      destruct (Z.eqb_spec (digits_val d) 0); lia.
    + exists (d ++ w1 ++ s ++ w2). rewrite Hname.
      now rewrite <- !app_assoc.
Qed.

Lemma item_name_shown_clean (itemEl : Element) :
  forallb (fun c => negb (char_eqb c 59)) (item_name_shown itemEl) = true
  /\ (List.length (item_name_shown itemEl) <= 80)%nat.
Proof.
  unfold item_name_shown.
  destruct (text_of itemEl ARTICLE_NAME) as [|c t] eqn:E.
  - split; [reflexivity|]. cbn. lia.
  - unfold chr. rewrite replaceAll_class. unfold replaceAllClass, slice0.
    generalize (firstn_le_length 80 (c :: t)).
    generalize (firstn 80 (c :: t)). intros l Hl. split.
    + clear Hl. induction l as [|a l IH]; [reflexivity|].
      cbn [flat_map]. destruct (char_eqb 59 a) eqn:Ha.
      * cbn. exact IH.
      * cbn [app forallb]. rewrite IH, andb_true_r.
        unfold char_eqb in *. rewrite N.eqb_sym, Ha. reflexivity.
    + assert (Hlen : List.length
                       (flat_map (fun x => if char_eqb 59 x then lit "," else [x]) l)
                     = List.length l).
      { clear Hl. induction l as [|a l IH]; [reflexivity|].
        cbn [flat_map]. rewrite length_app, IH.
        now destruct (char_eqb 59 a). }
      rewrite Hlen. exact Hl.
Qed.

(** The name of an article, as it is written to the CSV file, holds no
    [;] and at most 80 code units, whatever the page shows. *)
Theorem item_name_clean (itemEl : Element) :
  forallb (fun c => negb (char_eqb c 59)) (item_name itemEl) = true
  /\ (List.length (item_name itemEl) <= 80)%nat.
Proof.
  destruct (item_name_shown_clean itemEl) as [Hsemi Hlen].
  unfold item_name.
  destruct (detectQuantity_cases (item_name_shown itemEl))
    as [->|(d & w1 & s & w2 & tl & _ & Hname & ->)]; cbn [snd];
    [now split|].
  rewrite Hname in Hsemi, Hlen.
  rewrite !forallb_app in Hsemi. rewrite !length_app in Hlen.
  repeat (apply andb_prop in Hsemi as [_ Hsemi]).
  split; [exact Hsemi|lia].
Qed.

(** ** The total of an order *)

Lemma usdToCents_nonneg (value : option jsstring) : 0 <= usdToCents value.
Proof.
  destruct value as [[|c v]|]; try (cbn; lia).
  destruct (exec currencyRegex
              (trim (replaceAllRuns is_space (lit " ") (c :: v))))
    as [m|] eqn:E.
  - destruct (@usdToCents_of_match (c :: v) m ltac:(discriminate) E)
      as (ds & c1 & c2 & _ & Hds & H1 & H2 & _ & ->).
    pose proof (digits_val_nonneg ds Hds).
    assert (0 <= digits_val [c1; c2])
      by (apply digits_val_nonneg; cbn; now rewrite H1, H2).
    lia.
  - rewrite usdToCents_unfold, E. lia.
Qed.

Lemma item_line_nonneg (itemEl : Element) : 0 <= item_line itemEl.
Proof.
  unfold item_line, item_single, item_count.
  pose proof (usdToCents_nonneg (Some (text_of itemEl ARTICLE_PRICE))).
  assert (Hc : 1 <= fst (detectQuantity (item_name_shown itemEl))).
  { destruct (detectQuantity_cases (item_name_shown itemEl))
      as [->|(d & w1 & s & w2 & tl & (_ & Hdigs & _) & _ & ->)];
      cbn [fst]; [lia|].
    pose proof (digits_val_nonneg d Hdigs).
    destruct (Z.eqb_spec (digits_val d) 0); lia. }
  nia.
Qed.

Lemma sumZ_nonneg {A} (f : A -> Z) (l : list A) :
  (forall x, 0 <= f x) -> 0 <= sumZ (List.map f l).
Proof.
  intros Hf. induction l as [|x l IH]; [cbn; lia|].
  unfold sumZ in *. cbn. specialize (Hf x). lia.
Qed.

Lemma filter_all_kept {A} (f : A -> bool) (l : list A) :
  forallb f l = true -> filter f l = l.
Proof.
  induction l as [|x l IH]; [reflexivity|]. cbn. intros H.
  apply andb_prop in H as [Hx Hl]. now rewrite Hx, IH.
Qed.

Lemma sumZ_filter_le {A} (f : A -> Z) (p : A -> bool) (l : list A) :
  (forall x, 0 <= f x) ->
  sumZ (List.map f (filter p l)) <= sumZ (List.map f l).
Proof.
  intros Hf. induction l as [|x l IH]; [cbn; lia|].
  cbn [filter]. specialize (Hf x).
  destruct (p x); unfold sumZ in *; cbn; lia.
Qed.

(** When no call fails, the amount that [processOrder] returns for an order
    is never negative and never less than what the articles that were not
    returned cost; for an order without returned shipments it is the larger
    of the price of the order and the sum of its line totals. *)
Theorem order_total_value (env : Env) (orderEl : Element) (p : jsstring)
  (w : World) :
  io_ok env ->
  order_listed orderEl = true ->
  exists total w',
    processOrder env orderEl p w = (Ok total, w')
    /\ 0 <= order_paid_after_returns orderEl <= total
    /\ total <= Z.max (order_price orderEl) (order_items_total orderEl)
    /\ (forallb (fun sh => negb (shipment_is_return sh))
          (order_shipments orderEl) = true ->
        total = Z.max (order_price orderEl) (order_items_total orderEl)).
Proof.
  intros Hio Hlist.
  destruct (processOrder_ok Hio orderEl p w Hlist) as (w1 & w' & Hrun & _).
  exists (order_paid_after_returns orderEl + order_shipping orderEl), w'.
  split; [exact Hrun|].
  assert (Hship : forall sh, 0 <= shipment_total sh)
    by (intros sh; apply sumZ_nonneg, item_line_nonneg).
  assert (Hpaid : 0 <= order_paid_after_returns orderEl)
    by (apply sumZ_nonneg, Hship).
  assert (Hle : order_paid_after_returns orderEl <= order_items_total orderEl)
    by (apply sumZ_filter_le, Hship).
  unfold order_shipping. split; [lia|]. split; [lia|].
  intros Hnone. unfold order_paid_after_returns, order_items_total.
  rewrite (filter_all_kept _ _ Hnone). lia.
Qed.

Lemma order_total_value_witness :
  exists w',
    processOrder (signed_in_env []) sample_order (lit "orders.csv") new_world
    = (Ok 2750, w').
Proof.
  destruct (@order_total_value (signed_in_env []) sample_order
              (lit "orders.csv") new_world (signed_in_env_io_ok []) eq_refl)
    as (total & w' & Hrun & _).
  exists w'. rewrite Hrun. f_equal.
  assert (E : fst (processOrder (signed_in_env []) sample_order
                     (lit "orders.csv") new_world) = Ok 2750)
    by (vm_compute; reflexivity).
  rewrite Hrun in E. exact E.
Defined.

(** ** Reading a line of the CSV file back *)

(** A field with its quotes doubled, followed by the closing quote and by
    text that does not start with a quote, can be read in one way only. *)
Lemma doubled_field_unique (a : jsstring) :
  forall (b t1 t2 : jsstring),
    hd_error t1 <> Some 34%N -> hd_error t2 <> Some 34%N ->
    replaceAllClass (char_eqb 34) (dquote ++ dquote) a ++ 34%N :: t1
    = replaceAllClass (char_eqb 34) (dquote ++ dquote) b ++ 34%N :: t2 ->
    a = b /\ t1 = t2.
Proof.
  unfold replaceAllClass, dquote.
  induction a as [|c a IH]; intros [|d b] t1 t2 H1 H2 E.
  - cbn [flat_map app] in E. injection E as ->. now split.
  - exfalso. cbn [flat_map app] in E. unfold char_eqb in E at 1.
    destruct (N.eqb_spec 34 d) as [<-|Hd]; cbn [app] in E.
    + injection E as E. rewrite E in H1. now apply H1.
    + injection E as E _. congruence.
  - exfalso. cbn [flat_map app] in E. unfold char_eqb in E at 1.
    destruct (N.eqb_spec 34 c) as [<-|Hc]; cbn [app] in E.
    + injection E as E. rewrite <- E in H2. now apply H2.
    + injection E as E _. congruence.
  - cbn [flat_map] in E. unfold char_eqb in E at 1 3.
    destruct (N.eqb_spec 34 c) as [<-|Hc], (N.eqb_spec 34 d) as [<-|Hd];
      cbn [app] in E.
    + injection E as E. destruct (IH b t1 t2 H1 H2 E) as [-> ->]. now split.
    + injection E as E _. congruence.
    + injection E as E _. congruence.
    + injection E as -> E. destruct (IH b t1 t2 H1 H2 E) as [-> ->].
      now split.
Qed.

Lemma csvField_escaped (s : jsstring) :
  csvField s
  = 34%N :: replaceAllClass (char_eqb 34) (dquote ++ dquote) s ++ [34%N].
Proof. unfold csvField, chr. now rewrite replaceAll_class. Qed.

(** Two rows that [writeCSVRow] writes as the same line are the same row:
    the quoting loses nothing, whatever quotes, semicolons or newlines the
    fields hold. *)
Theorem csvRow_injective (r1 r2 : list jsstring) :
  csvRow r1 = csvRow r2 -> r1 = r2.
Proof.
  unfold csvRow. revert r2.
  assert (Hjoin : forall x r,
            join (lit ";") (List.map csvField (x :: r)) ++ [10%N]
            = 34%N :: replaceAllClass (char_eqb 34) (dquote ++ dquote) x
                ++ 34%N :: match r with
                           | [] => [10%N]
                           | _ => 59%N :: join (lit ";") (List.map csvField r)
                                    ++ [10%N]
                           end).
  { intros x r. cbn [List.map]. destruct r as [|y r].
    - cbn [join List.map]. rewrite csvField_escaped. cbn.
      now rewrite <- app_assoc.
    - change (join (lit ";") (csvField x :: List.map csvField (y :: r)))
        with (csvField x ++ lit ";"
                ++ join (lit ";") (List.map csvField (y :: r))).
      rewrite csvField_escaped. cbn. rewrite <- !app_assoc. reflexivity. }
  induction r1 as [|x r1 IH]; intros [|y r2] E.
  - reflexivity.
  - rewrite Hjoin in E. cbn in E. discriminate.
  - rewrite Hjoin in E. cbn in E. discriminate.
  - rewrite !Hjoin in E. injection E as E.
    apply doubled_field_unique in E as [-> E].
    + f_equal. destruct r1 as [|x1 r1], r2 as [|y1 r2]; try discriminate.
      * reflexivity.
      * injection E as E. now apply IH.
    + now destruct r1.
    + now destruct r2.
Qed.

Lemma csvRow_injective_witness :
  [[34%N; 59%N]; lit "a"] = [[34%N; 59%N]; lit "a"].
Proof.
  apply (@csvRow_injective [[34%N; 59%N]; lit "a"] [[34%N; 59%N]; lit "a"]).
  reflexivity.
Defined.

(** ** Which statuses count as returned *)

Local Open Scope nat_scope.

Lemma startsWith_i_cons (a : char) (w : jsstring) (b : char) (s : jsstring) :
  startsWith_i (a :: w) (b :: s)
  = char_eqb (canonicalize b) (canonicalize a) && startsWith_i w s.
Proof. reflexivity. Qed.

Lemma matches_word_i (w : jsstring) :
  forall x,
    matches (word chr_i w) x
    = if startsWith_i w (rest x)
      then [mkState (endIndex x + List.length w)
              (skipn (List.length w) (rest x)) (captures x)]
      else [].
Proof.
  induction w as [|c w IH]; intros x.
  - destruct x as [i s cs]. cbn. now rewrite Nat.add_0_r.
  - destruct w as [|c' w'].
    + cbn [word chr_i matches startsWith_i List.length skipn].
      destruct (rest x) as [|b t]; [reflexivity|].
      rewrite andb_true_r.
      destruct (char_eqb (canonicalize b) (canonicalize c)); [|reflexivity].
      unfold advance. now rewrite Nat.add_1_r.
    + change (word chr_i (c :: c' :: w'))
        with (Seq (chr_i c) (word chr_i (c' :: w'))).
      cbn [matches chr_i].
      destruct (rest x) as [|b t]; [reflexivity|].
      rewrite (startsWith_i_cons c (c' :: w') b t).
      destruct (char_eqb (canonicalize b) (canonicalize c)); [|reflexivity].
      cbn [flat_map andb]. rewrite IH, app_nil_r. unfold advance.
      cbn [rest endIndex captures].
      destruct (startsWith_i (c' :: w') t); [|reflexivity].
      change (List.length (c :: c' :: w')) with (S (List.length (c' :: w'))).
      cbn [skipn]. do 2 f_equal. lia.
Qed.

Lemma test_somewhere (r : regex) (f : jsstring -> bool) :
  (forall i t, nonempty (matches r (mkState i t [])) = f t) ->
  forall s i,
    match exec_from r i s with Some _ => true | None => false end
    = somewhere f s.
Proof.
  intros Hf. induction s as [|c s IH]; intros i; cbn [exec_from somewhere];
    rewrite <- (Hf i); destruct (matches r _); cbn [nonempty orb];
    try reflexivity.
  apply IH.
Qed.

Lemma somewhere_or (f g : jsstring -> bool) (s : jsstring) :
  somewhere (fun t => f t || g t) s = somewhere f s || somewhere g s.
Proof.
  induction s as [|c s IH]; cbn [somewhere].
  - now rewrite !orb_false_r.
  - rewrite IH. destruct (f (c :: s)), (g (c :: s)), (somewhere f s),
      (somewhere g s); reflexivity.
Qed.

Lemma somewhere_ext (f g : jsstring -> bool) (s : jsstring) :
  (forall t, f t = g t) -> somewhere f s = somewhere g s.
Proof.
  intros H. induction s as [|c s IH]; cbn [somewhere]; rewrite H;
    [reflexivity|now rewrite IH].
Qed.

Lemma startsWith_i_fold (w1 w2 : jsstring) :
  List.map canonicalize w1 = List.map canonicalize w2 ->
  forall s, startsWith_i w1 s = startsWith_i w2 s.
Proof.
  revert w2. induction w1 as [|a w1 IH]; intros [|b w2] E s;
    try discriminate; [reflexivity|].
  cbn [List.map] in E. injection E as Ea Ew.
  cbn [startsWith_i]. destruct s as [|d s]; [reflexivity|].
  now rewrite Ea, (IH w2 Ew).
Qed.

Lemma startsWith_i_longer (w more s : jsstring) :
  startsWith_i (w ++ more) s = true -> startsWith_i w s = true.
Proof.
  revert s. induction w as [|a w IH]; intros s H; [reflexivity|].
  cbn [app startsWith_i] in *. destruct s as [|d s]; [discriminate|].
  apply andb_prop in H as [Ha Hw]. now rewrite Ha, (IH s Hw).
Qed.

Lemma nonempty_app {A} (l1 l2 : list A) :
  nonempty (l1 ++ l2) = nonempty l1 || nonempty l2.
Proof. now destruct l1. Qed.

Lemma nonempty_map {A B} (f : A -> B) (l : list A) :
  nonempty (List.map f l) = nonempty l.
Proof. now destruct l. Qed.

Lemma nonempty_word_i (w : jsstring) (x : MatchState) :
  nonempty (matches (word chr_i w) x) = startsWith_i w (rest x).
Proof. rewrite matches_word_i. now destruct (startsWith_i w (rest x)). Qed.

(** [returnedRegex] is not anchored and ignores letter case: a status counts
    as returned exactly when it holds "return", "refund" or "replacement"
    somewhere, in any case (so "Return window closed" counts as well); the
    alternatives "Returned" and "Refunded" of the pattern add nothing. *)
Theorem returnedRegex_contains (s : jsstring) :
  test returnedRegex s
  = includes_i (lit "return") s || includes_i (lit "refund") s
    || includes_i (lit "replacement") s.
Proof.
  unfold test, exec, includes_i.
  rewrite <- !somewhere_or.
  apply test_somewhere. intros i t.
  unfold returnedRegex. cbn [matches].
  rewrite nonempty_map, !nonempty_app, !nonempty_word_i. cbn [rest].
  rewrite (@startsWith_i_fold (lit "Return") (lit "return") eq_refl).
  rewrite (@startsWith_i_fold (lit "Refund") (lit "refund") eq_refl).
  rewrite (@startsWith_i_fold (lit "Replacement") (lit "replacement") eq_refl).
  rewrite (@startsWith_i_fold (lit "Returned") (lit "returned") eq_refl).
  rewrite (@startsWith_i_fold (lit "Refunded") (lit "refunded") eq_refl).
  pose proof (@startsWith_i_longer (lit "return") (lit "ed") t) as H1.
  pose proof (@startsWith_i_longer (lit "refund") (lit "ed") t) as H2.
  change (lit "return" ++ lit "ed") with (lit "returned") in H1.
  change (lit "refund" ++ lit "ed") with (lit "refunded") in H2.
  destruct (startsWith_i (lit "returned") t);
    destruct (startsWith_i (lit "refunded") t);
    destruct (startsWith_i (lit "return") t);
    destruct (startsWith_i (lit "refund") t);
    destruct (startsWith_i (lit "replacement") t);
    try reflexivity;
    try (specialize (H1 eq_refl); discriminate);
    try (specialize (H2 eq_refl); discriminate).
Qed.

Local Open Scope Z_scope.

(** ** Amounts that are printed and read again *)

(** An amount that [centsToUSD] has printed is read back by [usdToCents]
    from inside any text that shows no digit before it; the sign of a
    negative amount is lost on the way. *)
Theorem centsToUSD_embedded (pre post : jsstring) (c : Z) :
  forallb (fun d => negb (is_digit d)) pre = true ->
  - 2 ^ 52 < c < 2 ^ 52 ->
  usdToCents (Some (pre ++ centsToUSD c ++ post)) = Z.abs c.
Proof.
  intros Hpre Hc.
  rewrite centsToUSD_exact
    by (change (100 * 2 ^ 46) with (2 ^ 52 + 36 * 2 ^ 46); lia).
  set (a := Z.abs c). assert (Ha : 0 <= a < 2 ^ 52) by (unfold a; lia).
  set (sign := if Z.ltb c 0 then lit "-" else []).
  assert (Hsign : forallb (fun d => negb (is_digit d)) (pre ++ sign) = true).
  { rewrite forallb_app, Hpre. unfold sign. now destruct (Z.ltb c 0). }
  destruct (to_digits_spec (n:=a / 100)) as (Hne & Hds & Hval);
    [apply Z.div_pos; lia|].
  set (ds := to_digits (a / 100)) in *.
  destruct (digit_char_digit (d:=a mod 100 / 10)) as [H1 V1].
  { pose proof (Z.mod_pos_bound a 100 ltac:(lia)).
    split; [apply Z.div_pos; lia|].
    apply Z.lt_succ_r, Z.div_lt_upper_bound; lia. }
  destruct (digit_char_digit (d:=a mod 10)) as [H2 V2].
  { pose proof (Z.mod_pos_bound a 10 ltac:(lia)). lia. }
  set (d1 := digit_char (a mod 100 / 10)) in *.
  set (d2 := digit_char (a mod 10)) in *.
  change (lit ".") with [46%N]. cbn [app].
  replace (pre ++ (sign ++ ds ++ 46%N :: [d1; d2]) ++ post)
    with ((pre ++ sign) ++ (ds ++ 46%N :: [d1; d2]) ++ post)
    by (now rewrite <- !app_assoc).
  rewrite (@usdToCents_amount (pre ++ sign) (ds ++ 46%N :: [d1; d2]) post
             ds d1 d2); auto.
  - rewrite Hval. unfold digits_val. cbn [fold_left]. rewrite V1, V2.
    pose proof (Z.div_mod a 100 ltac:(lia)).
    pose proof (Z.div_mod (a mod 100) 10 ltac:(lia)).
    assert (a mod 100 mod 10 = a mod 10).
    { apply Z.mod_mod_divide. exists 10. reflexivity. }
    lia.
  - destruct ds as [|d t]; [congruence|]. exists d. eexists.
    split; [reflexivity|]. cbn in Hds. now apply andb_prop in Hds as [Hd _].
  - now apply amount_no_space.
  - intros x tl Hx. rewrite <- app_assoc in Hx. cbn [app] in Hx.
    replace (List.length (ds ++ 46%N :: [d1; d2]))
      with (List.length ds + 3)%nat by (rewrite length_app; cbn; lia).
    destruct (le_lt_dec (List.length ds) 3) as [Hshort|Hlong].
    + replace (List.length ds + 3)%nat
        with (List.length ds
              + List.length (flat_map (fun g : list N => 44%N :: g) []) + 3)%nat
        by (cbn; lia).
      apply lands_body_grouped with d1 d2 tl; auto.
    + apply lands_body_plain with d1 d2 tl; auto.
  - now rewrite keep_app, (keep_digits _ Hds), (@keep_fraction _ _ H1 H2).
Qed.

Lemma centsToUSD_embedded_witness :
  usdToCents (Some (lit "refund: $" ++ centsToUSD (-1999) ++ lit " (2 items)"))
  = 1999.
Proof.
  apply (@centsToUSD_embedded (lit "refund: $") (lit " (2 items)") (-1999)).
  - reflexivity.
  - split; [reflexivity|reflexivity].
Defined.

(** ** Amounts without cents *)

Lemma In_trimStart (x : char) (s : jsstring) : In x (trimStart s) -> In x s.
Proof.
  induction s as [|c s IH]; [easy|]. cbn [trimStart].
  destruct (is_space c); [right; now apply IH|easy].
Qed.

Lemma In_trim (x : char) (s : jsstring) : In x (trim s) -> In x s.
Proof.
  unfold trim, trimEnd. intros H.
  apply In_rev, In_trimStart in H. rewrite <- In_rev in H.
  now apply In_trimStart.
Qed.

Lemma In_replaceAllRuns (p : char -> bool) (repl : jsstring) (x : char)
  (s : jsstring) :
  forall inRun,
    In x (replaceAllRuns_aux p repl inRun s) -> In x repl \/ In x s.
Proof.
  induction s as [|c s IH]; intros inRun H; [easy|].
  cbn [replaceAllRuns_aux] in H. destruct (p c).
  - apply in_app_or in H as [H|H].
    + destruct inRun; [easy|now left].
    + destruct (IH true H); [now left|right; now right].
  - destruct H as [->|H]; [right; now left|].
    destruct (IH false H); [now left|right; now right].
Qed.

Lemma In_keep (x : char) (s : jsstring) : In x (keep s) -> In x s.
Proof.
  unfold replaceAllClass. rewrite in_flat_map. intros (c & Hc & Hx).
  destruct (negb _); [easy|]. destruct Hx as [<-|[]]. exact Hc.
Qed.

(** An amount needs its cents: a text without a decimal point is worth 0,
    even when it shows a whole number of dollars. *)
Theorem usdToCents_needs_point (s : jsstring) :
  forallb (fun c => negb (char_eqb c 46)) s = true ->
  usdToCents (Some s) = 0.
Proof.
  intros Hs. destruct s as [|c v]; [reflexivity|].
  destruct (exec currencyRegex
              (trim (replaceAllRuns is_space (lit " ") (c :: v))))
    as [m|] eqn:E; [|now rewrite usdToCents_unfold, E].
  exfalso.
  destruct (@usdToCents_of_match (c :: v) m ltac:(discriminate) E)
    as (ds & c1 & c2 & _ & _ & _ & _ & Hkeep & _).
  assert (Hin : In 46%N (matched m)).
  { apply In_keep. rewrite Hkeep. apply in_or_app. right. now left. }
  unfold exec in E. apply exec_from_sound in E as (pre & post & Hsplit & _).
  assert (Hin' : In 46%N (c :: v)).
  { assert (H : In 46%N (trim (replaceAllRuns is_space (lit " ") (c :: v)))).
    { rewrite Hsplit. apply in_or_app. right. apply in_or_app. now left. }
    apply In_trim, In_replaceAllRuns in H as [H|H]; [|exact H].
    destruct H as [H|[]]. discriminate. }
  rewrite forallb_forall in Hs. specialize (Hs _ Hin'). discriminate.
Qed.

Lemma usdToCents_needs_point_witness : usdToCents (Some (lit "$1,234")) = 0.
Proof. apply usdToCents_needs_point. reflexivity. Defined.

(** ** The pages of a year *)

Section Pages.

Variable env : Env.

(** Past the checks of a page that shows its orders, the loop is at the
    orders themselves. *)
Lemma processYear_loop_page fuel year p q offset total w orderEls :
  page_shows env w orderEls ->
  processYear_loop env (S fuel) year p q offset total w
  = (if Nat.eqb (List.length orderEls) 0 then ret total
     else
       yearTotal <-
         for_of orderEls
           (fun t orderEl =>
              orderTotal <- processOrder env orderEl p ;;
              ret (t + orderTotal))
           total ;;
       if Nat.ltb (List.length orderEls) 10 then ret yearTotal
       else processYear_loop env fuel year p q (offset + 10) yearTotal)%js
      (tick (tick (tick (tick w)))).
Proof.
  intros (Hgoto & (c & Hc) & Hall).
  set (listUrl := BASE_URL
         ++ lit "/gp/your-account/order-history?orderFilter=year-"
         ++ year ++ lit "&startIndex=" ++ numToString offset).
  assert (H1 : page_goto env listUrl w = (Ok tt, tick w))
    by (unfold page_goto, io_call; now rewrite Hgoto).
  assert (H2 : page_query env ORDER_CONTAINER (tick w)
               = (Ok (Some c), tick (tick w)))
    by (unfold page_query; cbn [tick step];
        change (S (step w)) with (1 + step w)%nat; now rewrite Hc).
  assert (H3 : try_catch (page_waitForSelector env ORDER_GROUP 5000)
                 (fun _ => ret tt) (tick (tick w))
               = (Ok tt, tick (tick (tick w)))).
  { unfold try_catch, page_waitForSelector, io_call.
    now destruct (e_io env (step (tick (tick w)))) as [[]|e]. }
  assert (H4 : page_queryAll env ORDER_GROUP (tick (tick (tick w)))
               = (Ok orderEls, tick (tick (tick (tick w)))))
    by (unfold page_queryAll; cbn [tick step];
        change (S (S (S (step w)))) with (3 + step w)%nat; now rewrite Hall).
  cbn [processYear_loop]. fold listUrl.
  rewrite (bind_ok _ H1), (bind_ok _ H2).
  unfold bind at 1, ret at 1.
  rewrite (bind_ok _ H3), (bind_ok _ H4). reflexivity.
Qed.

Hypothesis Hio : io_ok env.

Lemma processOrder_rows orderEl p w :
  order_listed orderEl = true ->
  exists w',
    processOrder env orderEl p w = (Ok (order_total orderEl), w')
    /\ appended p (order_rows orderEl) w w'.
Proof.
  intros Hlist.
  destruct (processOrder_ok Hio orderEl p w Hlist)
    as (w1 & w' & Hrun & Hitems & Hpos & Hzero).
  exists w'. split; [exact Hrun|]. unfold order_rows.
  eapply appended_trans; [exact Hitems|].
  assert (Hnn : 0 <= order_shipping orderEl)
    by (unfold order_shipping; lia).
  destruct (Z.ltb_spec 0 (order_shipping orderEl)) as [H|H].
  - now apply Hpos.
  - rewrite (Hzero ltac:(lia)). apply appended_refl.
Qed.

Lemma process_orders_ok p (orderEls : list Element) :
  forallb order_listed orderEls = true ->
  forall total w,
  exists w',
    for_of orderEls
      (fun t orderEl =>
         orderTotal <- processOrder env orderEl p ;;
         ret (t + orderTotal))
      total w
    = (Ok (total + sumZ (List.map order_total orderEls)), w')
    /\ appended p (flat_map order_rows orderEls) w w'.
Proof.
  induction orderEls as [|o orderEls IH]; intros Hlist total w.
  - exists w. cbn. rewrite Z.add_0_r. split; [reflexivity|].
    apply appended_refl.
  - cbn [forallb] in Hlist. apply andb_prop in Hlist as [Ho Hrest].
    destruct (processOrder_rows o p w Ho) as (w1 & Hrun & Happ1).
    destruct (IH Hrest (total + order_total o) w1) as (w' & Hloop & Happ2).
    exists w'. cbn [for_of]. rewrite (bind_ok _ (bind_ok _ Hrun)).
    split.
    + rewrite Hloop. cbn [List.map]. unfold sumZ. cbn [fold_right].
      do 2 f_equal. lia.
    + cbn [flat_map]. eapply appended_trans; eassumption.
Qed.

End Pages.

(** A list page without orders ends the year: [processYear] returns the
    total so far, here 0, and writes to no file.  The page does not have to
    pass [page.waitForSelector]: its rejection is ignored. *)
Theorem processYear_empty_page (env : Env) (fuel : nat)
  (year p q : jsstring) (w : World) :
  page_shows env w [] ->
  exists w',
    processYear env (S fuel) year p q w = (Ok 0, w') /\ files w' = files w.
Proof.
  intros Hpage. unfold processYear.
  rewrite (processYear_loop_page _ _ _ _ _ _ Hpage). cbn.
  eexists. split; reflexivity.
Qed.

Lemma processYear_empty_page_witness :
  fst (processYear (signed_in_env []) 1 (lit "2024") (lit "orders.csv")
         (lit "cookies.json") new_world) = Ok 0.
Proof.
  destruct (@processYear_empty_page (signed_in_env []) 0 (lit "2024")
              (lit "orders.csv") (lit "cookies.json") new_world)
    as (w' & Hrun & _).
  - split; [reflexivity|]. split; [|reflexivity].
    exists (text_node "orders"). reflexivity.
  - now rewrite Hrun.
Defined.

(** A list page with fewer than ten orders is the last one of its year:
    when no call fails, [processYear] processes its orders in the order of
    the page, adds their rows to the CSV file, returns the sum of what
    [processOrder] returned for them, and asks for no further page. *)
Theorem processYear_last_page (env : Env) (fuel : nat)
  (year p q : jsstring) (orderEls : list Element) (w : World) :
  io_ok env ->
  page_shows env w orderEls ->
  (List.length orderEls < 10)%nat ->
  forallb order_listed orderEls = true ->
  exists w',
    processYear env (S fuel) year p q w
    = (Ok (sumZ (List.map order_total orderEls)), w')
    /\ file_content w' p
       = file_content w p
           ++ List.concat (List.map csvRow (flat_map order_rows orderEls)).
Proof.
  intros Hio Hpage Hshort Hlist. unfold processYear.
  rewrite (processYear_loop_page _ _ _ _ _ _ Hpage).
  destruct orderEls as [|o orderEls].
  - cbn. eexists. split; [reflexivity|]. now rewrite app_nil_r.
  - cbn [List.length Nat.eqb].
    destruct (process_orders_ok Hio p (o :: orderEls) Hlist 0
                (tick (tick (tick (tick w))))) as (w' & Hrun & Happ).
    exists w'. rewrite (bind_ok _ Hrun).
    replace (Nat.ltb (S (List.length orderEls)) 10) with true
      by (symmetry; apply Nat.ltb_lt; exact Hshort).
    split; [reflexivity|exact Happ].
Qed.

Lemma processYear_last_page_witness :
  fst (processYear (signed_in_env [sample_order]) 1 (lit "2024")
         (lit "orders.csv") (lit "cookies.json") new_world) = Ok 2750.
Proof.
  destruct (@processYear_last_page (signed_in_env [sample_order]) 0
              (lit "2024") (lit "orders.csv") (lit "cookies.json")
              [sample_order] new_world
              (signed_in_env_io_ok [sample_order]))
    as (w' & Hrun & _).
  - split; [reflexivity|]. split; [|reflexivity].
    exists (text_node "orders"). reflexivity.
  - cbn. lia.
  - reflexivity.
  - rewrite Hrun. reflexivity.
Defined.

(** A list page with ten orders or more is not the last one: when no call
    fails, the loop of [processYear] processes its orders and goes on with
    the page that starts ten orders further, carrying the total. *)
Theorem processYear_next_page (env : Env) (fuel : nat)
  (year p q : jsstring) (offset total : Z) (orderEls : list Element)
  (w : World) :
  io_ok env ->
  page_shows env w orderEls ->
  (10 <= List.length orderEls)%nat ->
  forallb order_listed orderEls = true ->
  exists w',
    processYear_loop env (S fuel) year p q offset total w
    = processYear_loop env fuel year p q (offset + 10)
        (total + sumZ (List.map order_total orderEls)) w'
    /\ file_content w' p
       = file_content w p
           ++ List.concat (List.map csvRow (flat_map order_rows orderEls)).
Proof.
  intros Hio Hpage Hfull Hlist.
  rewrite (processYear_loop_page _ _ _ _ _ _ Hpage).
  destruct (process_orders_ok Hio p orderEls Hlist total
              (tick (tick (tick (tick w))))) as (w' & Hrun & Happ).
  exists w'.
  replace (Nat.eqb (List.length orderEls) 0) with false
    by (symmetry; apply Nat.eqb_neq; lia).
  rewrite (bind_ok _ Hrun).
  replace (Nat.ltb (List.length orderEls) 10) with false
    by (symmetry; apply Nat.ltb_ge; exact Hfull).
  split; [reflexivity|exact Happ].
Qed.

Lemma paged_env_io_ok : io_ok paged_env.
Proof. intros n. reflexivity. Qed.

Lemma processYear_next_page_witness :
  exists w',
    processYear paged_env 2 (lit "2024") (lit "orders.csv")
      (lit "cookies.json") new_world
    = processYear_loop paged_env 1 (lit "2024") (lit "orders.csv")
        (lit "cookies.json") 10 27500 w'.
Proof.
  destruct (@processYear_next_page paged_env 1 (lit "2024")
              (lit "orders.csv") (lit "cookies.json") 0 0
              (repeat sample_order 10) new_world paged_env_io_ok)
    as (w' & Hrun & _).
  - split; [reflexivity|]. split; [|reflexivity].
    exists (text_node "orders"). reflexivity.
  - cbn. lia.
  - reflexivity.
  - exists w'. exact Hrun.
Defined.

(** ** The CSV file over a whole run *)

(** As long as the sign-in has not succeeded, [main] has not touched the CSV
    file: when the setup or the sign-in fails (the wait times out, a call is
    rejected), [main] fails in the same way and the file of an earlier run
    is still what it was. *)
Theorem main_fails_before_csv (env : Env) (fuel : nat) (wi w1 : World)
  (e : jsstring) :
  (main_setup env ;;;
   ensureSignedInAndOnOrders env fuel (saveCookies env (cookiesPath env)))%js
    wi = (Throw e, w1) ->
  main env fuel wi = (Throw e, w1)
  /\ file_content w1 (csvPath env) = file_content wi (csvPath env).
Proof.
  intros H.
  pose proof (@preserves_main_setup env
                (fun c => c = file_content wi (csvPath env)) wi eq_refl)
    as Hsetup.
  unfold main. unfold bind at 1 in H. unfold bind at 1.
  destruct (main_setup env wi) as [[[]|e0|] w0] eqn:E0; cbn [snd] in Hsetup.
  - pose proof (@preserves_sign_in env
                  (fun c => c = file_content wi (csvPath env)) fuel w0 Hsetup)
      as Hsign.
    unfold bind at 1. rewrite H in Hsign |- *. split; [reflexivity|].
    exact Hsign.
  - injection H as -> ->. split; [reflexivity|exact Hsetup].
  - discriminate.
Qed.

Lemma main_fails_before_csv_witness :
  fst (main (signed_out_env (fun n => Z.of_nat n * 100000)) 5 new_world)
  = Throw timedOut.
Proof.
  pose (env := signed_out_env (fun n => Z.of_nat n * 100000)).
  destruct (@main_fails_before_csv env 5 new_world
              (snd ((main_setup env ;;;
                     ensureSignedInAndOnOrders env 5
                       (saveCookies env (cookiesPath env)))%js new_world))
              timedOut) as [Hmain _].
  - vm_compute. reflexivity.
  - fold env. rewrite Hmain. reflexivity.
Defined.

(** When [main] runs to its end, the CSV file is the header followed by
    lines of seven fields and nothing else: what the file held before the
    run is gone. *)
Theorem main_done_csv (env : Env) (fuel : nat) (wi : World) :
  fst (main env fuel wi) = Ok tt ->
  rows_after csvHeader (file_content (snd (main env fuel wi)) (csvPath env)).
Proof.
  intros H.
  pose proof (@runs_main env (file_content wi (csvPath env)) fuel wi eq_refl)
    as Hrun.
  destruct (main env fuel wi) as [[[]|e|] w']; try discriminate.
  exact Hrun.
Qed.

Lemma main_done_csv_witness :
  rows_after csvHeader
    (file_content (snd (main (signed_in_env [sample_order]) 1 new_world))
       (csvPath (signed_in_env [sample_order]))).
Proof.
  apply main_done_csv. vm_compute. reflexivity.
Defined.

(** ** Reading the details page of an order *)

Lemma reads_only_ret A (a : A) : reads_only (ret a).
Proof. intros w. now repeat split. Qed.

Lemma reads_only_lift A (a : Answer A) : reads_only (lift a).
Proof. intros w. repeat split. now destruct a. Qed.

Lemma reads_only_bind A B (m : M A) (f : A -> M B) :
  reads_only m -> (forall a, reads_only (f a)) -> reads_only (bind m f).
Proof.
  intros Hm Hf w. unfold bind. destruct (Hm w) as (H1 & H2 & H3).
  destruct (m w) as [[a|e|] w1]; cbn in *.
  - destruct (Hf a w1) as (F1 & F2 & F3). rewrite F1, F2. now repeat split.
  - now repeat split.
  - congruence.
Qed.

Lemma reads_only_for_of A S (xs : list A) (body : S -> A -> M S) :
  (forall acc x, reads_only (body acc x)) ->
  forall acc, reads_only (for_of xs body acc).
Proof.
  intros Hbody. induction xs as [|x xs IH]; intros acc; cbn [for_of].
  - apply reads_only_ret.
  - apply reads_only_bind; [apply Hbody|exact IH].
Qed.

Lemma reads_only_io_call env : reads_only (io_call env).
Proof.
  intros w. unfold io_call. repeat split. cbn.
  now destruct (e_io env (step w)).
Qed.

Lemma reads_only_page_query env selector :
  reads_only (page_query env selector).
Proof.
  intros w. unfold page_query. repeat split. cbn.
  now destruct (e_query env (step w) selector).
Qed.

Lemma reads_only_page_queryAll env selector :
  reads_only (page_queryAll env selector).
Proof.
  intros w. unfold page_queryAll. repeat split. cbn.
  now destruct (e_queryAll env (step w) selector).
Qed.

Lemma ensures_ret A (P : A -> Prop) (a : A) : P a -> ensures P (ret a).
Proof. intros H w a' w' E. now injection E as <- _. Qed.

Lemma ensures_bind A B (Q : A -> Prop) (P : B -> Prop) (m : M A)
  (f : A -> M B) :
  ensures Q m -> (forall a, Q a -> ensures P (f a)) -> ensures P (bind m f).
Proof.
  intros Hm Hf w b w' E. unfold bind in E.
  destruct (m w) as [[a|e|] w1] eqn:Em; try discriminate.
  exact (Hf a (Hm _ _ _ Em) _ _ _ E).
Qed.

Lemma ensures_any A (m : M A) : ensures (fun _ => True) m.
Proof. intros w a w' _. exact I. Qed.

Lemma ensures_for_of A S (P : S -> Prop) (xs : list A) (body : S -> A -> M S) :
  (forall acc x, P acc -> ensures P (body acc x)) ->
  forall acc, P acc -> ensures P (for_of xs body acc).
Proof.
  intros Hbody. induction xs as [|x xs IH]; intros acc Hacc; cbn [for_of].
  - now apply ensures_ret.
  - eapply ensures_bind; [now apply Hbody|]. intros acc' Hacc'. now apply IH.
Qed.

Lemma try_catch_null A (m : M (option A)) :
  reads_only m ->
  forall w,
  exists r w',
    try_catch m (fun _ => ret None) w = (Ok r, w')
    /\ files w' = files w /\ jar w' = jar w.
Proof.
  intros Hm w. unfold try_catch. destruct (Hm w) as (H1 & H2 & H3).
  destruct (m w) as [[r|e|] w1]; cbn in *.
  - now exists r, w1.
  - now exists None, w1.
  - congruence.
Qed.

Section DetailsPage.

Import OrderDetails.

Variable env : Env.
Variable toLowerCase : jsstring -> jsstring.

Lemma reads_only_evaluate f el : reads_only (evaluate f el).
Proof. apply reads_only_lift. Qed.

Lemma reads_only_trimmedText el : reads_only (trimmedText el).
Proof.
  destruct el; [apply reads_only_evaluate|apply reads_only_ret].
Qed.

Lemma reads_only_findOrderPlaced rows :
  reads_only (findOrderPlaced toLowerCase rows).
Proof.
  induction rows as [|row rows IH]; cbn [findOrderPlaced].
  - apply reads_only_ret.
  - apply reads_only_bind; [apply reads_only_evaluate|]. intros text.
    destruct (includes _ text); [|exact IH].
    apply reads_only_bind; [apply reads_only_evaluate|]. intros fullText.
    destruct (exec dateRegex fullText); [apply reads_only_ret|exact IH].
Qed.

Lemma reads_only_readSummaryRow financial row :
  reads_only (readSummaryRow toLowerCase financial row).
Proof.
  unfold readSummaryRow.
  apply reads_only_bind; [apply reads_only_evaluate|]. intros rowText.
  apply reads_only_bind; [apply reads_only_lift|]. intros [v|].
  - apply reads_only_bind; [apply reads_only_evaluate|]. intros value.
    apply reads_only_ret.
  - apply reads_only_ret.
Qed.

Lemma reads_only_readItem shipmentStatus items itemContainer :
  reads_only (readItem shipmentStatus items itemContainer).
Proof.
  unfold readItem.
  apply reads_only_bind; [apply reads_only_lift|]. intros nameEl.
  apply reads_only_bind; [apply reads_only_trimmedText|]. intros [|c nm].
  - apply reads_only_ret.
  - apply reads_only_bind; [apply reads_only_lift|]. intros priceEl.
    apply reads_only_bind; [apply reads_only_trimmedText|]. intros price.
    apply reads_only_bind; [apply reads_only_lift|]. intros qtyEl.
    apply reads_only_bind; [|intros q; apply reads_only_ret].
    destruct qtyEl; [|apply reads_only_ret].
    apply reads_only_bind; [apply reads_only_evaluate|]. intros t.
    apply reads_only_ret.
Qed.

Lemma reads_only_readShipment items shipment :
  reads_only (readShipment items shipment).
Proof.
  unfold readShipment.
  apply reads_only_bind; [apply reads_only_lift|]. intros statusEl.
  apply reads_only_bind.
  - destruct statusEl; [|apply reads_only_ret].
    apply reads_only_bind; [apply reads_only_evaluate|]. intros t.
    apply reads_only_ret.
  - intros shipmentStatus.
    apply reads_only_bind; [apply reads_only_lift|]. intros itemContainers.
    apply reads_only_for_of. intros acc x. apply reads_only_readItem.
Qed.

Lemma getOrderDetails_reads (detailsHref : option jsstring) (w : World) :
  exists r w',
    getOrderDetails env toLowerCase detailsHref w = (Ok r, w')
    /\ files w' = files w /\ jar w' = jar w.
Proof.
  unfold getOrderDetails.
  destruct detailsHref as [[|c href]|]; try (now exists None, w).
  apply try_catch_null.
  { apply reads_only_bind; [apply reads_only_io_call|]. intros _.
    apply reads_only_bind; [apply reads_only_io_call|]. intros _.
    apply reads_only_bind; [apply reads_only_page_queryAll|]. intros _.
    apply reads_only_bind; [apply reads_only_page_queryAll|]. intros _.
    apply reads_only_bind; [apply reads_only_page_query|]. intros dateEl.
    apply reads_only_bind; [apply reads_only_trimmedText|]. intros date.
    apply reads_only_bind.
    { destruct date; [|apply reads_only_ret].
      apply reads_only_bind; [apply reads_only_page_queryAll|]. intros rows.
      apply reads_only_findOrderPlaced. }
    intros date'.
    apply reads_only_bind; [apply reads_only_page_queryAll|]. intros rows.
    apply reads_only_bind.
    { apply reads_only_for_of. intros acc x. apply reads_only_readSummaryRow. }
    intros financial.
    apply reads_only_bind; [apply reads_only_page_queryAll|]. intros ships.
    apply reads_only_bind.
    { apply reads_only_for_of. intros acc x. apply reads_only_readShipment. }
    intros its. apply reads_only_ret. }
Qed.

End DetailsPage.

(** [getOrderDetails] never throws: it returns the details or [null],
    whatever the page answers, and it returns [null] at once, without a
    call, when there is no link.  It writes no file and sets no cookie. *)
Theorem getOrderDetails_never_throws (env : Env)
  (toLowerCase : jsstring -> jsstring) (detailsHref : option jsstring)
  (w : World) :
  (exists r w',
     OrderDetails.getOrderDetails env toLowerCase detailsHref w = (Ok r, w')
     /\ files w' = files w /\ jar w' = jar w)
  /\ OrderDetails.getOrderDetails env toLowerCase None w = (Ok None, w)
  /\ OrderDetails.getOrderDetails env toLowerCase (Some []) w = (Ok None, w).
Proof.
  split; [apply getOrderDetails_reads|now split].
Qed.

Section DetailsItems.

Import OrderDetails.

Variable env : Env.
Variable toLowerCase : jsstring -> jsstring.

Lemma readQty_positive (qtyText : jsstring) : 1 <= readQty qtyText.
Proof.
  unfold readQty. destruct (parseInt10 qtyText) as [n|]; [|lia].
  destruct (Z.gtb_spec n 0); lia.
Qed.

Lemma readItem_well_formed shipmentStatus items itemContainer :
  shipmentStatus <> [] ->
  Forall item_well_formed items ->
  ensures (Forall item_well_formed)
    (readItem shipmentStatus items itemContainer).
Proof.
  intros Hstatus Hitems. unfold readItem.
  eapply ensures_bind; [apply ensures_any|]. intros nameEl _.
  eapply ensures_bind; [apply ensures_any|]. intros [|c nm] _.
  - now apply ensures_ret.
  - eapply ensures_bind; [apply ensures_any|]. intros priceEl _.
    eapply ensures_bind; [apply ensures_any|]. intros price _.
    eapply ensures_bind; [apply ensures_any|]. intros qtyEl _.
    apply ensures_bind with (Q := fun q => 1 <= q).
    + destruct qtyEl as [e|]; [|apply ensures_ret; lia].
      eapply ensures_bind; [apply ensures_any|]. intros t _.
      apply ensures_ret, readQty_positive.
    + intros q Hq. apply ensures_ret. apply Forall_app. split; [exact Hitems|].
      constructor; [|constructor]. repeat split; cbn; [discriminate|exact Hq|
        exact Hstatus].
Qed.

Lemma readShipment_well_formed items shipment :
  Forall item_well_formed items ->
  ensures (Forall item_well_formed) (readShipment items shipment).
Proof.
  intros Hitems. unfold readShipment.
  eapply ensures_bind; [apply ensures_any|]. intros statusEl _.
  apply ensures_bind with (Q := fun s => s <> []).
  - destruct statusEl as [e|]; [|apply ensures_ret; discriminate].
    eapply ensures_bind; [apply ensures_any|]. intros [|c t] _;
      apply ensures_ret; discriminate.
  - intros shipmentStatus Hstatus.
    eapply ensures_bind; [apply ensures_any|]. intros itemContainers _.
    apply ensures_for_of; [|exact Hitems].
    intros acc x Hacc. now apply readItem_well_formed.
Qed.

Lemma getOrderDetails_well_formed detailsHref :
  ensures (fun r => match r with
                    | Some details => Forall item_well_formed (items details)
                    | None => True
                    end)
    (getOrderDetails env toLowerCase detailsHref).
Proof.
  unfold getOrderDetails.
  destruct detailsHref as [[|c href]|]; try (now apply ensures_ret).
  intros w r w' E. unfold try_catch in E.
  match type of E with
  | context [bind ?m ?f w] =>
      assert (Hbody : ensures (fun r => match r with
                                        | Some details =>
                                            Forall item_well_formed (items details)
                                        | None => True
                                        end) (bind m f))
  end.
  { eapply ensures_bind; [apply ensures_any|]. intros _ _.
    eapply ensures_bind; [apply ensures_any|]. intros _ _.
    eapply ensures_bind; [apply ensures_any|]. intros _ _.
    eapply ensures_bind; [apply ensures_any|]. intros _ _.
    eapply ensures_bind; [apply ensures_any|]. intros dateEl _.
    eapply ensures_bind; [apply ensures_any|]. intros date _.
    eapply ensures_bind; [apply ensures_any|]. intros date' _.
    eapply ensures_bind; [apply ensures_any|]. intros rows _.
    eapply ensures_bind; [apply ensures_any|]. intros financial _.
    eapply ensures_bind; [apply ensures_any|]. intros ships _.
    apply ensures_bind with (Q := Forall item_well_formed).
    - apply ensures_for_of; [|constructor].
      intros acc x Hacc. now apply readShipment_well_formed.
    - intros its Hits. now apply ensures_ret. }
  match type of E with
  | context [bind ?m ?f w] =>
      destruct (bind m f w) as [[r0|e|] w1] eqn:Eb
  end.
  - injection E as <- <-. exact (Hbody _ _ _ Eb).
  - injection E as <- _. exact I.
  - discriminate.
Qed.

End DetailsItems.

(** Every item of the details that [getOrderDetails] returns has a name
    that is not empty (items without a title are skipped), a count of at
    least 1 (a count that is missing, not a number or not positive becomes
    1) and a status that is not empty ("Delivered" when the page shows
    none). *)
Theorem getOrderDetails_items (env : Env) (toLowerCase : jsstring -> jsstring)
  (detailsHref : option jsstring) (w w' : World)
  (details : OrderDetails.Details) :
  OrderDetails.getOrderDetails env toLowerCase detailsHref w
  = (Ok (Some details), w') ->
  Forall (fun item =>
            OrderDetails.name item <> [] /\ 1 <= OrderDetails.qty item
            /\ OrderDetails.status item <> [])
    (OrderDetails.items details).
Proof.
  intros H.
  exact (@getOrderDetails_well_formed env toLowerCase detailsHref _ _ _ H).
Qed.

Lemma sample_details_read :
  OrderDetails.getOrderDetails details_env lower_ascii
    (Some (lit "/order-details/1")) new_world
  = (Ok (Some sample_details),
     snd (OrderDetails.getOrderDetails details_env lower_ascii
            (Some (lit "/order-details/1")) new_world)).
Proof.
  apply injective_projections; [vm_compute; reflexivity|reflexivity].
Qed.

Lemma getOrderDetails_items_witness :
  Forall (fun item =>
            OrderDetails.name item <> [] /\ 1 <= OrderDetails.qty item
            /\ OrderDetails.status item <> [])
    (OrderDetails.items sample_details).
Proof.
  exact (@getOrderDetails_items details_env lower_ascii
           (Some (lit "/order-details/1")) new_world _ sample_details
           sample_details_read).
Defined.

(** ** The rows of an order that is read from its details page *)

Section DetailsRows.

Import OrderDetails.

Variable env : Env.
Variable toLowerCase : jsstring -> jsstring.
Hypothesis Hio : io_ok env.

Lemma details_items_ok orderDate p (its : list Item) :
  forall total w,
  exists total' w',
    for_of its (processItem env orderDate p) total w = (Ok total', w')
    /\ appended p (List.map (details_item_row orderDate) its) w w'.
Proof.
  induction its as [|item its IH]; intros total w.
  - exists total, w. split; [reflexivity|apply appended_refl].
  - cbn [for_of]. unfold processItem at 1.
    rewrite (bind_ok _ (bind_ok _ (@writeCSVRow_ok env Hio p _ w))).
    match goal with
    | |- context [for_of its _ ?t ?w1] =>
        destruct (IH t w1) as (total' & w' & Hrun & Happ)
    end.
    exists total', w'. split; [exact Hrun|].
    change (List.map (details_item_row orderDate) (item :: its))
      with ([details_item_row orderDate item] ++ List.map (details_item_row orderDate) its).
    eapply appended_trans; [|exact Happ].
    unfold appended. rewrite file_content_written. cbn.
    now rewrite app_nil_r.
Qed.

Lemma details_rows_ok (orderEl : Element) (detailsHref : option jsstring)
  (p : jsstring) (w w1 : World) (details : Details) :
  getOrderDetails env toLowerCase detailsHref w = (Ok (Some details), w1) ->
  let orderDate :=
    match orderDate details with
    | [] => lit "ERROR: order date not found"
    | d => d
    end in
  let shippingCents := usdToCents (Some (shipping details)) in
  exists w',
    processOrder env toLowerCase orderEl detailsHref p w
    = (Ok (usdToCents (Some (subtotal details)) + shippingCents), w')
    /\ appended p
         (List.map (details_item_row orderDate) (items details)
            ++ (if Z.ltb 0 shippingCents
                then [[orderDate; []; lit "1"; lit "shipment";
                       centsToUSD shippingCents; centsToUSD shippingCents;
                       []]]
                else []))
         w w'.
Proof.
  intros Hget. cbv zeta.
  destruct (getOrderDetails_reads env toLowerCase detailsHref w)
    as (r & w0 & Hget' & Hfiles & _).
  rewrite Hget in Hget'. injection Hget' as <- <-.
  unfold processOrder.
  destruct detailsHref as [[|c href]|];
    try (cbn in Hget; discriminate).
  rewrite (bind_ok _ Hget).
  set (date := match orderDate details with
               | [] => lit "ERROR: order date not found"
               | d => d
               end).
  destruct (details_items_ok date p (items details) 0 w1)
    as (total' & w2 & Hitems & Happ).
  rewrite (bind_ok _ Hitems).
  assert (Hstart : forall rows w', appended p rows w1 w' ->
                                   appended p rows w w').
  { intros rows w' H. unfold appended, file_content in *.
    now rewrite <- Hfiles. }
  destruct (Z.gtb_spec (usdToCents (Some (shipping details))) 0) as [Hpos|Hle].
  - rewrite (bind_ok _ (@writeCSVRow_ok env Hio p _ w2)).
    eexists. split; [reflexivity|].
    replace (Z.ltb 0 (usdToCents (Some (shipping details)))) with true
      by (symmetry; apply Z.ltb_lt; lia).
    apply Hstart. eapply appended_trans; [exact Happ|].
    unfold appended. rewrite file_content_written. cbn.
    now rewrite app_nil_r.
  - exists w2. split; [reflexivity|].
    replace (Z.ltb 0 (usdToCents (Some (shipping details)))) with false
      by (symmetry; apply Z.ltb_ge; lia).
    rewrite app_nil_r. apply Hstart, Happ.
Qed.

End DetailsRows.

(** When no call fails and [getOrderDetails] has read the details, the
    amount that [processOrder] returns is the subtotal plus the shipping
    cost that the page states: it depends neither on the items nor on the
    tax.  It adds exactly these rows to the file, in this order: one row
    per item, then the row of the shipment when the shipping cost is
    positive.  The row of an item is the date of the order (or the error
    text when the page gave none), the status of the item, its count, the
    first 80 code units of its name with [;] turned into [,], its unit
    price, its total price (0.00 unless the status is exactly "Delivered")
    and an empty tag.  The row of the shipment is the date, an empty
    status, the count 1, the name "shipment", the shipping cost twice and
    an empty tag. *)
Theorem details_order_rows (env : Env) (toLowerCase : jsstring -> jsstring)
  (orderEl : Element) (detailsHref : option jsstring) (p : jsstring)
  (w w1 : World) (details : OrderDetails.Details) :
  io_ok env ->
  OrderDetails.getOrderDetails env toLowerCase detailsHref w
  = (Ok (Some details), w1) ->
  let orderDate :=
    match OrderDetails.orderDate details with
    | [] => lit "ERROR: order date not found"
    | d => d
    end in
  let shippingCents := usdToCents (Some (OrderDetails.shipping details)) in
  let itemRow := fun item =>
    [orderDate;
     OrderDetails.status item;
     numToString (OrderDetails.qty item);
     replaceAll (chr 59) (lit ",") (slice0 80 (OrderDetails.name item));
     centsToUSD (usdToCents (Some (OrderDetails.priceText item)));
     if str_eqb (OrderDetails.status item) (lit "Delivered")
     then centsToUSD (usdToCents (Some (OrderDetails.priceText item))
                      * OrderDetails.qty item)
     else lit "0.00";
     []] in
  let shipmentRow :=
    [orderDate; []; lit "1"; lit "shipment";
     centsToUSD shippingCents; centsToUSD shippingCents; []] in
  let rows :=
    List.map itemRow (OrderDetails.items details)
      ++ (if Z.ltb 0 shippingCents then [shipmentRow] else []) in
  exists w',
    OrderDetails.processOrder env toLowerCase orderEl detailsHref p w
    = (Ok (usdToCents (Some (OrderDetails.subtotal details)) + shippingCents),
       w')
    /\ file_content w' p
       = file_content w p ++ List.concat (List.map csvRow rows)
    /\ Forall (fun row => List.length row = 7%nat) rows
    /\ List.length rows
       = (List.length (OrderDetails.items details)
          + if Z.ltb 0 shippingCents then 1 else 0)%nat.
Proof.
  intros Hio Hget. cbv zeta.
  destruct (@details_rows_ok env toLowerCase Hio orderEl detailsHref p w w1
              details Hget) as (w' & Hrun & Happ).
  exists w'. split; [exact Hrun|].
  set (date := match OrderDetails.orderDate details with
               | [] => lit "ERROR: order date not found"
               | d => d
               end) in *.
  assert (Hrows :
    List.map (details_item_row date) (OrderDetails.items details)
    = List.map
        (fun item =>
           [date; OrderDetails.status item;
            numToString (OrderDetails.qty item);
            replaceAll (chr 59) (lit ",") (slice0 80 (OrderDetails.name item));
            centsToUSD (usdToCents (Some (OrderDetails.priceText item)));
            if str_eqb (OrderDetails.status item) (lit "Delivered")
            then centsToUSD (usdToCents (Some (OrderDetails.priceText item))
                             * OrderDetails.qty item)
            else lit "0.00";
            []])
        (OrderDetails.items details)).
  { apply map_ext. intros item. unfold details_item_row.
    now destruct (str_eqb (OrderDetails.status item) (lit "Delivered")). }
  rewrite <- Hrows. split; [exact Happ|]. split.
  - apply Forall_app. split.
    + apply Forall_map, Forall_forall. intros item _. reflexivity.
    + destruct (Z.ltb 0 _); repeat constructor.
  - rewrite length_app, length_map.
    now destruct (Z.ltb 0 (usdToCents (Some (OrderDetails.shipping details)))).
Qed.

Lemma details_order_rows_witness :
  fst (OrderDetails.processOrder details_env lower_ascii (text_node "order")
         (Some (lit "/order-details/1")) (lit "orders.csv") new_world)
  = Ok (2750 + 499).
Proof.
  destruct (@details_order_rows details_env lower_ascii (text_node "order")
              (Some (lit "/order-details/1")) (lit "orders.csv") new_world
              _ sample_details (fun n => eq_refl) sample_details_read)
    as (w' & Hrun & _).
  rewrite Hrun. reflexivity.
Defined.

(** When [getOrderDetails] gives [null] (there is no link, or reading the
    page failed), [processOrder] skips the order: it returns 0 and writes
    nothing. *)
Theorem details_order_skipped (env : Env) (toLowerCase : jsstring -> jsstring)
  (orderEl : Element) (detailsHref : option jsstring) (p : jsstring)
  (w : World) :
  fst (OrderDetails.getOrderDetails env toLowerCase detailsHref w) = Ok None ->
  exists w',
    OrderDetails.processOrder env toLowerCase orderEl detailsHref p w
    = (Ok 0, w')
    /\ files w' = files w.
Proof.
  intros Hnone.
  destruct (getOrderDetails_reads env toLowerCase detailsHref w)
    as (r & w1 & Hget & Hfiles & _).
  rewrite Hget in Hnone. cbn in Hnone. injection Hnone as ->.
  unfold OrderDetails.processOrder.
  destruct detailsHref as [[|c href]|]; try (now exists w).
  exists w1. now rewrite (bind_ok _ Hget).
Qed.

Lemma details_order_skipped_witness :
  fst (OrderDetails.processOrder offline_env lower_ascii (text_node "order")
         (Some (lit "/order-details/1")) (lit "orders.csv") new_world)
  = Ok 0.
Proof.
  destruct (@details_order_skipped offline_env lower_ascii
              (text_node "order") (Some (lit "/order-details/1"))
              (lit "orders.csv") new_world) as (w' & Hrun & _).
  - vm_compute. reflexivity.
  - now rewrite Hrun.
Defined.

(** ** Printed amounts are told apart *)

Lemma centsToUSD_sign (c : Z) :
  Z.abs c <= 100 * 2 ^ 46 ->
  hd_error (centsToUSD c) = Some 45%N <-> c < 0.
Proof.
  intros Hc. rewrite centsToUSD_exact by exact Hc.
  destruct (Z.ltb_spec c 0) as [Hneg|Hpos].
  - split; [intros _; exact Hneg|reflexivity].
  - split; [|lia]. cbn [app]. intros H. exfalso.
    destruct (to_digits_spec (n:=Z.abs c / 100)) as (Hne & Hds & _);
      [apply Z.div_pos; lia|].
    destruct (to_digits (Z.abs c / 100)) as [|d ds]; [congruence|].
    cbn in H, Hds. injection H as ->. discriminate.
Qed.

(** Two amounts of cents that [centsToUSD] prints in the same way are the
    same amount (stated for the amounts whose division by 100 the script
    prints exactly). *)
Theorem centsToUSD_injective (a b : Z) :
  - 2 ^ 52 < a < 2 ^ 52 -> - 2 ^ 52 < b < 2 ^ 52 ->
  centsToUSD a = centsToUSD b -> a = b.
Proof.
  intros Ha0 Hb0 E.
  assert (Ha1 : Z.abs a <= 100 * 2 ^ 46)
    by (change (100 * 2 ^ 46) with (2 ^ 52 + 36 * 2 ^ 46); lia).
  assert (Hb1 : Z.abs b <= 100 * 2 ^ 46)
    by (change (100 * 2 ^ 46) with (2 ^ 52 + 36 * 2 ^ 46); lia).
  pose proof (centsToUSD_sign a Ha1) as Sa.
  pose proof (centsToUSD_sign b Hb1) as Sb.
  rewrite E in Sa.
  assert (Hsign : Z.ltb a 0 = Z.ltb b 0).
  { destruct (Z.ltb_spec a 0) as [Ha|Ha], (Z.ltb_spec b 0) as [Hb|Hb];
      try reflexivity; exfalso.
    - assert (b < 0) by (apply Sb, Sa, Ha). lia.
    - assert (a < 0) by (apply Sa, Sb, Hb). lia. }
  assert (Habs : Z.abs a = Z.abs b); [|destruct (Z.ltb_spec a 0),
                                         (Z.ltb_spec b 0); try discriminate;
                                         lia].
  rewrite (centsToUSD_exact a Ha1), (centsToUSD_exact b Hb1) in E.
  rewrite Hsign in E. apply app_inv_head in E.
  assert (Ha : 0 <= Z.abs a) by lia. assert (Hb : 0 <= Z.abs b) by lia.
  clear Ha0 Hb0 Ha1 Hb1 Sa Sb Hsign.
  revert E. generalize dependent (Z.abs b). generalize dependent (Z.abs a).
  clear. intros x Hx y Hy E.
  destruct (to_digits_spec (n:=x / 100)) as (_ & _ & Vx);
    [apply Z.div_pos; lia|].
  destruct (to_digits_spec (n:=y / 100)) as (_ & _ & Vy);
    [apply Z.div_pos; lia|].
  apply (f_equal (@rev N)) in E. rewrite !rev_app_distr in E.
  cbn [rev app lit List.map list_ascii_of_string] in E.
  injection E as E2 E1 E. apply (f_equal (@rev N)) in E.
  rewrite !rev_involutive in E.
  assert (Hq : x / 100 = y / 100) by (rewrite <- Vx, <- Vy; now rewrite E).
  assert (H10 : forall d, 0 <= d <= 9 -> digit_val (digit_char d) = d).
  { intros d Hd. now destruct (digit_char_digit (d:=d) Hd). }
  assert (Rx : 0 <= x mod 10 <= 9)
    by (pose proof (Z.mod_pos_bound x 10 ltac:(lia)); lia).
  assert (Ry : 0 <= y mod 10 <= 9)
    by (pose proof (Z.mod_pos_bound y 10 ltac:(lia)); lia).
  assert (Tx : 0 <= x mod 100 / 10 <= 9).
  { pose proof (Z.mod_pos_bound x 100 ltac:(lia)).
    split; [apply Z.div_pos; lia|].
    apply Z.lt_succ_r, Z.div_lt_upper_bound; lia. }
  assert (Ty : 0 <= y mod 100 / 10 <= 9).
  { pose proof (Z.mod_pos_bound y 100 ltac:(lia)).
    split; [apply Z.div_pos; lia|].
    apply Z.lt_succ_r, Z.div_lt_upper_bound; lia. }
  apply (f_equal digit_val) in E1, E2.
  rewrite !H10 in E1, E2 by assumption.
  pose proof (Z.div_mod x 100 ltac:(lia)).
  pose proof (Z.div_mod y 100 ltac:(lia)).
  pose proof (Z.div_mod (x mod 100) 10 ltac:(lia)).
  pose proof (Z.div_mod (y mod 100) 10 ltac:(lia)).
  assert (x mod 100 mod 10 = x mod 10)
    by (apply Z.mod_mod_divide; exists 10; reflexivity).
  assert (y mod 100 mod 10 = y mod 10)
    by (apply Z.mod_mod_divide; exists 10; reflexivity).
  lia.
Qed.

Lemma centsToUSD_injective_witness : 1999 = 1999.
Proof.
  apply centsToUSD_injective; [split; reflexivity|split; reflexivity|].
  reflexivity.
Defined.

(** ** The sign-in check and the status of a shipment *)

(** The address of the page plays no part in the sign-in check: with the
    same answers to [page.$], it gives the same result whatever [page.url()]
    says, and that result is [true] exactly when the container of the orders
    is there. *)
Theorem signInCheck_ignores_url (env1 env2 : Env) (w : World) :
  e_query env1 (step w) ORDER_CONTAINER = e_query env2 (step w) ORDER_CONTAINER ->
  fst (signInCheck env1 w) = fst (signInCheck env2 w)
  /\ (fst (signInCheck env1 w) = Ok true
      <-> exists c, e_query env1 (step w) ORDER_CONTAINER
                    = Fulfilled (Some c)).
Proof.
  intros H. unfold signInCheck, bind, page_query, page_url. rewrite <- H.
  destruct (e_query env1 (step w) ORDER_CONTAINER) as [[c|]|e];
    cbn [result_of].
  - split; [reflexivity|]. split; [intros _; now exists c|reflexivity].
  - split.
    + now repeat destruct (includes _ _).
    + split; [|intros (c & Hc); discriminate].
      repeat destruct (includes _ _); discriminate.
  - split; [reflexivity|]. split; [discriminate|].
    intros (c & Hc). discriminate.
Qed.

Lemma signInCheck_ignores_url_witness :
  fst (signInCheck (signed_out_env (fun _ => 0)) new_world)
  = fst (signInCheck offline_env new_world).
Proof.
  apply (@signInCheck_ignores_url (signed_out_env (fun _ => 0)) offline_env
           new_world).
  reflexivity.
Defined.

Lemma split_head_clean (sep : char) (s : jsstring) :
  forallb (fun c => negb (char_eqb c sep)) (nth 0 (split sep s) []) = true.
Proof.
  induction s as [|c s IH]; [reflexivity|].
  cbn [split]. destruct (char_eqb c sep) eqn:E; [reflexivity|].
  destruct (split sep s) as [|cur more]; cbn in IH |- *.
  - now rewrite E.
  - now rewrite E, IH.
Qed.

Lemma trimStart_head (s : jsstring) :
  match trimStart s with
  | c :: _ => is_space c = false
  | [] => True
  end.
Proof.
  induction s as [|c s IH]; [exact I|]. cbn [trimStart].
  destruct (is_space c) eqn:E; [exact IH|exact E].
Qed.

(** The status of a shipment, as it is written to the CSV file and tested
    for a return, is one line: it holds no line feed, and it neither starts
    nor ends with white space. *)
Theorem shipment_status_one_line (shipEl : Element) :
  forallb (fun c => negb (char_eqb c 10)) (shipment_status shipEl) = true
  /\ match shipment_status shipEl with
     | c :: _ => is_space c = false
     | [] => True
     end
  /\ match rev (shipment_status shipEl) with
     | c :: _ => is_space c = false
     | [] => True
     end.
Proof.
  unfold shipment_status, firstLine, trim.
  set (line := nth 0 (split 10 (text_of shipEl SHIPMENT_STATUS)) []).
  assert (Hline : forallb (fun c => negb (char_eqb c 10)) line = true)
    by apply split_head_clean.
  split; [|split].
  - unfold trimEnd. rewrite forallb_rev. apply trimStart_forallb.
    rewrite forallb_rev. now apply trimStart_forallb.
  - pose proof (trimStart_head line) as Hhead.
    destruct (trimStart line) as [|c t]; [exact I|].
    change (c :: t) with ([] ++ c :: t).
    now rewrite (@trimEnd_after [] c t Hhead).
  - unfold trimEnd. rewrite rev_involutive. apply trimStart_head.
Qed.

(** ** Items that the page does not show *)

(** An item whose name and price cannot be read (the selector matches
    nothing, the text is empty or the call is rejected) does not stop the
    run: when the file can be written, its row is added with the count 1,
    the name "ERROR: selector_article_name not found" and prices of 0.00, and
    the totals are what they were. *)
Theorem processItem_missing_selectors (env : Env)
  (shipmentStatus orderDate p : jsstring) (shipmentIsReturn : bool)
  (total paid : Z) (itemEl : Element) (w : World) :
  io_ok env ->
  text_of itemEl ARTICLE_NAME = [] ->
  text_of itemEl ARTICLE_PRICE = [] ->
  exists w',
    processItem env shipmentStatus shipmentIsReturn orderDate p (total, paid)
      itemEl w
    = (Ok (total, paid), w')
    /\ file_content w' p
       = file_content w p
           ++ csvRow [orderDate; shipmentStatus; lit "1";
                      lit "ERROR: selector_article_name not found";
                      lit "0.00"; lit "0.00"; []].
Proof.
  intros Hio Hname Hprice.
  rewrite (@processItem_ok env Hio).
  assert (Hshown : item_name_shown itemEl
                   = lit "ERROR: selector_article_name not found")
    by (unfold item_name_shown; now rewrite Hname).
  assert (Hline : item_line itemEl = 0)
    by (unfold item_line, item_single; now rewrite Hprice).
  eexists. split.
  - rewrite Hline, !Z.add_0_r. now destruct shipmentIsReturn.
  - rewrite file_content_written. do 2 f_equal.
    unfold item_row, item_count, item_name, item_single.
    rewrite Hline, Hshown, Hprice.
    now destruct shipmentIsReturn.
Qed.

Lemma processItem_missing_selectors_witness :
  fst (processItem (signed_in_env []) (lit "Delivered") false
         (lit "March 3, 2024") (lit "orders.csv") (2000, 2000)
         (text_node "nothing inside") new_world)
  = Ok (2000, 2000).
Proof.
  destruct (@processItem_missing_selectors (signed_in_env [])
              (lit "Delivered") (lit "March 3, 2024") (lit "orders.csv")
              false 2000 2000 (text_node "nothing inside") new_world
              (signed_in_env_io_ok []) eq_refl eq_refl) as (w' & Hrun & _).
  now rewrite Hrun.
Defined.

(** ** The wait loop ends *)

Section WaitEnds.

Variable env : Env.
Variable checkFn : M bool.
Variables start timeoutMs intervalMs : Z.

(** Every call takes time, and every check makes at least one call. *)
Hypothesis clock_runs : forall n, e_now env n < e_now env (S n).
Hypothesis check_steps :
  forall w, (step w < step (snd (checkFn w)))%nat
            /\ fst (checkFn w) <> OutOfFuel.

Lemma clock_ahead (n m : nat) :
  (n <= m)%nat -> e_now env n + Z.of_nat (m - n) <= e_now env m.
Proof.
  induction 1 as [|m Hle IH].
  - rewrite Nat.sub_diag. cbn. lia.
  - pose proof (clock_runs m).
    replace (S m - n)%nat with (S (m - n)) by lia. lia.
Qed.

Lemma waitUntil_loop_ends_in_time (fuel : nat) :
  forall w,
    timeoutMs - (e_now env (step w) - start) < Z.of_nat fuel + 1 ->
    fst (waitUntil_loop env (S fuel) checkFn start timeoutMs intervalMs w)
    = Ok true
    \/ fst (waitUntil_loop env (S fuel) checkFn start timeoutMs intervalMs w)
       = Throw timedOut.
Proof.
  induction fuel as [|fuel IH]; intros w Hleft;
    cbn [waitUntil_loop];
    destruct (check_steps w) as [Hstep Hfuel];
    destruct (checkFn w) as [r w1] eqn:Hcheck; cbn [fst snd] in Hstep, Hfuel;
    pose proof (@clock_ahead (S (step w)) (step w1) Hstep) as Hclock;
    pose proof (clock_runs (step w)) as Hfirst;
    pose proof (clock_runs (step w1)) as H1;
    pose proof (clock_runs (S (step w1))) as H2;
    (assert (Hr : r = Ok true \/ check_failed r)
       by (destruct r as [[|]|e|];
           [now left|right; now left|right; right; now exists e|congruence]));
    (destruct Hr as [->|Hr];
     [erewrite bind_ok by (eapply waitUntil_turn_success; exact Hcheck);
      now left|]);
    (destruct (Z_le_gt_dec (e_now env (step w1) - start) timeoutMs)
       as [Hidle|Hout];
     [erewrite bind_ok by (eapply waitUntil_turn_idle; eassumption)
     |erewrite bind_throw by (eapply waitUntil_turn_timeout; eassumption);
      now right]).
  - exfalso. cbn in Hleft. lia.
  - apply IH. cbn [tick step]. lia.
Qed.

End WaitEnds.

(** With a clock that runs (every call takes a millisecond at least) and a
    check that makes at least one call, [waitUntil] always ends: given more
    turns than the timeout has milliseconds, it returns [true] or throws
    its timeout, and never needs more turns. *)
Theorem waitUntil_ends (env : Env) (fuel : nat) (checkFn : M bool)
  (timeoutMs intervalMs : Z) (w : World) :
  (forall n, e_now env n < e_now env (S n)) ->
  (forall w0, (step w0 < step (snd (checkFn w0)))%nat
              /\ fst (checkFn w0) <> OutOfFuel) ->
  0 <= timeoutMs < Z.of_nat fuel ->
  fst (waitUntil env fuel checkFn timeoutMs intervalMs w) = Ok true
  \/ fst (waitUntil env fuel checkFn timeoutMs intervalMs w)
     = Throw timedOut.
Proof.
  intros Hclock Hcheck Hfuel.
  unfold waitUntil, bind, date_now.
  destruct fuel as [|fuel]; [exfalso|].
  - cbn in Hfuel. lia.
  - apply waitUntil_loop_ends_in_time; auto.
    pose proof (Hclock (step w)). cbn [tick step]. lia.
Qed.

Lemma signInCheck_steps (env : Env) (w : World) :
  (step w < step (snd (signInCheck env w)))%nat
  /\ fst (signInCheck env w) <> OutOfFuel.
Proof.
  unfold signInCheck, bind, page_query, page_url.
  destruct (e_query env (step w) ORDER_CONTAINER) as [[c|]|e];
    cbn [result_of]; try (split; [cbn; lia|discriminate]).
  repeat destruct (includes _ _); cbn; (split; [lia|discriminate]).
Qed.

Lemma waitUntil_ends_witness :
  fst (waitUntil (signed_out_env (fun n => Z.of_nat n * 100000)) 5
         (signInCheck (signed_out_env (fun n => Z.of_nat n * 100000)))
         4 1000 new_world)
  = Throw timedOut.
Proof.
  destruct (@waitUntil_ends (signed_out_env (fun n => Z.of_nat n * 100000)) 5
              (signInCheck (signed_out_env (fun n => Z.of_nat n * 100000)))
              4 1000 new_world) as [H|H].
  - intros n. cbn. lia.
  - apply signInCheck_steps.
  - cbn. lia.
  - vm_compute in H. discriminate.
  - exact H.
Defined.
